(** * free.dm IPC: connection lifecycle, read loop and transport adapters

    A shallow embedding of [freedm/utils/ipc/client/base.py]
    (class [IPCSocketClient]), [freedm/utils/ipc/server/uxd.py]
    (class [UXDSocketServer]) and [freedm/utils/sorting.py]
    ([topologicalSorter]), together with the parts of the Python
    runtime and of asyncio they rely on.

    Coroutines become functions in a state-and-exception monad over an
    explicit world; each [await] that can suspend is resolved by a script
    carried by the object that is waited on. *)

From Stdlib Require Import ZArith List String Bool Lia.
From Stdlib.Strings Require Import Byte.
From stdpp Require Import base list gmap strings.

(** ** Python runtime: exceptions, results, truthiness, the clock, struct *)

Module Py.

Definition bytes := list Byte.byte.

(** [time.time()] returns a float; timestamps are kept as integers
    (any fixed resolution), only equality and zero-ness are ever used. *)
Definition Time := Z.

(** The four message templates [freedmIPCSocketCreation] is raised
    with in [uxd.py]; the formatted-in exception, if any, is kept next
    to the template. *)
Inductive CreationMsg :=
| NoSocketFileProvided
| PathIsADirectory (path : string)
| CannotDeleteSocketFile (path : string)
| CannotCreateSocketFile (path : string).

(** The exceptions that can travel through the modelled code.  On the
    interpreter this code targets (the import of [freedm.utils.async]
    only parses before 3.7) all of them derive from [Exception]. *)
#[warnings="-register-all"]
Inductive Exn :=
| CancelledError
| ConnectionResetError
| OSError (what : string)
| TypeError
| AttributeError
| UnboundLocalError (name : string)
| StructError
| freedmIPCMessageHandler (cause : Exn)
| freedmIPCSocketCreation (msg : CreationMsg) (cause : option Exn)
| freedmIPCSocketShutdown (cause : Exn).

(** Outcome of a call: a value, a raised exception, or a suspension
    that is never resumed. *)
Inductive Res (A : Type) :=
| Ok (a : A)
| Raise (e : Exn)
| Blocked.
Arguments Ok {A} a.
Arguments Raise {A} e.
Arguments Blocked {A}.

(** [bool(x)] for an [Optional[int]]: [None] and [0] are falsy. *)
Definition truthy_int (o : option Z) : bool :=
  match o with
  | Some z => negb (z =? 0)%Z
  | None => false
  end.

(** [bool(x)] for an optional timestamp: [None] and [0.0] are falsy. *)
Definition truthy_time (o : option Time) : bool := truthy_int o.

(** [bool(x)] for an optional path string: [None] and [''] are falsy. *)
Definition truthy_str (o : option string) : bool :=
  match o with
  | Some EmptyString => false
  | Some (String _ _) => true
  | None => false
  end.

(** The wall clock: the n-th call of [time.time()] returns [ticks n]. *)
Record Clock := { ticks : nat -> Time; reads : nat }.

Definition time_time (c : Clock) : Time * Clock :=
  (ticks c (reads c), {| ticks := ticks c; reads := S (reads c) |}).

(** *** [struct.unpack('3i', ...)] *)

Inductive ByteOrder := LittleEndian | BigEndian.

Definition byte_val (b : Byte.byte) : Z := Z.of_N (Byte.to_N b).

Fixpoint uint_le (bs : bytes) : Z :=
  match bs with
  | [] => 0
  | b :: rest => byte_val b + 256 * uint_le rest
  end%Z.

Definition to_signed32 (u : Z) : Z :=
  (if u <? 2 ^ 31 then u else u - 2 ^ 32)%Z.

(** One native [int]: four bytes in the platform's byte order. *)
Definition unpack_i (bo : ByteOrder) (bs : bytes) : Z :=
  to_signed32 (uint_le (match bo with
                        | LittleEndian => bs
                        | BigEndian => rev bs
                        end)).

(** [struct.calcsize('3i')] *)
Definition calcsize_3i : nat := 12.

(** [struct.unpack('3i', buf)]: raises [struct.error] unless the buffer
    has exactly [calcsize('3i')] bytes. *)
Definition unpack_3i (bo : ByteOrder) (buf : bytes) : Res (Z * Z * Z) :=
  if Nat.eqb (length buf) calcsize_3i then
    Ok (unpack_i bo (take 4 buf),
        unpack_i bo (take 4 (drop 4 buf)),
        unpack_i bo (take 4 (drop 8 buf)))
  else Raise StructError.

End Py.

Import Py.

(** ** asyncio: stream reader, stream writer, sockets, tasks *)

Module asyncio.

(** What the event loop delivers to a reader while a coroutine is
    suspended on it. *)
Inductive Arrival :=
| Data (bs : bytes)      (* feed_data(bs) *)
| Eof                    (* feed_eof() *)
| Lost (e : Exn)         (* set_exception(e), e.g. ConnectionResetError *)
| Cancel.                (* the waiting task is cancelled *)

Record StreamReader := {
  _buffer : bytes;
  _eof : bool;
  _exception : option Exn;
  feed : list Arrival
}.

Definition is_empty (bs : bytes) : bool :=
  match bs with [] => true | _ => false end.

Definition at_eof (r : StreamReader) : bool := _eof r && is_empty (_buffer r).

Definition feed_eof (r : StreamReader) : StreamReader :=
  {| _buffer := _buffer r; _eof := true;
     _exception := _exception r; feed := feed r |}.

(** [await self._wait_for_data(...)]: suspend until the loop delivers
    something.  An empty [feed_data] does not wake the waiter; a script
    that runs dry leaves the coroutine suspended for good. *)
Fixpoint _wait_for_data (fd : list Arrival) (r : StreamReader)
  : Res unit * StreamReader :=
  match fd with
  | [] =>
      (Blocked, {| _buffer := _buffer r; _eof := _eof r;
                   _exception := _exception r; feed := [] |})
  | Data bs :: fd' =>
      if is_empty bs then _wait_for_data fd' r
      else (Ok tt, {| _buffer := _buffer r ++ bs; _eof := _eof r;
                      _exception := _exception r; feed := fd' |})
  | Eof :: fd' =>
      (Ok tt, {| _buffer := _buffer r; _eof := true;
                 _exception := _exception r; feed := fd' |})
  | Lost e :: fd' =>
      (Raise e, {| _buffer := _buffer r; _eof := _eof r;
                   _exception := Some e; feed := fd' |})
  | Cancel :: fd' =>
      (Raise CancelledError,
       {| _buffer := _buffer r; _eof := _eof r;
          _exception := _exception r; feed := fd' |})
  end.

(** [read(-1)]: collect blocks until end-of-input. [acc] is what has
    been taken out of the buffer so far. *)
Fixpoint read_until_eof (fd : list Arrival) (acc : bytes) (r : StreamReader)
  : Res bytes * StreamReader :=
  match fd with
  | [] =>
      (Blocked, {| _buffer := []; _eof := _eof r;
                   _exception := _exception r; feed := [] |})
  | Data bs :: fd' => read_until_eof fd' (acc ++ bs) r
  | Eof :: fd' =>
      (Ok acc, {| _buffer := []; _eof := true;
                  _exception := _exception r; feed := fd' |})
  | Lost e :: fd' =>
      (Raise e, {| _buffer := []; _eof := _eof r;
                   _exception := Some e; feed := fd' |})
  | Cancel :: fd' =>
      (Raise CancelledError,
       {| _buffer := []; _eof := _eof r;
          _exception := _exception r; feed := fd' |})
  end.

(** [await reader.read(n)] *)
Definition read (n : Z) (r : StreamReader) : Res bytes * StreamReader :=
  match _exception r with
  | Some e => (Raise e, r)
  | None =>
      if (n =? 0)%Z then (Ok [], r)
      else if (n <? 0)%Z then
        if _eof r then
          (Ok (_buffer r), {| _buffer := []; _eof := true;
                              _exception := None; feed := feed r |})
        else read_until_eof (feed r) (_buffer r) r
      else
        let '(woken, r1) :=
          if is_empty (_buffer r) && negb (_eof r)
          then _wait_for_data (feed r) r
          else (Ok tt, r) in
        match woken with
        | Ok _ =>
            (Ok (take (Z.to_nat n) (_buffer r1)),
             {| _buffer := drop (Z.to_nat n) (_buffer r1); _eof := _eof r1;
                _exception := _exception r1; feed := feed r1 |})
        | Raise e => (Raise e, r1)
        | Blocked => (Blocked, r1)
        end
  end.

(** A socket as far as the adapters look at it: what
    [getsockopt(SOL_SOCKET, SO_PEERCRED, buflen)] has to offer
    ([None]: the option is not available and the call raises). *)
Record Socket := { peercred : option bytes }.

Definition getsockopt_peercred (s : Socket) (buflen : nat) : Res bytes :=
  match peercred s with
  | Some rec => Ok (take buflen rec)
  | None => Raise (OSError "getsockopt")
  end.

(** The operations of the close handshake that the transport can make
    fail. *)
Inductive HandshakeStep := StepWriteEof | StepSleep | StepClose.

Definition HandshakeStep_eqb (a b : HandshakeStep) : bool :=
  match a, b with
  | StepWriteEof, StepWriteEof | StepSleep, StepSleep
  | StepClose, StepClose => true
  | _, _ => false
  end.

Record StreamWriter := {
  extra_socket : option Socket;   (* get_extra_info('socket') *)
  is_closing : bool;              (* transport.is_closing() *)
  can_write_eof : bool;
  eof_written : bool;
  faulty : list HandshakeStep     (* steps that raise on this transport *)
}.

Definition fails (s : HandshakeStep) (w : StreamWriter) : bool :=
  existsb (HandshakeStep_eqb s) (faulty w).

Definition write_eof (w : StreamWriter) : Res unit * StreamWriter :=
  if fails StepWriteEof w then (Raise (OSError "write_eof"), w)
  else (Ok tt, {| extra_socket := extra_socket w; is_closing := is_closing w;
                  can_write_eof := can_write_eof w; eof_written := true;
                  faulty := faulty w |}).

(** [writer.close()] *)
Definition close (w : StreamWriter) : Res unit * StreamWriter :=
  if fails StepClose w then (Raise (OSError "close"), w)
  else (Ok tt, {| extra_socket := extra_socket w; is_closing := true;
                  can_write_eof := can_write_eof w;
                  eof_written := eof_written w; faulty := faulty w |}).

(** A task as [cancel()] and the event loop see it: [must_cancel] is
    the request [cancel()] leaves on a task that is not waiting,
    [running] marks the task whose coroutine the loop is running. *)
Record Task := { must_cancel : bool; done : bool; running : bool }.

Definition cancel (t : Task) : Task :=
  if done t then t
  else {| must_cancel := true; done := false; running := running t |}.

(** Whether the running task has been asked to cancel.  The loop throws
    [CancelledError] into such a task at its next suspension, and the
    request is cleared by that. *)
Definition cancel_pending (ts : list Task) : bool :=
  existsb (fun t => running t && must_cancel t) ts.

Definition throw_cancel (t : Task) : Task :=
  if running t
  then {| must_cancel := false; done := done t; running := true |}
  else t.

(** [await asyncio.sleep(.1)] inside the handshake: the running task
    suspends.  It is woken with [CancelledError] when it has been asked
    to cancel before (by its own [cancel()], as when a handler shuts
    its own client down), or when it is cancelled while it sleeps. *)
Definition sleep (w : StreamWriter) (ts : list Task)
  : Res unit * list Task :=
  if cancel_pending ts then (Raise CancelledError, throw_cancel <$> ts)
  else if fails StepSleep w then (Raise CancelledError, ts)
  else (Ok tt, ts).

End asyncio.

(** ** freedm.utils.ipc.connection and freedm.utils.ipc.message *)

Module connection.

(** Modelled from the spec: the enumeration [ConnectionType] of
    [freedm.utils.ipc.connection], which is not part of the sources at
    hand; its members are ordinary (truthy) enum members. *)
Inductive ConnectionType := EPHEMERAL | PERSISTENT.

(** The [state] dictionary of a connection; it always has these four
    keys. *)
Record State := {
  st_mode : ConnectionType;
  st_created : Time;
  st_updated : Time;
  st_closed : option Time
}.

(** Modelled from the spec: the record [Connection] of
    [freedm.utils.ipc.connection], which is not part of the sources at
    hand; the fields are those its constructor is called with. *)
Record Connection := {
  socket : option asyncio.Socket;
  pid : option Z;
  uid : option Z;
  gid : option Z;
  client_address : option string;
  server_address : option string;
  reader : asyncio.StreamReader;
  writer : asyncio.StreamWriter;
  state : State
}.

(** [self.mode or ConnectionType.PERSISTENT] *)
Definition mode_or_PERSISTENT (m : option ConnectionType) : ConnectionType :=
  match m with
  | Some t => t
  | None => PERSISTENT
  end.

(** A connection is referred to by the address of its object. *)
Definition Addr := nat.

Record Message := { data : bytes; sender : Addr }.

End connection.

Import connection.

(** ** freedm.utils.ipc.client.base: class IPCSocketClient *)

Module IPCSocketClient.

(** The attributes of [self]. *)
Record Self := {
  timeout : option Z;
  limit : option Z;
  chunksize : option Z;
  mode : option ConnectionType;
  _connection : option Addr;
  _handler : option nat
}.

(** Ghost record of what a run does: every read issued on the stream,
    every message handed to the handler, every call of [close()]. *)
Inductive Event :=
| EvRead (n : Z)
| EvMessage (m : Message)
| EvClose.

(** Readings of a trace. *)
Fixpoint closes (tr : list Event) : nat :=
  match tr with
  | [] => 0
  | EvClose :: tr' => S (closes tr')
  | _ :: tr' => closes tr'
  end.

Fixpoint messages (tr : list Event) : list Message :=
  match tr with
  | [] => []
  | EvMessage m :: tr' => m :: messages tr'
  | _ :: tr' => messages tr'
  end.

Fixpoint read_sizes (tr : list Event) : list Z :=
  match tr with
  | [] => []
  | EvRead n :: tr' => n :: read_sizes tr'
  | _ :: tr' => read_sizes tr'
  end.

(** Total number of payload bytes handed to the handler. *)
Definition payload (tr : list Event) : Z :=
  foldr (fun m acc => (Z.of_nat (length (data m)) + acc)%Z) 0%Z (messages tr).

(** Why the [while] loop of [_handleConnection] was left. *)
Inductive Exit :=
| AtEof                  (* the loop condition failed *)
| BudgetSpent            (* break: less than one chunk of limit left *)
| Cancelled              (* break in [except asyncio.CancelledError] *)
| PeerReset              (* break in [except ConnectionResetError] *)
| ReadFault (e : Exn)    (* break in [except Exception] *)
| FuelOut.               (* the model's iteration bound was reached *)

(** What one pass through the loop body leads to. *)
Inductive Flow :=
| Next (chunks : Z)
| Break (x : Exit)
| Propagate (e : Exn)
| Suspended.

Section Client.

(** State owned by code outside this class: the subclass behind
    [handleMessage] and the parent context manager. *)
Variable U : Type.

(** The overridable message handler, a coroutine: awaiting it returns,
    raises, or stays suspended; it keeps its own state. *)
Variable handleMessage : Message -> U -> Res unit * U.

(** [BlockingContextManager.__aexit__], defined in
    [freedm.utils.async], which is not part of the sources at hand:
    awaiting it returns, raises, or stays suspended. *)
Variable super_aexit : U -> Res unit * U.

Record World := {
  self : Self;
  heap : list Connection;        (* the connection objects, by address *)
  tasks : list asyncio.Task;     (* the tasks of the event loop *)
  clk : Clock;
  ext : U;
  trace : list Event
}.

Definition M (A : Type) : Type := World -> Res A * World.

Definition ret {A} (a : A) : M A := fun w => (Ok a, w).

Definition bind {A B} (c : M A) (k : A -> M B) : M B := fun w =>
  match c w with
  | (Ok a, w1) => k a w1
  | (Raise e, w1) => (Raise e, w1)
  | (Blocked, w1) => (Blocked, w1)
  end.

Notation "'let*' x ':=' c 'in' k" := (bind c (fun x => k))
  (at level 10, x name, c at level 100, k at level 200).

Definition set_self (s : Self) (w : World) : World :=
  {| self := s; heap := heap w; tasks := tasks w; clk := clk w;
     ext := ext w; trace := trace w |}.
Definition set_heap (h : list Connection) (w : World) : World :=
  {| self := self w; heap := h; tasks := tasks w; clk := clk w;
     ext := ext w; trace := trace w |}.
Definition set_tasks (ts : list asyncio.Task) (w : World) : World :=
  {| self := self w; heap := heap w; tasks := ts; clk := clk w;
     ext := ext w; trace := trace w |}.
Definition set_clk (c : Clock) (w : World) : World :=
  {| self := self w; heap := heap w; tasks := tasks w; clk := c;
     ext := ext w; trace := trace w |}.
Definition set_ext (u : U) (w : World) : World :=
  {| self := self w; heap := heap w; tasks := tasks w; clk := clk w;
     ext := u; trace := trace w |}.
Definition log (e : Event) (w : World) : World :=
  {| self := self w; heap := heap w; tasks := tasks w; clk := clk w;
     ext := ext w; trace := trace w ++ [e] |}.

Definition set_reader (r : asyncio.StreamReader) (c : Connection)
  : Connection :=
  {| socket := socket c; pid := pid c; uid := uid c; gid := gid c;
     client_address := client_address c;
     server_address := server_address c;
     reader := r; writer := writer c; state := state c |}.
Definition set_writer (wr : asyncio.StreamWriter) (c : Connection)
  : Connection :=
  {| socket := socket c; pid := pid c; uid := uid c; gid := gid c;
     client_address := client_address c;
     server_address := server_address c;
     reader := reader c; writer := wr; state := state c |}.
Definition set_state (s : State) (c : Connection) : Connection :=
  {| socket := socket c; pid := pid c; uid := uid c; gid := gid c;
     client_address := client_address c;
     server_address := server_address c;
     reader := reader c; writer := writer c; state := s |}.

(** [connection.state['updated'] = t] *)
Definition set_updated (t : Time) (c : Connection) : Connection :=
  set_state {| st_mode := st_mode (state c);
               st_created := st_created (state c);
               st_updated := t;
               st_closed := st_closed (state c) |} c.

(** [connection.state['closed'] = t] *)
Definition set_closed (t : Time) (c : Connection) : Connection :=
  set_state {| st_mode := st_mode (state c);
               st_created := st_created (state c);
               st_updated := st_updated (state c);
               st_closed := Some t |} c.

(** [connected(self)]: [self._connection and not
    self._connection.state['closed']], as a truth value.  An address
    without an object counts as [None]. *)
Definition connected (w : World) : bool :=
  match _connection (self w) with
  | None => false
  | Some a =>
      match heap w !! a with
      | Some c => negb (truthy_time (st_closed (state c)))
      | None => false
      end
  end.

(** [_assembleConnection(self, reader, writer)] *)
Definition _assembleConnection
    (rd : asyncio.StreamReader) (wr : asyncio.StreamWriter)
  : M Connection := fun w =>
  let '(t_created, c1) := time_time (clk w) in
  let '(t_updated, c2) := time_time c1 in
  (Ok {| socket := asyncio.extra_socket wr;
         pid := None;
         uid := None;
         gid := None;
         client_address := None;
         server_address := None;
         reader := rd;
         writer := wr;
         state := {| st_mode := mode_or_PERSISTENT (mode (self w));
                     st_created := t_created;
                     st_updated := t_updated;
                     st_closed := None |} |},
   set_clk c2 w).

(** The body of the [try] block of [closeConnection], run while the
    tasks of the loop are [ts]; [Some e] when a step raised [e] and the
    rest was skipped. *)
Definition handshake (c : Connection) (ts : list asyncio.Task)
  : option Exn * Connection * list asyncio.Task :=
  let '(first, c1) :=
    if asyncio.at_eof (reader c) then
      (* closed by server *)
      (Ok tt, set_reader (asyncio.feed_eof (reader c)) c)
    else
      (* closed by client *)
      if asyncio.can_write_eof (writer c) then
        let '(r, wr) := asyncio.write_eof (writer c) in
        (r, set_writer wr c)
      else (Ok tt, c) in
  match first with
  | Ok _ =>
      match asyncio.sleep (writer c1) ts with
      | (Ok _, ts1) =>
          match asyncio.close (writer c1) with
          | (Ok _, wr) => (None, set_writer wr c1, ts1)
          | (Raise e, wr) => (Some e, set_writer wr c1, ts1)
          | (Blocked, wr) => (None, set_writer wr c1, ts1)
          end
      | (Raise e, ts1) => (Some e, c1, ts1)
      | (Blocked, ts1) => (None, c1, ts1)
      end
  | Raise e => (Some e, c1, ts)
  | Blocked => (None, c1, ts)
  end.

(** [closeConnection(self, connection)] *)
Definition closeConnection (a : Addr) : M unit := fun w =>
  match heap w !! a with
  | None => (Raise AttributeError, w)
  | Some c =>
      if negb (asyncio.is_closing (writer c)) then
        (* try ... except: pass *)
        let '(_, c1, ts1) := handshake c (tasks w) in
        (* finally *)
        let '(t, clk1) := time_time (clk w) in
        (Ok tt,
         set_clk clk1
           (set_tasks ts1 (set_heap (<[a := set_closed t c1]> (heap w)) w)))
      else (Ok tt, w)
  end.

(** [_pre_disconnect] and [_post_disconnect]: template functions,
    [return]. *)
Definition _pre_disconnect (connection : option Addr) : M unit := ret tt.
Definition _post_disconnect (connection : option Addr) : M unit := ret tt.

(** [handler.cancel()] *)
Definition cancel_handler (t : nat) : M unit := fun w =>
  (Ok tt, set_tasks (alter asyncio.cancel t (tasks w)) w).

(** [await super().__aexit__(...)] *)
Definition super___aexit__ : M unit := fun w =>
  let '(r, u) := super_aexit (ext w) in (r, set_ext u w).

(** [__aexit__(self, ...)] *)
Definition __aexit__ : M unit := fun w =>
  if negb (connected w) then (Ok tt, w)
  else
    (* Set internals to None again *)
    let handler := _handler (self w) in
    let connection := _connection (self w) in
    let w1 := set_self {| timeout := timeout (self w);
                          limit := limit (self w);
                          chunksize := chunksize (self w);
                          mode := mode (self w);
                          _connection := None;
                          _handler := None |} w in
    (let* _ := _pre_disconnect connection in
     let* _ := match handler with
               | Some t => cancel_handler t
               | None => ret tt
               end in
     let* _ := match connection with
               | Some a => closeConnection a
               | None => ret tt
               end in
     let* _ := _post_disconnect connection in
     super___aexit__) w1.

(** [close(self)] *)
Definition close : M unit := fun w => __aexit__ (log EvClose w).

(** [_onConnectionEstablished(self, connection)]: store the
    connection and start the handler task for it (with or without
    the [wait_for] wrapper, it is one new task, scheduled and not yet
    running). *)
Definition _onConnectionEstablished (c : Connection) : M unit := fun w =>
  let a := length (heap w) in
  let t := length (tasks w) in
  (Ok tt,
   set_self {| timeout := timeout (self w);
               limit := limit (self w);
               chunksize := chunksize (self w);
               mode := mode (self w);
               _connection := Some a;
               _handler := Some t |}
     (set_tasks (tasks w ++ [{| asyncio.must_cancel := false;
                                asyncio.done := false;
                                asyncio.running := false |}])
        (set_heap (heap w ++ [c]) w))).

(** The value of an [Optional[int]] attribute that tested truthy. *)
Definition int_of (o : option Z) : Z := default 0%Z o.

(** [self.limit or -1] *)
Definition limit_or_minus1 (s : Self) : Z :=
  if truthy_int (limit s) then int_of (limit s) else (-1)%Z.

(** The three [except] clauses around the read; each of them leaves
    the loop. *)
Definition on_read_error (e : Exn) : Exit :=
  match e with
  | CancelledError => Cancelled
  | ConnectionResetError => PeerReset
  | _ => ReadFault e
  end.

(** Write the object at address [a] back after a mutation. *)
Definition store (a : Addr) (c : Connection) (w : World) : World :=
  set_heap (<[a := c]> (heap w)) w.

(** The size of the read to issue and the chunk count after it, or
    [None] for the [break] on a spent budget. *)
Definition next_read (s : Self) (chunks : Z) : option (Z * Z) :=
  if truthy_int (chunksize s) then
    if truthy_int (limit s)
       && (int_of (limit s) - chunks * int_of (chunksize s)
           <? int_of (chunksize s))%Z
    then None
    else Some (int_of (chunksize s), (chunks + 1)%Z)
  else Some (limit_or_minus1 s, chunks).

(** One pass through the [while] loop of [_handleConnection],
    starting at its condition. *)
Definition loop_body (a : Addr) (chunks : Z) (w : World) : Flow * World :=
  match heap w !! a with
  | None => (Propagate AttributeError, w)
  | Some c =>
      if asyncio.at_eof (reader c) then (Break AtEof, w)
      else
        (* Update the connection *)
        let '(t, clk1) := time_time (clk w) in
        let c1 := set_updated t c in
        let w1 := set_clk clk1 (store a c1 w) in
        (* Read up to the limit or as many chunks until the limit *)
        match next_read (self w) chunks with
        | None => (Break BudgetSpent, w1)
        | Some (n, chunks') =>
            let '(got, r1) := asyncio.read n (reader c1) in
            let w2 := log (EvRead n) (store a (set_reader r1 c1) w1) in
            match got with
            | Raise e => (Break (on_read_error e), w2)
            | Blocked => (Suspended, w2)
            | Ok raw =>
                (* Handle the received message or message fragment *)
                if negb (Nat.eqb (length raw) 0) then
                  let message := {| data := raw; sender := a |} in
                  let w3 := log (EvMessage message) w2 in
                  match handleMessage message (ext w3) with
                  | (Ok _, u) => (Next chunks', set_ext u w3)
                  | (Raise e, u) =>
                      (Propagate (freedmIPCMessageHandler e), set_ext u w3)
                  | (Blocked, u) => (Suspended, set_ext u w3)
                  end
                else (Next chunks', w2)
            end
        end
  end.

(** The loop, for at most [fuel] passes. *)
Fixpoint while_loop (fuel : nat) (a : Addr) (chunks : Z) (w : World)
  : Res Exit * World :=
  match fuel with
  | O => (Ok FuelOut, w)
  | S fuel' =>
      match loop_body a chunks w with
      | (Next chunks', w1) => while_loop fuel' a chunks' w1
      | (Break x, w1) => (Ok x, w1)
      | (Propagate e, w1) => (Raise e, w1)
      | (Suspended, w1) => (Blocked, w1)
      end
  end.

(** What is left to consume on a reader: every pass that goes round
    the loop again takes at least one unit of it. *)
Fixpoint feed_size (fd : list asyncio.Arrival) : nat :=
  match fd with
  | [] => 0
  | asyncio.Data bs :: fd' => S (length bs + feed_size fd')
  | _ :: fd' => S (feed_size fd')
  end.

Definition reader_size (r : asyncio.StreamReader) : nat :=
  length (asyncio._buffer r) + feed_size (asyncio.feed r).

Definition enough_fuel (a : Addr) (w : World) : nat :=
  match heap w !! a with
  | Some c => S (reader_size (reader c))
  | None => 1
  end.

(** [_handleConnection(self, connection)]: the loop with [chunks = 0],
    then [await self.close()] when the loop was left, nothing more
    when an exception travels out of it. *)
Definition _handleConnection (a : Addr) : M unit := fun w =>
  match while_loop (enough_fuel a w) a 0%Z w with
  | (Ok FuelOut, w1) => (Blocked, w1)
  | (Ok _, w1) =>
      (* Close this connection again *)
      close w1
  | (Raise e, w1) => (Raise e, w1)
  | (Blocked, w1) => (Blocked, w1)
  end.

End Client.

Arguments self {U} w.
Arguments heap {U} w.
Arguments tasks {U} w.
Arguments clk {U} w.
Arguments ext {U} w.
Arguments trace {U} w.
Arguments Build_World {U}.
Arguments ret {U A} a w.
Arguments bind {U A B} c k w.
Arguments set_self {U} s w.
Arguments set_heap {U} h w.
Arguments set_tasks {U} ts w.
Arguments set_clk {U} c w.
Arguments set_ext {U} u w.
Arguments log {U} e w.
Arguments store {U} a c w.
Arguments connected {U} w.
Arguments _assembleConnection {U} rd wr w.
Arguments closeConnection {U} a w.
Arguments cancel_handler {U} t w.
Arguments super___aexit__ {U} super_aexit w.
Arguments __aexit__ {U} super_aexit w.
Arguments close {U} super_aexit w.
Arguments _onConnectionEstablished {U} c w.
Arguments loop_body {U} handleMessage a chunks w.
Arguments while_loop {U} handleMessage fuel a chunks w.
Arguments enough_fuel {U} a w.
Arguments _handleConnection {U} handleMessage super_aexit a w.

End IPCSocketClient.

(** ** freedm.utils.ipc.server.uxd: class UXDSocketServer *)

Module UXDSocketServer.

(** The file system as the setup code looks at it. *)
Inductive Kind := RegularFile | Directory | SocketFile.

Record Entry := { kind : Kind; removable : bool }.

Definition isdir (e : Entry) : bool :=
  match kind e with Directory => true | _ => false end.

(** What [asyncio.start_unix_server] hands back. *)
Record Server := { listens_on : string; stream_limit : option Z }.

Record Self := {
  path : option string;
  limit : option Z;
  chunksize : option Z;
  max_connections : option Z;
  mode : option ConnectionType;
  _server : option Server
}.

(** Besides the file system and the clock, the world holds what the
    system answers where the code cannot know: [bind_fault p] is what
    [socket()] and [bind(p)] raise for a reason other than [p] being
    taken (no parent directory, a path too long, no permission), and
    [starting] is what awaiting [asyncio.start_unix_server] comes to. *)
Record World := {
  self : Self;
  fs : gmap string Entry;
  clk : Clock;
  byteorder : ByteOrder;         (* the platform's native byte order *)
  bind_fault : string -> option Exn;
  starting : Res unit
}.

Definition set_fs (f : gmap string Entry) (w : World) : World :=
  {| self := self w; fs := f; clk := clk w; byteorder := byteorder w;
     bind_fault := bind_fault w; starting := starting w |}.
Definition set_clk (c : Clock) (w : World) : World :=
  {| self := self w; fs := fs w; clk := c; byteorder := byteorder w;
     bind_fault := bind_fault w; starting := starting w |}.
Definition set_server (s : Server) (w : World) : World :=
  {| self := {| path := path (self w); limit := limit (self w);
                chunksize := chunksize (self w);
                max_connections := max_connections (self w);
                mode := mode (self w); _server := Some s |};
     fs := fs w; clk := clk w; byteorder := byteorder w;
     bind_fault := bind_fault w; starting := starting w |}.

(** [os.rmdir()]: called without its required argument. *)
Definition os_rmdir_noarg : Res unit := Raise TypeError.

(** [os.remove(p)] *)
Definition os_remove (p : string) (w : World) : Res unit * World :=
  match fs w !! p with
  | None => (Raise (OSError "FileNotFoundError"), w)
  | Some en =>
      if isdir en then (Raise (OSError "IsADirectoryError"), w)
      else if removable en then (Ok tt, set_fs (delete p (fs w)) w)
      else (Raise (OSError "PermissionError"), w)
  end.

(** [socket.socket(AF_UNIX, SOCK_STREAM)] followed by [sock.bind(p)]:
    binding fails on an existing path and wherever the system refuses
    it; otherwise it creates the socket file. *)
Definition bind_unix (p : string) (w : World) : Res unit * World :=
  match fs w !! p with
  | Some _ => (Raise (OSError "EADDRINUSE"), w)
  | None =>
      match bind_fault w p with
      | Some e => (Raise e, w)
      | None =>
          (Ok tt,
           set_fs (<[p := {| kind := SocketFile; removable := true |}]>
                     (fs w)) w)
      end
  end.

(** [await asyncio.start_unix_server(..., sock=sock[, limit=...])] *)
Definition start_unix_server (p : string) (lim : option Z) (w : World)
  : Res Server * World :=
  match starting w with
  | Ok _ => (Ok {| listens_on := p; stream_limit := lim |}, w)
  | Raise e => (Raise e, w)
  | Blocked => (Blocked, w)
  end.

(** Reading a local variable of the running frame: a name that no
    statement has bound yet raises [UnboundLocalError]. *)
Definition load_local (name : string) (slot : option Exn) : Res Exn :=
  match slot with
  | Some v => Ok v
  | None => Raise (UnboundLocalError name)
  end.

(** The [if]/[elif] that clears the path before binding.  [e] is a
    local of [__aenter__] (the later [except Exception as e] clauses
    make it one); it is bound only inside those clauses. *)
Definition clear_path (p : string) (w : World) : Res unit * World :=
  let e : option Exn := None in
  match fs w !! p with
  | None => (Ok tt, w)                       (* not os.path.exists *)
  | Some en =>
      if isdir en then
        match os_rmdir_noarg with
        | Ok _ => (Ok tt, w)
        | _ =>
            (* except: raise freedmIPCSocketCreation(f'... ({e})') *)
            match load_local "e" e with
            | Ok v =>
                (Raise (freedmIPCSocketCreation (PathIsADirectory p)
                          (Some v)), w)
            | Raise u => (Raise u, w)
            | Blocked => (Blocked, w)
            end
        end
      else
        match os_remove p w with
        | (Raise e, w1) =>
            (Raise (freedmIPCSocketCreation (CannotDeleteSocketFile p)
                      (Some e)), w1)
        | other => other
        end
  end.

(** [__aenter__(self)] *)
Definition __aenter__ (w : World) : Res unit * World :=
  if negb (truthy_str (path (self w))) then
    (Raise (freedmIPCSocketCreation NoSocketFileProvided None), w)
  else
    let p := default EmptyString (path (self w)) in
    match clear_path p w with
    | (Ok _, w1) =>
        (* Create UXD socket *)
        match bind_unix p w1 with
        | (Ok _, w2) =>
            (* Create the socket server: this await is not guarded *)
            match start_unix_server p
                    (if truthy_int (limit (self w2))
                     then limit (self w2) else None) w2 with
            | (Ok server, w3) => (Ok tt, set_server server w3)
            | (Raise e, w3) => (Raise e, w3)
            | (Blocked, w3) => (Blocked, w3)
            end
        | (Raise e, w2) =>
            (Raise (freedmIPCSocketCreation (CannotCreateSocketFile p)
                      (Some e)), w2)
        | (Blocked, w2) => (Blocked, w2)
        end
    | other => other
    end.

(** [_assembleConnection(self, reader, writer)] *)
Definition _assembleConnection
    (rd : asyncio.StreamReader) (wr : asyncio.StreamWriter) (w : World)
  : Res Connection * World :=
  match asyncio.extra_socket wr with
  | None => (Raise AttributeError, w)      (* None has no getsockopt *)
  | Some sock =>
      match asyncio.getsockopt_peercred sock calcsize_3i with
      | Ok credentials =>
          match unpack_3i (byteorder w) credentials with
          | Ok (pid, uid, gid) =>
              let '(t_created, c1) := time_time (clk w) in
              let '(t_updated, c2) := time_time c1 in
              (Ok {| socket := Some sock;
                     pid := Some pid;
                     uid := Some uid;
                     gid := Some gid;
                     client_address := None;
                     server_address := None;
                     reader := rd;
                     writer := wr;
                     state := {| st_mode := mode_or_PERSISTENT (mode (self w));
                                 st_created := t_created;
                                 st_updated := t_updated;
                                 st_closed := None |} |},
               set_clk c2 w)
          | Raise e => (Raise e, w)
          | Blocked => (Blocked, w)
          end
      | Raise e => (Raise e, w)
      | Blocked => (Blocked, w)
      end
  end.

(** [os.remove(self.path)] with whatever [self.path] holds; [None] is
    not a path. *)
Definition os_remove_path (p : option string) (w : World)
  : Res unit * World :=
  match p with
  | Some s => os_remove s w
  | None => (Raise TypeError, w)
  end.

(** [__aexit__(self, ...)].  [parent] is what awaiting
    [IPCSocketServer.__aexit__] comes to (that class is not part of the
    sources at hand); [closing] and [waiting] are what
    [self._server.close()] and [await self._server.wait_closed()] come
    to on the listener, whose state is not part of the world. *)
Definition __aexit__ (parent : Res unit) (closing : option Exn)
    (waiting : Res unit) (w : World) : Res unit * World :=
  match parent with
  | Raise e => (Raise e, w)
  | Blocked => (Blocked, w)
  | Ok _ =>
      (* try: self._server.close() / except Exception: log the error *)
      let _ := closing in
      (* try: await self._server.wait_closed() / except Exception: log *)
      match waiting with
      | Blocked => (Blocked, w)
      | _ =>
          (* try: os.remove(self.path) *)
          match os_remove_path (path (self w)) w with
          | (Raise e, w1) => (Raise (freedmIPCSocketShutdown e), w1)
          | other => other
          end
      end
  end.

End UXDSocketServer.

(** ** freedm.utils.sorting *)

Module sorting.

(** What [topologicalSorter] can raise. *)
Inductive Error :=
| TypeError_reduce       (* reduce() of an empty sequence, no initial value *)
| CyclicReference (remaining : gmap string (gset string)).

Inductive Outcome (A : Type) :=
| Returned (a : A)
| Raised (e : Error)
| Diverged.
Arguments Returned {A} a.
Arguments Raised {A} e.
Arguments Diverged {A}.

(** [sep.join(xs)] *)
Fixpoint join (sep : string) (xs : list string) : string :=
  match xs with
  | [] => EmptyString
  | [x] => x
  | x :: rest => x +:+ sep +:+ join sep rest
  end.

(** [s.split(c)] for a separator of one character: the pieces between
    the occurrences of [c], empty ones included; never the empty list. *)
Fixpoint split (c : Ascii.ascii) (s : string) : list string :=
  match s with
  | EmptyString => [EmptyString]
  | String a s' =>
      if Ascii.eqb a c then EmptyString :: split c s'
      else match split c s' with
           | piece :: pieces => String a piece :: pieces
           | [] => [String a EmptyString]
           end
  end.

(** [c in s] for a character. *)
Fixpoint contains (c : Ascii.ascii) (s : string) : bool :=
  match s with
  | EmptyString => false
  | String a s' => Ascii.eqb a c || contains c s'
  end.

(** [sorted(xs)] on strings: ascending in the order of [str], which
    compares character codes from the left. *)
Fixpoint insert_sorted (x : string) (xs : list string) : list string :=
  match xs with
  | [] => [x]
  | y :: ys => if String.leb x y then x :: y :: ys else y :: insert_sorted x ys
  end.

Definition sorted (xs : list string) : list string :=
  foldr insert_sorted [] xs.

(** A dictionary whose values are set objects: each key holds the
    address of its set, so that two keys can hold the same object. *)
Record Dict := {
  items : gmap string nat;
  objs : gmap nat (gset string)
}.

(** The set at an address (an address without an object reads as the
    empty set). *)
Definition set_at (d : Dict) (a : nat) : gset string :=
  default ∅ (objs d !! a).

(** The dictionary by value: every key with the content of its set. *)
Definition view (d : Dict) : gmap string (gset string) :=
  set_at d <$> items d.

(** [for k, v in data.items(): v.discard(k)] *)
Definition discard_self (d : Dict) : Dict :=
  {| items := items d;
     objs := foldr (fun ka o => alter (fun s => s ∖ {[ka.1]}) ka.2 o)
               (objs d) (map_to_list (items d)) |}.

(** [reduce(set.union, vs)] *)
Definition reduce_union (vs : list (gset string)) : Outcome (gset string) :=
  match vs with
  | [] => Raised TypeError_reduce
  | v :: rest => Returned (foldl (∪) v rest)
  end.

(** [data.values()] *)
Definition values (d : Dict) : list (gset string) :=
  (fun ka => set_at d ka.2) <$> map_to_list (items d).

(** [data.update({item: set() for item in foreign_items})]: every
    foreign item gets a new, empty set object. *)
Definition add_item (item : string) (d : Dict) : Dict :=
  let a := fresh (dom (objs d)) in
  {| items := <[item := a]> (items d); objs := <[a := ∅]> (objs d) |}.

Definition update_foreign (foreign : gset string) (d : Dict) : Dict :=
  foldr add_item d (elements foreign).

(** [set(item for item, dep in data.items() if not dep)] *)
Definition no_deps (cur : gmap string (gset string)) : gset string :=
  dom (filter (fun kv => kv.2 = ∅) cur).

(** [{item: (dep - ordered) for item, dep in data.items()
      if item not in ordered}] *)
Definition strip (ordered : gset string) (cur : gmap string (gset string))
  : gmap string (gset string) :=
  (fun dep => dep ∖ ordered) <$> filter (fun kv => kv.1 ∉ ordered) cur.

(** The [while True] loop of the generator [sort], for at most [fuel]
    rounds: what it yields, one sorted list per round (each is yielded
    joined by a space), or the [CyclicReference] it ends in. *)
Fixpoint rounds (fuel : nat) (cur : gmap string (gset string))
  : Outcome (list (list string)) :=
  match fuel with
  | O => Diverged
  | S fuel' =>
      let ordered := no_deps cur in
      if decide (ordered = ∅) then
        if decide (cur = ∅) then Returned []
        else Raised (CyclicReference cur)
      else
        match rounds fuel' (strip ordered cur) with
        | Returned ys => Returned (sorted (elements ordered) :: ys)
        | other => other
        end
  end.

Definition space : Ascii.ascii := Ascii.ascii_of_nat 32%nat.

(** [topologicalSorter(data)]: the result, and the dictionary as the
    call leaves it. *)
Definition topologicalSorter (data : Dict) : Outcome (list string) * Dict :=
  (* Ignore item self-references *)
  let d1 := discard_self data in
  (* Find and add foreign items *)
  match reduce_union (values d1) with
  | Returned u =>
      let foreign_items := u ∖ dom (items d1) in
      let d2 := update_foreign foreign_items d1 in
      (* Sort topologically *)
      match rounds (S (size (items d2))) (view d2) with
      | Returned ys =>
          let graph :=
            split space (join (String space EmptyString)
                           (join (String space EmptyString) <$> ys)) in
          (Returned (filter (fun g => g ∈ dom (items d2)) graph), d2)
      | Raised e => (Raised e, d2)
      | Diverged => (Diverged, d2)
      end
  | Raised e => (Raised e, d1)
  | Diverged => (Diverged, d1)
  end.

(** The dictionary as [sort] has it when its loop starts: the
    self-references discarded and the foreign items added. *)
Definition prepared (data : Dict) : Dict :=
  let d1 := discard_self data in
  match reduce_union (values d1) with
  | Returned u => update_foreign (u ∖ dom (items d1)) d1
  | _ => d1
  end.

(** [j] comes before [k] in the list. *)
Definition before (j k : string) (l : list string) : Prop :=
  exists l1 l2 l3, l = l1 ++ j :: l2 ++ k :: l3.

(** A circle of dependencies: a set of items, not empty, each of which
    depends on one of the set. *)
Definition knot (g : gmap string (gset string)) (K : gset string) : Prop :=
  K ≠ ∅ ∧
  ∀ k, k ∈ K → ∃ deps j, g !! k = Some deps ∧ j ∈ deps ∧ j ∈ K.

(** Every dependency is itself an item. *)
Definition closed (g : gmap string (gset string)) : Prop :=
  forall k deps, g !! k = Some deps -> deps ⊆ dom g.

(** No key of the dictionary and no member of its sets has a space in
    its name. *)
Definition names_without_space (d : Dict) : Prop :=
  map_Forall (fun k a =>
      contains space k = false ∧
      set_Forall (fun x => contains space x = false) (set_at d a))
    (items d).

End sorting.


(** ** Sample dictionaries *)

Module Samples.
Import sorting.

(** The dictionary of the docstring of [topologicalSorter]. *)
Definition docstring_data : Dict :=
  {| items := list_to_map
       [("A"%string, 0%nat); ("D"%string, 1%nat); ("C"%string, 2%nat);
        ("B"%string, 3%nat)];
     objs := list_to_map
       [(0%nat, ∅); (1%nat, {["A"%string; "C"%string]});
        (2%nat, {["B"%string]}); (3%nat, {["A"%string]})] |}.

(** Three items in a circle and one apart. *)
Definition circular_data : Dict :=
  {| items := list_to_map
       [("A"%string, 0%nat); ("B"%string, 1%nat); ("C"%string, 2%nat);
        ("D"%string, 3%nat)];
     objs := list_to_map
       [(0%nat, {["B"%string]}); (1%nat, {["C"%string]});
        (2%nat, {["A"%string]}); (3%nat, ∅)] |}.

(** Two items that depend on a third which is no key. *)
Definition foreign_data : Dict :=
  {| items := list_to_map [("app"%string, 0%nat); ("lib"%string, 1%nat)];
     objs := list_to_map
       [(0%nat, {["lib"%string; "core"%string]});
        (1%nat, {["core"%string]})] |}.

(** An item with a space in its name, and one that depends on it. *)
Definition spaced_data : Dict :=
  {| items := list_to_map [("my item"%string, 0%nat); ("B"%string, 1%nat)];
     objs := list_to_map [(0%nat, ∅); (1%nat, {["my item"%string]})] |}.

End Samples.

(** ** Sample worlds *)

Module Scenarios.
Import asyncio IPCSocketClient.

Definition ascii (s : string) : bytes := list_byte_of_string s.

(** A reader with nothing buffered and a script of arrivals to come. *)
Definition reader_expecting (fd : list Arrival) : StreamReader :=
  {| _buffer := []; _eof := false; _exception := None; feed := fd |}.

(** A writer on a healthy transport, and one whose steps in [bad] fail. *)
Definition writer_failing (bad : list HandshakeStep) : StreamWriter :=
  {| extra_socket := None; is_closing := false; can_write_eof := true;
     eof_written := false; faulty := bad |}.

Definition writer_closing : StreamWriter :=
  {| extra_socket := None; is_closing := true; can_write_eof := true;
     eof_written := false; faulty := [] |}.

Definition clock0 : Clock :=
  {| ticks := fun n => (1000 + Z.of_nat n)%Z; reads := 0 |}.

(** A client straight out of [__init__]. *)
Definition idle (lim cs : option Z) : World unit :=
  {| self := {| timeout := None; limit := lim; chunksize := cs;
                mode := None; _connection := None; _handler := None |};
     heap := []; tasks := []; clk := clock0; ext := tt; trace := [] |}.

(** The same client once a connection over [rd] and [wr] has been
    assembled and established: the connection sits at address 0. *)
Definition established (lim cs : option Z)
    (rd : StreamReader) (wr : StreamWriter) : World unit :=
  match _assembleConnection rd wr (idle lim cs) with
  | (Ok c, w) => (_onConnectionEstablished c w).2
  | (_, w) => w
  end.

Definition quiet_handler (m : Message) (u : unit) : Res unit * unit :=
  (Ok tt, u).
Definition failing_handler (m : Message) (u : unit) : Res unit * unit :=
  (Raise (OSError "handler"), u).
Definition parent_aexit (u : unit) : Res unit * unit := (Ok tt, u).

(** One byte arrives, then the peer closes. *)
Definition one_message : World unit :=
  established None None
    (reader_expecting [Data (ascii "x"); Eof]) (writer_failing []).

(** Ten bytes arrive in one piece, then the peer closes. *)
Definition ten_bytes (lim cs : option Z) : World unit :=
  established lim cs
    (reader_expecting [Data (ascii "0123456789"); Eof]) (writer_failing []).

(** Ten bytes are buffered and end-of-input has been fed already. *)
Definition ten_buffered (lim : option Z) : World unit :=
  established lim None
    {| _buffer := ascii "0123456789"; _eof := true; _exception := None;
       feed := [] |}
    (writer_failing []).

(** The transport fails the half-close and is cancelled in its sleep. *)
Definition flaky_transport : World unit :=
  established None None
    (reader_expecting []) (writer_failing [StepWriteEof; StepSleep]).

(** The transport is closing already when shutdown starts. *)
Definition closing_transport : World unit :=
  established None None (reader_expecting []) writer_closing.

(** The credential record of a peer with pid 12345, uid 1000, gid -1,
    as a little-endian platform lays it out. *)
Definition peer_record : bytes :=
  [x39; x30; x00; x00; xe8; x03; x00; x00; xff; xff; xff; xff].

Definition unix_writer : StreamWriter :=
  {| extra_socket := Some {| peercred := Some peer_record |};
     is_closing := false; can_write_eof := true; eof_written := false;
     faulty := [] |}.

(** A UXD server configured with [p] on a file system holding
    [entries], on a system that refuses no bind and starts the server. *)
Definition server (p : string)
    (entries : list (string * UXDSocketServer.Entry))
  : UXDSocketServer.World :=
  {| UXDSocketServer.self :=
       {| UXDSocketServer.path := Some p;
          UXDSocketServer.limit := None;
          UXDSocketServer.chunksize := None;
          UXDSocketServer.max_connections := None;
          UXDSocketServer.mode := None;
          UXDSocketServer._server := None |};
     UXDSocketServer.fs := list_to_map entries;
     UXDSocketServer.clk := clock0;
     UXDSocketServer.byteorder := LittleEndian;
     UXDSocketServer.bind_fault := fun _ => None;
     UXDSocketServer.starting := Ok tt |}.

(** The same server on a system that refuses every bind with [e], and
    on one where starting the server comes to [r]. *)
Definition refusing_bind (e : Exn) (w : UXDSocketServer.World)
  : UXDSocketServer.World :=
  {| UXDSocketServer.self := UXDSocketServer.self w;
     UXDSocketServer.fs := UXDSocketServer.fs w;
     UXDSocketServer.clk := UXDSocketServer.clk w;
     UXDSocketServer.byteorder := UXDSocketServer.byteorder w;
     UXDSocketServer.bind_fault := fun _ => Some e;
     UXDSocketServer.starting := UXDSocketServer.starting w |}.

Definition starting_as (r : Res unit) (w : UXDSocketServer.World)
  : UXDSocketServer.World :=
  {| UXDSocketServer.self := UXDSocketServer.self w;
     UXDSocketServer.fs := UXDSocketServer.fs w;
     UXDSocketServer.clk := UXDSocketServer.clk w;
     UXDSocketServer.byteorder := UXDSocketServer.byteorder w;
     UXDSocketServer.bind_fault := UXDSocketServer.bind_fault w;
     UXDSocketServer.starting := r |}.

Definition a_directory : UXDSocketServer.Entry :=
  {| UXDSocketServer.kind := UXDSocketServer.Directory;
     UXDSocketServer.removable := true |}.

Definition a_stale_file : UXDSocketServer.Entry :=
  {| UXDSocketServer.kind := UXDSocketServer.RegularFile;
     UXDSocketServer.removable := true |}.

(** The connection object [established] puts at address 0. *)
Definition assembled (rd : StreamReader) (wr : StreamWriter) : Connection :=
  {| socket := extra_socket wr; pid := None; uid := None; gid := None;
     client_address := None; server_address := None;
     reader := rd; writer := wr;
     state := {| st_mode := PERSISTENT; st_created := 1000%Z;
                 st_updated := 1001%Z; st_closed := None |} |}.


(** A second client whose heap holds an older connection at address 0
    and its own at address 1. *)
Definition second_connection : World unit :=
  match _assembleConnection (reader_expecting [Data (ascii "y"); Eof])
          (writer_failing []) one_message with
  | (Ok c, w) => (_onConnectionEstablished c w).2
  | (_, w) => w
  end.

End Scenarios.

(** ** The shape of a pass and of a run of the read loop

    [pass s k d fl]: with configuration [s] and [k] chunks counted, one
    pass may record the events [d] and continue as [fl].  [run] chains
    passes the way the loop does. *)

Import IPCSocketClient.

Inductive pass (s : Self) (k : Z) : list Event -> Flow -> Prop :=
| pass_eof : pass s k [] (Break AtEof)
| pass_dangling : pass s k [] (Propagate AttributeError)
| pass_budget : next_read s k = None -> pass s k [] (Break BudgetSpent)
| pass_read_error n k' e :
    next_read s k = Some (n, k') ->
    pass s k [EvRead n] (Break (on_read_error e))
| pass_read_suspended n k' :
    next_read s k = Some (n, k') -> pass s k [EvRead n] Suspended
| pass_read_nothing n k' :
    next_read s k = Some (n, k') -> pass s k [EvRead n] (Next k')
| pass_message n k' m :
    next_read s k = Some (n, k') ->
    ((0 < n)%Z -> (Z.of_nat (length (data m)) <= n)%Z) ->
    pass s k [EvRead n; EvMessage m] (Next k')
| pass_handler_fault n k' m e :
    next_read s k = Some (n, k') ->
    ((0 < n)%Z -> (Z.of_nat (length (data m)) <= n)%Z) ->
    pass s k [EvRead n; EvMessage m] (Propagate (freedmIPCMessageHandler e))
| pass_handler_suspended n k' m :
    next_read s k = Some (n, k') ->
    ((0 < n)%Z -> (Z.of_nat (length (data m)) <= n)%Z) ->
    pass s k [EvRead n; EvMessage m] Suspended.

Inductive run (s : Self) : Z -> list Event -> Res Exit -> Prop :=
| run_out k : run s k [] (Ok FuelOut)
| run_break k d x : pass s k d (Break x) -> run s k d (Ok x)
| run_raise k d e : pass s k d (Propagate e) -> run s k d (Raise e)
| run_suspended k d : pass s k d Suspended -> run s k d Blocked
| run_next k k' d d' r :
    pass s k d (Next k') -> run s k' d' r -> run s k (d ++ d') r.



(** ** Readings of a reader

    What a reader still has to give: the bytes in its buffer followed
    by the bytes of every [Data] arrival of its script. *)

Fixpoint feed_bytes (fd : list asyncio.Arrival) : bytes :=
  match fd with
  | [] => []
  | asyncio.Data bs :: fd' => bs ++ feed_bytes fd'
  | _ :: fd' => feed_bytes fd'
  end.

Definition stream_bytes (r : asyncio.StreamReader) : bytes :=
  asyncio._buffer r ++ feed_bytes (asyncio.feed r).

(** A reader on which nothing goes wrong before the end of input: it
    holds no exception, and either it is at end-of-input already, with
    [rest] left in its script, or its script brings data, then the
    end-of-input, then [rest]. *)
Definition ends_cleanly (rest : list asyncio.Arrival)
    (r : asyncio.StreamReader) : Prop :=
  asyncio._exception r = None
  /\ ((asyncio._eof r = true /\ asyncio.feed r = rest)
      \/ (asyncio._eof r = false
          /\ exists ds,
               asyncio.feed r = (asyncio.Data <$> ds) ++ asyncio.Eof :: rest)).

(** An arrival that ends the stream for a waiting reader. *)
Definition is_terminal (x : asyncio.Arrival) : bool :=
  match x with
  | asyncio.Data _ => false
  | _ => true
  end.

(** The reader will not leave a read suspended for good: it is at its
    end already, or it has failed, or its script holds the arrival that
    ends it. *)
Definition will_end (r : asyncio.StreamReader) : bool :=
  asyncio._eof r
  || match asyncio._exception r with Some _ => true | None => false end
  || existsb is_terminal (asyncio.feed r).

(** Whether the half-close of [closeConnection] fails on this
    connection: it is only attempted when the reader is not at its end
    and the transport can half-close. *)
Definition half_close_fails (c : Connection) : bool :=
  negb (asyncio.at_eof (reader c))
  && asyncio.can_write_eof (writer c)
  && asyncio.fails asyncio.StepWriteEof (writer c).

(** Whether a step that [closeConnection] executes on this connection
    fails while the tasks are [ts]: the sleep fails as well when the
    running task has been asked to cancel. *)
Definition handshake_fails (c : Connection) (ts : list asyncio.Task) : bool :=
  half_close_fails c
  || asyncio.cancel_pending ts
  || asyncio.fails asyncio.StepSleep (writer c)
  || asyncio.fails asyncio.StepClose (writer c).



(** The handler awaited on one message after the other, from the state
    [u], up to the first call that does not return. *)
Fixpoint handle_each {U} (handleMessage : Message -> U -> Res unit * U)
    (ms : list Message) (u : U) : Res unit * U :=
  match ms with
  | [] => (Ok tt, u)
  | m :: ms' =>
      match handleMessage m u with
      | (Ok _, u') => handle_each handleMessage ms' u'
      | other => other
      end
  end.

(** What identifies a connection, as opposed to its reader, its
    writer and its [updated] and [closed] stamps. *)
Definition same_identity (c c' : Connection) : Prop :=
  socket c' = socket c /\ pid c' = pid c /\ uid c' = uid c /\ gid c' = gid c
  /\ client_address c' = client_address c
  /\ server_address c' = server_address c
  /\ st_mode (state c') = st_mode (state c)
  /\ st_created (state c') = st_created (state c).

(** * Properties of the client *)

Section ReadLoop.

Context {U : Type}.
Variable handleMessage : Message -> U -> Res unit * U.
Variable super_aexit : U -> Res unit * U.

Lemma read_length n r raw r' :
  asyncio.read n r = (Ok raw, r') ->
  (0 < n)%Z -> (Z.of_nat (length raw) <= n)%Z.
Proof.
  unfold asyncio.read. intros H Hn.
  destruct (asyncio._exception r); [discriminate|].
  destruct (Z.eqb_spec n 0); [lia|].
  destruct (Z.ltb_spec n 0); [lia|].
  destruct (if asyncio.is_empty (asyncio._buffer r) && negb (asyncio._eof r)
            then asyncio._wait_for_data (asyncio.feed r) r else (Ok (), r))
    as [[[]| |] r1]; inversion H; subst.
  rewrite length_take. lia.
Qed.

Lemma loop_body_pass a k (w : World U) fl w' :
  loop_body handleMessage a k w = (fl, w') ->
  self w' = self w /\ exists d, trace w' = trace w ++ d /\ pass (self w) k d fl.
Proof.
  unfold loop_body. intros H.
  destruct (heap w !! a) as [c|] eqn:Hc.
  2:{ inversion H; subst. split; [done|]. exists []. rewrite app_nil_r. split; [done|constructor]. }
  destruct (asyncio.at_eof (reader c)).
  { inversion H; subst. split; [done|]. exists []. rewrite app_nil_r. split; [done|constructor]. }
  destruct (time_time (clk w)) as [t clk1].
  destruct (next_read (self w) k) as [[n k']|] eqn:Hn.
  2:{ inversion H; subst. split; [done|]. exists []. rewrite app_nil_r. split; [done|by constructor]. }
  destruct (asyncio.read n (reader (set_updated t c))) as [got r1] eqn:Hr.
  destruct got as [raw|e|].
  - destruct (negb (length raw =? 0)) eqn:Hl.
    + destruct (handleMessage _ _) as [[[]|e|] u] eqn:Hh; inversion H; subst; simpl;
        (split; [done|]); eexists; (split; [rewrite <- app_assoc; reflexivity|]).
      * eapply pass_message; eauto. simpl. eapply read_length; eauto.
      * eapply pass_handler_fault; eauto. simpl. eapply read_length; eauto.
      * eapply pass_handler_suspended; eauto. simpl. eapply read_length; eauto.
    + inversion H; subst; simpl. split; [done|]. eexists; split; [reflexivity|].
      eapply pass_read_nothing; eauto.
  - inversion H; subst; simpl. split; [done|]. eexists; split; [reflexivity|].
    eapply pass_read_error; eauto.
  - inversion H; subst; simpl. split; [done|]. eexists; split; [reflexivity|].
    eapply pass_read_suspended; eauto.
Qed.

Lemma while_loop_run a fuel : forall k (w : World U) r w',
  while_loop handleMessage fuel a k w = (r, w') ->
  self w' = self w /\ exists d, trace w' = trace w ++ d /\ run (self w) k d r.
Proof.
  induction fuel as [|fuel IH]; simpl; intros k w r w' H.
  - inversion H; subst. split; [done|]. exists []. rewrite app_nil_r. split; [done|constructor].
  - destruct (loop_body handleMessage a k w) as [fl w1] eqn:Hb.
    apply loop_body_pass in Hb as (Hs & d & Ht & Hp).
    destruct fl as [k'|x|e|].
    + apply IH in H as (Hs' & d' & Ht' & Hr).
      split; [congruence|]. exists (d ++ d'). split.
      * rewrite Ht', Ht. by rewrite app_assoc.
      * eapply run_next; eauto. by rewrite <- Hs.
    + inversion H; subst. split; [done|]. exists d. split; [done|by constructor].
    + inversion H; subst. split; [done|]. exists d. split; [done|by constructor].
    + inversion H; subst. split; [done|]. exists d. split; [done|by constructor].
Qed.

(** *** Readings of a concatenated trace *)

Lemma closes_app d1 d2 : closes (d1 ++ d2) = closes d1 + closes d2.
Proof. induction d1 as [|[]]; simpl; lia. Qed.

Lemma messages_app d1 d2 : messages (d1 ++ d2) = messages d1 ++ messages d2.
Proof. induction d1 as [|[]]; simpl; congruence. Qed.

Lemma read_sizes_app d1 d2 :
  read_sizes (d1 ++ d2) = read_sizes d1 ++ read_sizes d2.
Proof. induction d1 as [|[]]; simpl; congruence. Qed.

Lemma payload_app d1 d2 : payload (d1 ++ d2) = (payload d1 + payload d2)%Z.
Proof.
  unfold payload. rewrite messages_app.
  induction (messages d1); simpl; lia.
Qed.

Lemma payload_nonneg d : (0 <= payload d)%Z.
Proof. unfold payload. induction (messages d); simpl; lia. Qed.

(** *** What a run of the loop never does, whatever the configuration *)

Lemma pass_no_close s k d fl : pass s k d fl -> closes d = 0.
Proof. by destruct 1. Qed.

Lemma run_no_close s k d r : run s k d r -> closes d = 0.
Proof.
  induction 1; simpl; eauto using pass_no_close.
  rewrite closes_app. erewrite pass_no_close by eauto. done.
Qed.

(** *** Chunked reading against a limit *)

Section Chunked.
Variables (s : Self) (C L : Z).
Hypothesis HC : chunksize s = Some C.
Hypothesis HL : limit s = Some L.
Hypothesis Cpos : (0 < C)%Z.
Hypothesis Lpos : (0 < L)%Z.

Lemma next_read_chunked k :
  next_read s k =
    if (L - k * C <? C)%Z then None else Some (C, (k + 1)%Z).
Proof.
  unfold next_read. rewrite HC, HL. simpl.
  destruct (Z.eqb_spec C 0); [lia|].
  destruct (Z.eqb_spec L 0); [lia|]. done.
Qed.

Lemma next_read_chunked_some k n k' :
  next_read s k = Some (n, k') ->
  n = C /\ k' = (k + 1)%Z /\ (k + 1 <= L / C)%Z.
Proof.
  rewrite next_read_chunked.
  destruct (Z.ltb_spec (L - k * C) C); [discriminate|].
  intros [= <- <-]. repeat split.
  apply Z.div_le_lower_bound; lia.
Qed.

Lemma next_read_chunked_none k :
  next_read s k = None -> (L / C <= k)%Z.
Proof.
  rewrite next_read_chunked.
  destruct (Z.ltb_spec (L - k * C) C); [|discriminate].
  intros _. assert (L / C < k + 1)%Z; [|lia].
  apply Z.div_lt_upper_bound; lia.
Qed.

Ltac use_next_read :=
  repeat match goal with
    | H : next_read _ _ = Some _ |- _ =>
        apply next_read_chunked_some in H as (-> & -> & ?)
    | H : next_read _ _ = None |- _ => apply next_read_chunked_none in H
    | H : (0 < C)%Z -> _ |- _ => specialize (H Cpos)
    end.

Lemma run_chunked k d r :
  run s k d r -> (0 <= k <= L / C)%Z ->
  (Z.of_nat (length (read_sizes d)) <= L / C - k)%Z
  /\ read_sizes d = replicate (length (read_sizes d)) C
  /\ (payload d <= Z.of_nat (length (read_sizes d)) * C)%Z
  /\ (r = Ok BudgetSpent ->
      Z.of_nat (length (read_sizes d)) = (L / C - k)%Z).
Proof.
  induction 1 as [k|k d x Hp|k d e Hp|k d Hp|k k' d d' r Hp Hr IH]; intros Hk.
  - simpl. repeat split; try lia; try done.
  - inversion Hp; subst; use_next_read; unfold payload; simpl;
      repeat split; try lia; try done.
    intros E; destruct e; discriminate E.
  - inversion Hp; subst; use_next_read; unfold payload; simpl;
      repeat split; try lia; done.
  - inversion Hp; subst; use_next_read; unfold payload; simpl;
      repeat split; try lia; done.
  - inversion Hp; subst; use_next_read;
      (destruct IH as (I1 & I2 & I3 & I4); [lia|]);
      rewrite ?read_sizes_app, ?payload_app; unfold payload in *; simpl;
      repeat split; try lia; try (by f_equal);
      intros E; specialize (I4 E); lia.
Qed.
End Chunked.

(** *** Reading without a chunk size *)

Section Unchunked.
Variables (s : Self) (L : Z).
Hypothesis HC : truthy_int (chunksize s) = false.
Hypothesis HL : limit s = Some L.
Hypothesis Lpos : (0 < L)%Z.

Lemma next_read_unchunked k : next_read s k = Some (L, k).
Proof.
  unfold next_read, limit_or_minus1. rewrite HC, HL. simpl.
  destruct (Z.eqb_spec L 0); [lia|]. done.
Qed.

Lemma run_unchunked k d r :
  run s k d r ->
  Forall (fun n => n = L) (read_sizes d)
  /\ Forall (fun m => (Z.of_nat (length (data m)) <= L)%Z) (messages d).
Proof.
  induction 1 as [k|k d x Hp|k d e Hp|k d Hp|k k' d d' r Hp Hr IH].
  1: by split.
  1-3: inversion Hp; subst; simpl; try (by split);
       match goal with
       | H : next_read _ _ = Some _ |- _ =>
           rewrite next_read_unchunked in H; injection H as <- <-
       end; split; repeat constructor; auto.
  destruct IH as [I1 I2].
  inversion Hp; subst; simpl;
    match goal with
    | H : next_read _ _ = Some _ |- _ =>
        rewrite next_read_unchunked in H; injection H as <- <-
    end; split; repeat constructor; auto.
Qed.
End Unchunked.

(** *** The loop always comes to an end within its iteration bound *)

Lemma wait_for_data_size fd r r1 :
  asyncio._wait_for_data fd r = (Ok tt, r1) ->
  reader_size r1 < length (asyncio._buffer r) + feed_size fd.
Proof.
  unfold reader_size. revert r1.
  induction fd as [|[bs| |e|] fd IH]; simpl; intros r1 H; try discriminate.
  - destruct bs as [|b bs]; simpl in H.
    + apply IH in H. lia.
    + inversion H; subst; simpl. rewrite length_app. simpl. lia.
  - inversion H; subst; simpl. lia.
Qed.

Lemma read_until_eof_size fd acc r raw r1 :
  asyncio.read_until_eof fd acc r = (Ok raw, r1) ->
  reader_size r1 < feed_size fd.
Proof.
  unfold reader_size. revert acc r1.
  induction fd as [|[bs| |e|] fd IH]; simpl; intros acc r1 H; try discriminate.
  - apply IH in H. lia.
  - inversion H; subst; simpl. lia.
Qed.

Lemma read_size n r raw r1 :
  n <> 0%Z -> asyncio.at_eof r = false ->
  asyncio.read n r = (Ok raw, r1) ->
  reader_size r1 < reader_size r.
Proof.
  unfold asyncio.read, asyncio.at_eof. intros Hn He H.
  destruct (asyncio._exception r); [discriminate|].
  destruct (Z.eqb_spec n 0); [done|].
  destruct (Z.ltb_spec n 0).
  - destruct (asyncio._eof r) eqn:Eeof.
    + inversion H; subst. unfold reader_size; simpl.
      destruct (asyncio._buffer r); [discriminate|]. simpl. lia.
    + apply read_until_eof_size in H. unfold reader_size in *. lia.
  - destruct (asyncio._buffer r) as [|b buf] eqn:Ebuf; simpl in H.
    + destruct (asyncio._eof r); [discriminate|]. simpl in H.
      destruct (asyncio._wait_for_data (asyncio.feed r) r)
        as [[[]| |] r2] eqn:Hw; inversion H; subst.
      apply wait_for_data_size in Hw. rewrite Ebuf in Hw.
      unfold reader_size in *; simpl in *.
      rewrite Ebuf, length_drop. simpl. lia.
    + inversion H; subst. unfold reader_size; simpl.
      rewrite Ebuf, length_drop. simpl.
      destruct (Z.to_nat n) eqn:En; [lia|]. simpl. lia.
Qed.

Lemma next_read_nonzero s k n k' : next_read s k = Some (n, k') -> n <> 0%Z.
Proof.
  unfold next_read, limit_or_minus1, truthy_int, int_of.
  destruct (chunksize s) as [c|], (limit s) as [l|]; simpl;
    repeat match goal with
      | |- context [(?x =? 0)%Z] => destruct (Z.eqb_spec x 0); simpl
      | |- context [(?x <? ?y)%Z] => destruct (Z.ltb_spec x y); simpl
      end; intros [= <- <-]; lia.
Qed.

(** A pass leaves the connection object in place and touches only its
    reader and its [updated] stamp. *)
Lemma loop_body_conn a k (w : World U) c fl w' :
  heap w !! a = Some c ->
  loop_body handleMessage a k w = (fl, w') ->
  fl <> Propagate AttributeError
  /\ exists c', heap w' !! a = Some c'
       /\ writer c' = writer c
       /\ st_closed (state c') = st_closed (state c)
       /\ (forall k', fl = Next k' ->
             reader_size (reader c') < reader_size (reader c)).
Proof.
  intros Hc. unfold loop_body. rewrite Hc.
  pose proof (lookup_lt_Some _ _ _ Hc) as Hlt.
  destruct (asyncio.at_eof (reader c)) eqn:Eeof.
  { intros [= <- <-]. split; [done|]. exists c. by repeat split. }
  destruct (time_time (clk w)) as [t clk1].
  assert (Hst : forall (c1 : Connection) h,
             length h = length (heap w) -> <[a := c1]> h !! a = Some c1).
  { intros c1 h Hh. apply list_lookup_insert_eq. lia. }
  destruct (next_read (self w) k) as [[n k']|] eqn:Hn.
  2:{ intros [= <- <-]. split; [done|]. eexists. split; [by apply Hst|].
      by repeat split. }
  apply next_read_nonzero in Hn.
  destruct (asyncio.read n (reader (set_updated t c))) as [got r1] eqn:Hr.
  simpl in Hr.
  destruct got as [raw|e|].
  - apply read_size in Hr; [|done..].
    destruct (negb (length raw =? 0)).
    + destruct (handleMessage _ _) as [[[]|e|] u]; intros [= <- <-];
        (split; [done|]); eexists;
        (split; [simpl; apply Hst; by rewrite length_insert|]);
        by repeat split.
    + intros [= <- <-]. split; [done|]. eexists.
      split; [simpl; apply Hst; by rewrite length_insert|]. by repeat split.
  - intros [= <- <-]. split; [by destruct e|]. eexists.
    split; [simpl; apply Hst; by rewrite length_insert|]. by repeat split.
  - intros [= <- <-]. split; [done|]. eexists.
    split; [simpl; apply Hst; by rewrite length_insert|]. by repeat split.
Qed.

Lemma loop_body_break a k (w : World U) x w' :
  loop_body handleMessage a k w = (Break x, w') -> x <> FuelOut.
Proof.
  intros H. apply loop_body_pass in H as (_ & d & _ & Hp).
  inversion Hp; subst; try done. by destruct e.
Qed.

(** With more fuel than the reader has left to give, the loop is left
    by the code, never by the bound; and the connection stays what it
    was but for the reader and the [updated] stamp. *)
Lemma while_loop_total a fuel : forall k (w : World U) c r w',
  heap w !! a = Some c ->
  reader_size (reader c) < fuel ->
  while_loop handleMessage fuel a k w = (r, w') ->
  r <> Ok FuelOut /\ r <> Raise AttributeError
  /\ exists c', heap w' !! a = Some c'
       /\ writer c' = writer c
       /\ st_closed (state c') = st_closed (state c).
Proof.
  induction fuel as [|fuel IH]; intros k w c r w' Hc Hf; [lia|]. simpl.
  destruct (loop_body handleMessage a k w) as [fl w1] eqn:Hb.
  destruct (loop_body_conn _ _ _ _ _ _ Hc Hb) as (Hna & c1 & Hc1 & Hw & Hs & Hsz).
  destruct fl as [k'|x|e|].
  - intros H. specialize (Hsz _ eq_refl).
    eapply IH in H as (? & ? & c2 & ? & ? & ?); eauto; [|lia].
    repeat split; try done. exists c2. repeat split; congruence.
  - intros [= <- <-]. apply loop_body_break in Hb.
    repeat split; try congruence. by exists c1.
  - intros [= <- <-]. repeat split; try congruence. by exists c1.
  - intros [= <- <-]. repeat split; try congruence. by exists c1.
Qed.

(** *** Shutdown *)

(** The handshake gets to its sleep unless the half-close fails; the
    sleep is where a pending cancellation of the running task is
    thrown. *)
Lemma handshake_tasks c ts :
  (handshake c ts).2
  = if negb (half_close_fails c) && asyncio.cancel_pending ts
    then asyncio.throw_cancel <$> ts else ts.
Proof.
  unfold handshake, half_close_fails, asyncio.write_eof, asyncio.sleep,
    asyncio.close.
  destruct (asyncio.at_eof (reader c));
    destruct (asyncio.can_write_eof (writer c));
    destruct (asyncio.fails asyncio.StepWriteEof (writer c)) eqn:F1;
    destruct (asyncio.cancel_pending ts);
    destruct (asyncio.fails asyncio.StepSleep (writer c)) eqn:F2;
    destruct (asyncio.fails asyncio.StepClose (writer c)) eqn:F3;
    simpl; unfold asyncio.fails in *; simpl; rewrite ?F1, ?F2, ?F3; done.
Qed.

Lemma closeConnection_frame a (w : World U) r w' :
  closeConnection a w = (r, w') ->
  self w' = self w /\ trace w' = trace w /\ ext w' = ext w
  /\ (tasks w' = tasks w
      \/ asyncio.cancel_pending (tasks w) = true
         /\ tasks w' = asyncio.throw_cancel <$> tasks w)
  /\ forall b, b <> a -> heap w' !! b = heap w !! b.
Proof.
  unfold closeConnection.
  destruct (heap w !! a) as [c|]; [|intros [= <- <-]; split_and!; auto].
  destruct (negb (asyncio.is_closing (writer c)));
    [|intros [= <- <-]; split_and!; auto].
  pose proof (handshake_tasks c (tasks w)) as Hts.
  destruct (handshake c (tasks w)) as [[o c1] ts1].
  destruct (time_time (clk w)) as [t clk1].
  intros [= <- <-]. simpl in *. split_and!; try done.
  - subst ts1. destruct (negb (half_close_fails c)); simpl; [|by left].
    destruct (asyncio.cancel_pending (tasks w)); auto.
  - intros b Hb. by apply list_lookup_insert_ne.
Qed.


Lemma closeConnection_ok a (w : World U) c :
  heap w !! a = Some c -> (closeConnection a w).1 = Ok tt.
Proof.
  unfold closeConnection. intros ->.
  destruct (negb (asyncio.is_closing (writer c))); [|done].
  destruct (handshake c (tasks w)) as [[o c1] ts1], (time_time (clk w)). done.
Qed.

(** The steps of [__aexit__] after its guard, in one piece. *)
Lemma aexit_unfold (w : World U) :
  connected w = true ->
  exists a c,
    _connection (self w) = Some a /\ heap w !! a = Some c
    /\ truthy_time (st_closed (state c)) = false
    /\ let nulled :=
         set_self {| timeout := timeout (self w); limit := limit (self w);
                     chunksize := chunksize (self w); mode := mode (self w);
                     _connection := None; _handler := None |} w in
       let cancelled :=
         match _handler (self w) with
         | Some t => set_tasks (alter asyncio.cancel t (tasks w)) nulled
         | None => nulled
         end in
       heap cancelled !! a = Some c
       /\ __aexit__ super_aexit w
          = super___aexit__ super_aexit (closeConnection a cancelled).2.
Proof.
  unfold connected. intros Hc.
  destruct (_connection (self w)) as [a|] eqn:Ea; [|discriminate].
  destruct (heap w !! a) as [c|] eqn:Eh; [|discriminate].
  exists a, c. repeat split; try done.
  { by destruct (truthy_time _). }
  { by destruct (_handler (self w)). }
  unfold __aexit__, connected. rewrite Ea, Eh, Hc. simpl.
  unfold bind, _pre_disconnect, _post_disconnect, ret, cancel_handler.
  destruct (_handler (self w)) as [t|]; simpl.
  - match goal with |- context [closeConnection a ?x] =>
      pose proof (closeConnection_ok a x c Eh) as Hok;
      destruct (closeConnection a x) as [r w1] end.
    simpl in Hok. by subst r.
  - match goal with |- context [closeConnection a ?x] =>
      pose proof (closeConnection_ok a x c Eh) as Hok;
      destruct (closeConnection a x) as [r w1] end.
    simpl in Hok. by subst r.
Qed.

Lemma super_aexit_frame (w : World U) r w' :
  super___aexit__ super_aexit w = (r, w') ->
  self w' = self w /\ trace w' = trace w /\ heap w' = heap w
  /\ tasks w' = tasks w /\ clk w' = clk w.
Proof.
  unfold super___aexit__. destruct (super_aexit (ext w)) as [r0 u].
  by intros [= <- <-].
Qed.

Lemma aexit_trace (w : World U) :
  trace (__aexit__ super_aexit w).2 = trace w.
Proof.
  destruct (connected w) eqn:Hc.
  - destruct (aexit_unfold w Hc) as (a & c & _ & _ & _ & _ & ->).
    match goal with |- context [closeConnection a ?x] =>
      destruct (closeConnection a x) as [r w1] eqn:Hcc end.
    apply closeConnection_frame in Hcc as (_ & Ht & _). simpl.
    destruct (super___aexit__ super_aexit w1) as [r2 w2] eqn:Hs.
    apply super_aexit_frame in Hs as (_ & Ht2 & _). simpl.
    rewrite Ht2, Ht. by destruct (_handler (self w)).
  - unfold __aexit__. by rewrite Hc.
Qed.

Lemma aexit_disconnects (w : World U) :
  connected (__aexit__ super_aexit w).2 = false.
Proof.
  destruct (connected w) eqn:Hc.
  - destruct (aexit_unfold w Hc) as (a & c & _ & _ & _ & _ & ->).
    match goal with |- context [closeConnection a ?x] =>
      destruct (closeConnection a x) as [r w1] eqn:Hcc end.
    apply closeConnection_frame in Hcc as (Hs & _). simpl.
    destruct (super___aexit__ super_aexit w1) as [r2 w2] eqn:Hs2.
    apply super_aexit_frame in Hs2 as (Hs2 & _). simpl.
    unfold connected. rewrite Hs2, Hs. by destruct (_handler (self w)).
  - unfold __aexit__. by rewrite Hc.
Qed.

Lemma aexit_noop (w : World U) :
  connected w = false -> __aexit__ super_aexit w = (Ok tt, w).
Proof. unfold __aexit__. by intros ->. Qed.

Lemma close_trace (w : World U) :
  trace (close super_aexit w).2 = trace w ++ [EvClose].
Proof. unfold close. by rewrite aexit_trace. Qed.

(** [__aexit__] leaves every connection alone that is already stamped
    closed. *)
Lemma aexit_keeps_closed (w : World U) b cb :
  heap w !! b = Some cb ->
  truthy_time (st_closed (state cb)) = true ->
  heap (__aexit__ super_aexit w).2 !! b = Some cb.
Proof.
  intros Hb Hcl.
  destruct (connected w) eqn:Hc; [|by rewrite aexit_noop].
  destruct (aexit_unfold w Hc) as (a & c & Ea & Eh & Hopen & _ & ->).
  assert (b <> a) as Hne.
  { intros ->. pose proof (eq_trans (eq_sym Hb) Eh) as [= ->]. congruence. }
  match goal with |- context [closeConnection a ?x] =>
    destruct (closeConnection a x) as [r w1] eqn:Hcc end.
  apply closeConnection_frame in Hcc as (_ & _ & _ & _ & Hh). simpl.
  destruct (super___aexit__ super_aexit w1) as [r2 w2] eqn:Hs2.
  apply super_aexit_frame in Hs2 as (_ & _ & Hh2 & _). simpl.
  rewrite Hh2, Hh by done. by destruct (_handler (self w)).
Qed.

Lemma run_raise_kind s k d e :
  run s k d (Raise e) ->
  e = AttributeError \/ exists cause, e = freedmIPCMessageHandler cause.
Proof.
  remember (Raise e) as r eqn:Er. induction 1; try discriminate; auto.
  injection Er as ->. inversion H; subst; eauto.
Qed.

Lemma handle_run a (w : World U) r w' :
  _handleConnection handleMessage super_aexit a w = (r, w') ->
  exists d lr wl,
    while_loop handleMessage (enough_fuel a w) a 0 w = (lr, wl)
    /\ run (self w) 0 d lr
    /\ lr <> Ok FuelOut
    /\ trace wl = trace w ++ d
    /\ match lr with
       | Ok _ => close super_aexit wl = (r, w')
                 /\ trace w' = trace w ++ d ++ [EvClose]
       | Raise e => r = Raise e /\ w' = wl
       | Blocked => r = Blocked /\ w' = wl
       end.
Proof.
  unfold _handleConnection.
  destruct (while_loop handleMessage (enough_fuel a w) a 0 w)
    as [lr wl] eqn:Hl.
  assert (lr <> Ok FuelOut) as Hfuel.
  { unfold enough_fuel in Hl. destruct (heap w !! a) as [c|] eqn:Hc.
    - eapply while_loop_total in Hl as (? & _); eauto.
    - simpl in Hl. unfold loop_body in Hl. rewrite Hc in Hl.
      by injection Hl as <- <-. }
  destruct (while_loop_run _ _ _ _ _ _ Hl) as (Hs & d & Ht & Hr).
  intros H. exists d, lr, wl. repeat split; try done.
  destruct lr as [x|e|].
  - assert (close super_aexit wl = (r, w')) as Hcl by (by destruct x).
    split; [done|].
    pose proof (close_trace wl) as Hct. rewrite Hcl in Hct. simpl in Hct.
    by rewrite Hct, Ht, app_assoc.
  - by injection H as <- <-.
  - by injection H as <- <-.
Qed.

(** What [_handleConnection] adds to the readings of the trace is
    what its loop recorded; the closing [EvClose] adds to none of them. *)
Lemma handle_readings a (w : World U) r w' :
  _handleConnection handleMessage super_aexit a w = (r, w') ->
  exists d,
    run (self w) 0 d (while_loop handleMessage (enough_fuel a w) a 0 w).1
    /\ payload (trace w') = (payload (trace w) + payload d)%Z
    /\ read_sizes (trace w') = read_sizes (trace w) ++ read_sizes d
    /\ messages (trace w') = messages (trace w) ++ messages d.
Proof.
  intros H.
  destruct (handle_run _ _ _ _ H) as (d & lr & wl & Hl & Hr & _ & Ht & Hm).
  exists d. rewrite Hl. split; [done|].
  assert (trace w' = trace w ++ d \/ trace w' = trace w ++ d ++ [EvClose])
    as [->| ->].
  { destruct lr; [right|left|left]; destruct Hm; congruence. }
  - by rewrite payload_app, read_sizes_app, messages_app.
  - rewrite !payload_app, !read_sizes_app, !messages_app. simpl.
    rewrite !app_nil_r. change (payload [EvClose]) with 0%Z.
    repeat split; try done. lia.
Qed.

(** *** The handler, call after call *)

Lemma handle_each_app ms1 ms2 (u : U) :
  handle_each handleMessage (ms1 ++ ms2) u
  = match handle_each handleMessage ms1 u with
    | (Ok _, u') => handle_each handleMessage ms2 u'
    | other => other
    end.
Proof.
  revert u. induction ms1 as [|m ms1 IH]; intros u; simpl; [done|].
  destruct (handleMessage m u) as [[[]|e|] u']; [apply IH|done..].
Qed.

(** One pass calls the handler on the message it has made, if any; how
    the pass goes on is decided by how that call ends. *)
Lemma loop_body_handled a k (w : World U) fl w' :
  loop_body handleMessage a k w = (fl, w') ->
  exists ms,
    messages (trace w') = messages (trace w) ++ ms
    /\ (handle_each handleMessage ms (ext w)).2 = ext w'
    /\ match (handle_each handleMessage ms (ext w)).1 with
       | Ok _ =>
           (exists k', fl = Next k') \/ (exists x, fl = Break x)
           \/ fl = Propagate AttributeError \/ fl = Suspended
       | Raise e => fl = Propagate (freedmIPCMessageHandler e)
       | Blocked => fl = Suspended
       end.
Proof.
  unfold loop_body.
  destruct (heap w !! a) as [c|].
  2:{ intros [= <- <-]. exists []. rewrite app_nil_r. simpl. split_and!; try done; eauto 7. }
  destruct (asyncio.at_eof (reader c)).
  { intros [= <- <-]. exists []. rewrite app_nil_r. simpl. split_and!; try done; eauto 7. }
  destruct (time_time (clk w)) as [t clk1].
  destruct (next_read (self w) k) as [[n k']|].
  2:{ intros [= <- <-]. exists []. rewrite app_nil_r. simpl. split_and!; try done; eauto 7. }
  destruct (asyncio.read n (reader (set_updated t c))) as [[raw|e|] r1].
  - destruct (negb (length raw =? 0)).
    + cbn [ext log set_clk store set_heap].
      destruct (handleMessage {| data := raw; sender := a |} (ext w))
        as [[[]|e|] u] eqn:Hh; intros [= <- <-];
        exists [{| data := raw; sender := a |}]; cbn;
        rewrite !messages_app, Hh; cbn; rewrite ?app_nil_r;
        split_and!; try done; eauto 7.
    + intros [= <- <-]. exists []. cbn. rewrite !messages_app. cbn.
      rewrite !app_nil_r. split_and!; try done; eauto 7.
  - intros [= <- <-]. exists []. cbn. rewrite !messages_app. cbn.
    rewrite !app_nil_r. split_and!; try done; eauto 7.
  - intros [= <- <-]. exists []. cbn. rewrite !messages_app. cbn.
    rewrite !app_nil_r. split_and!; try done; eauto 7.
Qed.

Lemma while_loop_handled a fuel : forall k (w : World U) r w',
  while_loop handleMessage fuel a k w = (r, w') ->
  exists ms,
    messages (trace w') = messages (trace w) ++ ms
    /\ (handle_each handleMessage ms (ext w)).2 = ext w'
    /\ match (handle_each handleMessage ms (ext w)).1 with
       | Ok _ => (exists x, r = Ok x) \/ r = Raise AttributeError \/ r = Blocked
       | Raise e => r = Raise (freedmIPCMessageHandler e)
       | Blocked => r = Blocked
       end.
Proof.
  induction fuel as [|fuel IH]; intros k w r w'; simpl.
  { intros [= <- <-]. exists []. rewrite app_nil_r. simpl. split_and!; try done; eauto 7. }
  destruct (loop_body handleMessage a k w) as [fl w1] eqn:Hb.
  destruct (loop_body_handled _ _ _ _ _ Hb) as (ms & Hm & Hu & Hfl).
  destruct (handle_each handleMessage ms (ext w)) as [hr u1] eqn:Hms.
  cbn [fst snd] in *. subst u1.
  destruct hr as [[]|e|].
  - destruct Hfl as [[k' ->]|[[x ->]|[->| ->]]].
    + intros H. destruct (IH _ _ _ _ H) as (ms' & Hm' & Hu' & Hr).
      exists (ms ++ ms'). rewrite handle_each_app, Hms.
      split; [by rewrite Hm', Hm, app_assoc|]. split; [exact Hu'|exact Hr].
    + intros [= <- <-]. exists ms. rewrite Hms. cbn. split_and!; try done; eauto 7.
    + intros [= <- <-]. exists ms. rewrite Hms. cbn. split_and!; try done; eauto 7.
    + intros [= <- <-]. exists ms. rewrite Hms. cbn. split_and!; try done; eauto 7.
  - subst fl. intros [= <- <-]. exists ms. rewrite Hms. by cbn.
  - subst fl. intros [= <- <-]. exists ms. rewrite Hms. by cbn.
Qed.

(** C1 (amended): however the read loop of [_handleConnection] is left
    by itself -- end of input, spent budget, cancellation, peer reset
    or any other read fault -- [close()] is called exactly once
    afterwards; when the message handler raises, the wrapped exception
    travels out of [_handleConnection] at once, [close()] is not
    called and the connection keeps its [closed] stamp as it was.
    Which of the two it is, is decided by how the calls of the handler
    end on the messages that are delivered. *)
Theorem handleConnection_closes_once a (w : World U) c r w' :
  heap w !! a = Some c ->
  _handleConnection handleMessage super_aexit a w = (r, w') ->
  exists lr wl ms,
    while_loop handleMessage (enough_fuel a w) a 0 w = (lr, wl)
    /\ messages (trace wl) = messages (trace w) ++ ms
    /\ (handle_each handleMessage ms (ext w)).2 = ext wl
    /\ match (handle_each handleMessage ms (ext w)).1 with
       | Ok _ =>
           (* every call of the handler has returned *)
           match lr with
           | Ok x =>
               (x = AtEof \/ x = BudgetSpent \/ x = Cancelled
                \/ x = PeerReset \/ exists e, x = ReadFault e)
               /\ close super_aexit wl = (r, w')
               /\ closes (trace w') = S (closes (trace w))
           | Raise _ => False
           | Blocked =>
               (* a read stays suspended *)
               r = Blocked /\ w' = wl
               /\ closes (trace w') = closes (trace w)
           end
       | Raise cause =>
           (* the last call of the handler has raised [cause] *)
           lr = Raise (freedmIPCMessageHandler cause)
           /\ r = Raise (freedmIPCMessageHandler cause)
           /\ w' = wl
           /\ closes (trace w') = closes (trace w)
           /\ self w' = self w
           /\ exists c', heap w' !! a = Some c'
                /\ st_closed (state c') = st_closed (state c)
       | Blocked =>
           (* the last call of the handler stays suspended *)
           lr = Blocked /\ r = Blocked /\ w' = wl
           /\ closes (trace w') = closes (trace w)
       end.
Proof.
  intros Hc H.
  destruct (handle_run _ _ _ _ H) as (d & lr & wl & Hl & Hr & Hf & Ht & Hm).
  destruct (while_loop_handled _ _ _ _ _ _ Hl) as (ms & Hms & Hu & Hk).
  exists lr, wl, ms. split_and!; [done..|].
  pose proof (run_no_close _ _ _ _ Hr) as Hnc.
  pose proof Hl as Hl'. unfold enough_fuel in Hl'. rewrite Hc in Hl'.
  eapply while_loop_total in Hl' as (_ & Hna & c' & Hc' & _ & Hst); eauto.
  destruct (handle_each handleMessage ms (ext w)).1 as [[]|cause|].
  - destruct Hk as [[x ->]|[->| ->]]; [|done|].
    + destruct Hm as [Hcl Htr]. split_and!; try done.
      * destruct x; eauto 6. done.
      * rewrite Htr, !closes_app, Hnc. simpl. lia.
    + destruct Hm as [-> ->]. split_and!; try done.
      rewrite Ht, closes_app. lia.
  - subst lr. destruct Hm as [-> ->]. split_and!; try done.
    + rewrite Ht, closes_app. lia.
    + by destruct (while_loop_run _ _ _ _ _ _ Hl).
    + eauto.
  - subst lr. destruct Hm as [-> ->]. split_and!; try done.
    rewrite Ht, closes_app. lia.
Qed.

(** C2 (amended): when [closeConnection] is called on a connection
    whose transport is not already closing, the [closed] stamp is set
    to the clock's reading by the time it returns, and it returns
    normally, whichever steps of the handshake fail; on a transport
    that is already closing it returns at once and changes nothing. *)
Theorem closeConnection_stamps_closed a (w : World U) c :
  heap w !! a = Some c ->
  (asyncio.is_closing (writer c) = false ->
   (closeConnection a w).1 = Ok tt
   /\ exists c', heap (closeConnection a w).2 !! a = Some c'
        /\ st_closed (state c')
           = Some (ticks (clk w) (reads (clk w))))
  /\ (asyncio.is_closing (writer c) = true ->
      closeConnection a w = (Ok tt, w)).
Proof.
  intros Hc. unfold closeConnection. rewrite Hc.
  split; intros ->; simpl; [|done].
  destruct (handshake c (tasks w)) as [[fault c1] ts1]. simpl.
  split; [done|]. eexists. split.
  - apply list_lookup_insert_eq. by eapply lookup_lt_Some.
  - reflexivity.
Qed.

(** C3: calling [__aexit__] a second time changes nothing and raises
    nothing, whatever the first call did; a connection that already
    carries a [closed] stamp is never stamped again; and on an
    instance that holds no connection the call is a no-op. *)
Theorem aexit_idempotent (w : World U) :
  let w1 := (__aexit__ super_aexit w).2 in
  __aexit__ super_aexit w1 = (Ok tt, w1)
  /\ (forall b cb, heap w !! b = Some cb ->
        truthy_time (st_closed (state cb)) = true ->
        heap w1 !! b = Some cb)
  /\ (_connection (self w) = None ->
      __aexit__ super_aexit w = (Ok tt, w)).
Proof.
  simpl. repeat split.
  - apply aexit_noop, aexit_disconnects.
  - intros b cb. apply aexit_keeps_closed.
  - intros Hn. apply aexit_noop. unfold connected. by rewrite Hn.
Qed.

(** C4: with a chunk size [C > 0] and a limit [L >= C], a run hands at
    most [(L / C) * C] payload bytes to the handler and issues at most
    [L / C] reads; once less than one chunk of the limit is left the
    pass leaves the loop through the budget [break] without issuing a
    read; and with [C = 4], [L = 10] and ten bytes arriving in one
    piece, the handler gets two messages of four bytes and no third. *)
Theorem chunked_read_respects_limit :
  (forall a (w : World U) C L r w',
      chunksize (self w) = Some C -> limit (self w) = Some L ->
      (0 < C)%Z -> (C <= L)%Z ->
      _handleConnection handleMessage super_aexit a w = (r, w') ->
      (payload (trace w') <= payload (trace w) + L / C * C)%Z
      /\ (Z.of_nat (length (read_sizes (trace w')))
          <= Z.of_nat (length (read_sizes (trace w))) + L / C)%Z)
  /\ (forall a (w : World U) c C L k,
         chunksize (self w) = Some C -> limit (self w) = Some L ->
         (0 < C)%Z -> (C <= L)%Z ->
         heap w !! a = Some c -> asyncio.at_eof (reader c) = false ->
         (L - k * C < C)%Z ->
         exists w1, loop_body handleMessage a k w = (Break BudgetSpent, w1)
                    /\ trace w1 = trace w)
  /\ (let '(r, w') :=
        _handleConnection Scenarios.quiet_handler Scenarios.parent_aexit 0
          (Scenarios.established (Some 10%Z) (Some 4%Z)
             (Scenarios.reader_expecting
                [asyncio.Data (Scenarios.ascii "0123456789")])
             (Scenarios.writer_failing [])) in
      r = Ok tt
      /\ map data (messages (trace w'))
         = [Scenarios.ascii "0123"; Scenarios.ascii "4567"]).
Proof.
  split; [|split].
  - intros a w C L r w' HC HL Cpos CL H.
    destruct (handle_readings _ _ _ _ H) as (d & Hr & Hp & Hrs & _).
    assert (0 <= L / C)%Z by (apply Z.div_pos; lia).
    destruct (run_chunked (self w) C L HC HL Cpos ltac:(lia) _ _ _ Hr)
      as (Hn & _ & Hpay & _); [lia|].
    rewrite Hp, Hrs, length_app. split; [nia|lia].
  - intros a w c C L k HC HL Cpos CL Hc He Hk.
    unfold loop_body. rewrite Hc, He.
    destruct (time_time (clk w)) as [t clk1].
    rewrite (next_read_chunked (self w) C L HC HL Cpos ltac:(lia)).
    destruct (Z.ltb_spec (L - k * C) C); [|lia].
    eexists. split; [reflexivity|done].
  - vm_compute. done.
Qed.

(** C9: with a chunk size [C > 0] and a limit [L > 0], every read asks
    for [C] bytes and counts as one chunk whatever it returns: a run
    issues at most [L / C] reads, hands over at most [C] bytes per
    read, and when it stops on the budget it has issued exactly
    [L / C] reads.  So a short read is not made up for: with [C = 4],
    [L = 8] and one byte arriving ahead of seven more, the run stops
    after five payload bytes and leaves three in the buffer. *)
Theorem chunked_budget_counts_reads :
  (forall a (w : World U) C L r w',
      chunksize (self w) = Some C -> limit (self w) = Some L ->
      (0 < C)%Z -> (0 < L)%Z ->
      _handleConnection handleMessage super_aexit a w = (r, w') ->
      exists rs,
        read_sizes (trace w') = read_sizes (trace w) ++ rs
        /\ rs = replicate (length rs) C
        /\ (Z.of_nat (length rs) <= L / C)%Z
        /\ (payload (trace w')
            <= payload (trace w) + Z.of_nat (length rs) * C)%Z
        /\ ((while_loop handleMessage (enough_fuel a w) a 0 w).1
            = Ok BudgetSpent ->
            Z.of_nat (length rs) = (L / C)%Z))
  /\ (let '(r, w') :=
        _handleConnection Scenarios.quiet_handler Scenarios.parent_aexit 0
          (Scenarios.established (Some 8%Z) (Some 4%Z)
             (Scenarios.reader_expecting
                [asyncio.Data (Scenarios.ascii "a");
                 asyncio.Data (Scenarios.ascii "bcdefgh")])
             (Scenarios.writer_failing [])) in
      r = Ok tt
      /\ read_sizes (trace w') = [4; 4]%Z
      /\ map data (messages (trace w'))
         = [Scenarios.ascii "a"; Scenarios.ascii "bcde"]
      /\ payload (trace w') = 5%Z
      /\ (asyncio._buffer ∘ reader) <$> heap w' !! 0
         = Some (Scenarios.ascii "fgh")).
Proof.
  split.
  - intros a w C L r w' HC HL Cpos Lpos H.
    destruct (handle_readings _ _ _ _ H) as (d & Hr & Hp & Hrs & _).
    assert (0 <= L / C)%Z by (apply Z.div_pos; lia).
    destruct (run_chunked (self w) C L HC HL Cpos Lpos _ _ _ Hr)
      as (Hn & Hall & Hpay & Hb); [lia|].
    exists (read_sizes d). repeat split; try done; try lia.
    intros E. specialize (Hb E). lia.
  - vm_compute. done.
Qed.

End ReadLoop.

(** * Properties of the transport adapters *)

Section Adapters.

Lemma byte_val_range b : (0 <= byte_val b < 256)%Z.
Proof.
  unfold byte_val. pose proof (Byte.to_N_bounded b) as Hb.
  split; [apply N2Z.is_nonneg|]. lia.
Qed.

Lemma uint_le_range bs : (0 <= uint_le bs < 256 ^ Z.of_nat (length bs))%Z.
Proof.
  induction bs as [|b bs IH]; simpl uint_le; simpl length; [lia|].
  pose proof (byte_val_range b).
  rewrite Nat2Z.inj_succ, Z.pow_succ_r by lia. lia.
Qed.



Lemma unpack_3i_sample :
  unpack_3i LittleEndian Scenarios.peer_record
  = Ok (12345, 1000, -1)%Z.
Proof. reflexivity. Qed.


(** C10: a connection assembled by either adapter starts with the
    configured mode, or [PERSISTENT] when none is configured, with
    [created] and [updated] set to the clock's next two readings, and
    with [closed] empty. *)
Theorem assembled_state_is_initial :
  (forall U (cw : IPCSocketClient.World U) rd wr,
      exists c,
        (IPCSocketClient._assembleConnection rd wr cw).1 = Ok c
        /\ state c
           = {| st_mode := mode_or_PERSISTENT
                             (IPCSocketClient.mode (IPCSocketClient.self cw));
                st_created := ticks (IPCSocketClient.clk cw)
                                (reads (IPCSocketClient.clk cw));
                st_updated := ticks (IPCSocketClient.clk cw)
                                (S (reads (IPCSocketClient.clk cw)));
                st_closed := None |})
  /\ (forall (sw : UXDSocketServer.World) rd wr c sw',
         UXDSocketServer._assembleConnection rd wr sw = (Ok c, sw') ->
         state c
         = {| st_mode := mode_or_PERSISTENT
                           (UXDSocketServer.mode (UXDSocketServer.self sw));
              st_created := ticks (UXDSocketServer.clk sw)
                              (reads (UXDSocketServer.clk sw));
              st_updated := ticks (UXDSocketServer.clk sw)
                              (S (reads (UXDSocketServer.clk sw)));
              st_closed := None |})
  /\ mode_or_PERSISTENT None = PERSISTENT.
Proof.
  split; [|split]; [| |done].
  - intros U cw rd wr. eexists. split; reflexivity.
  - intros sw rd wr c sw'. unfold UXDSocketServer._assembleConnection.
    destruct (asyncio.extra_socket wr) as [sock|]; [|discriminate].
    destruct (asyncio.getsockopt_peercred sock calcsize_3i)
      as [cred| |]; try discriminate.
    destruct (unpack_3i (UXDSocketServer.byteorder sw) cred)
      as [[[p u] g]| |]; try discriminate.
    simpl. by intros [= <- <-].
Qed.

(** *** Setting up the UXD socket *)

(** A configured path that is a directory: [__aenter__] ends in
    [UnboundLocalError], and nothing has been touched. *)
Lemma aenter_on_directory (w : UXDSocketServer.World) p en :
  UXDSocketServer.path (UXDSocketServer.self w) = Some p ->
  truthy_str (Some p) = true ->
  UXDSocketServer.fs w !! p = Some en ->
  UXDSocketServer.isdir en = true ->
  UXDSocketServer.__aenter__ w = (Raise (UnboundLocalError "e"), w).
Proof.
  intros Hp Ht Hf Hd. unfold UXDSocketServer.__aenter__.
  rewrite Hp, Ht. simpl. unfold UXDSocketServer.clear_path.
  by rewrite Hf, Hd.
Qed.

(** A configured path that is a removable file of another kind: it is
    removed and, where the system lets the socket be bound and the
    server be started, the socket is bound in its place and the server
    is set. *)
Lemma aenter_on_stale_file (w : UXDSocketServer.World) p en :
  UXDSocketServer.path (UXDSocketServer.self w) = Some p ->
  truthy_str (Some p) = true ->
  UXDSocketServer.fs w !! p = Some en ->
  UXDSocketServer.isdir en = false ->
  UXDSocketServer.removable en = true ->
  UXDSocketServer.bind_fault w p = None ->
  UXDSocketServer.starting w = Ok tt ->
  exists w',
    UXDSocketServer.__aenter__ w = (Ok tt, w')
    /\ UXDSocketServer.fs w'
       = <[p := {| UXDSocketServer.kind := UXDSocketServer.SocketFile;
                   UXDSocketServer.removable := true |}]>
           (delete p (UXDSocketServer.fs w))
    /\ is_Some (UXDSocketServer._server (UXDSocketServer.self w')).
Proof.
  intros Hp Ht Hf Hd Hr Hb Hs. unfold UXDSocketServer.__aenter__.
  rewrite Hp, Ht. simpl.
  unfold UXDSocketServer.clear_path, UXDSocketServer.os_remove.
  rewrite Hf, Hd, Hr.
  unfold UXDSocketServer.bind_unix, UXDSocketServer.start_unix_server. simpl.
  rewrite lookup_delete_eq, Hb. simpl. rewrite Hs.
  eexists. repeat split. eauto.
Qed.

(** C8 (the code departs from it): with the configured path an
    existing directory, [__aenter__] does not end in
    [freedmIPCSocketCreation]: [os.rmdir()] is called without its
    argument, and the handler that is to raise the creation error
    formats the unbound local [e] into its message first, which raises
    [UnboundLocalError]. A stale regular file at the path is removed
    and the socket bound in its place. *)
Theorem aenter_directory_raises_UnboundLocalError :
  UXDSocketServer.__aenter__
    (Scenarios.server "/run/freedm.sock"
       [("/run/freedm.sock", Scenarios.a_directory)])
  = (Raise (UnboundLocalError "e"),
     Scenarios.server "/run/freedm.sock"
       [("/run/freedm.sock", Scenarios.a_directory)])
  /\ (UXDSocketServer.__aenter__
        (Scenarios.server "/run/freedm.sock"
           [("/run/freedm.sock", Scenarios.a_stale_file)])).1 = Ok tt
  /\ UXDSocketServer.kind
       <$> UXDSocketServer.fs
             (UXDSocketServer.__aenter__
                (Scenarios.server "/run/freedm.sock"
                   [("/run/freedm.sock", Scenarios.a_stale_file)])).2
           !! "/run/freedm.sock"
     = Some UXDSocketServer.SocketFile.
Proof.
  split; [|split].
  - by eapply aenter_on_directory.
  - by vm_compute.
  - by vm_compute.
Qed.

End Adapters.

(** * Further properties of the client *)

Section Shutdown.

Context {U : Type}.
Variable super_aexit : U -> Res unit * U.

Lemma aexit_outcome (w : World U) :
  (__aexit__ super_aexit w).1
  = if connected w then (super_aexit (ext w)).1 else Ok tt.
Proof.
  destruct (connected w) eqn:Hc.
  2:{ by rewrite aexit_noop. }
  destruct (aexit_unfold super_aexit w Hc) as (a & c & Ea & Eh & _ & Hl & ->).
  match goal with |- context [closeConnection a ?x] =>
    destruct (closeConnection a x) as [r w1] eqn:Hcc end.
  apply closeConnection_frame in Hcc as (_ & _ & Hext & _). cbn [snd].
  assert (ext w1 = ext w) as Hx.
  { rewrite Hext. by destruct (_handler (self w)). }
  unfold super___aexit__. rewrite Hx.
  by destruct (super_aexit (ext w)) as [r0 u].
Qed.

(** X1: Shutdown neither fails nor hangs by itself: on a client that
    is not connected [__aexit__] returns at once; on a connected one
    it ends as the parent's [__aexit__] ends, which it awaits last, on
    the parent's state as it found it.  So whatever [__aexit__] raises
    the parent has raised, and it stays suspended only where the
    parent does; no fault of the handshake gets out. *)
Theorem aexit_raises_only_from_parent (w : World U) :
  (__aexit__ super_aexit w).1
  = (if connected w then (super_aexit (ext w)).1 else Ok tt)
  /\ (forall e, (__aexit__ super_aexit w).1 = Raise e ->
        connected w = true /\ (super_aexit (ext w)).1 = Raise e)
  /\ ((__aexit__ super_aexit w).1 = Blocked ->
      connected w = true /\ (super_aexit (ext w)).1 = Blocked).
Proof.
  rewrite aexit_outcome. split; [done|].
  destruct (connected w); [|by split].
  by split; [intros e|].
Qed.


(** X3: When [closeConnection] runs its handshake (the transport is not
    closing yet), the transport ends up closing exactly when none of
    the executed steps fails, the sleep failing as well when the
    running task has been asked to cancel; whatever happens, no
    write-side end-of-file is sent once the peer has closed first. *)
Theorem closeConnection_closes_transport (w : World U) a c :
  heap w !! a = Some c ->
  asyncio.is_closing (writer c) = false ->
  exists c', heap (closeConnection a w).2 !! a = Some c'
    /\ asyncio.is_closing (writer c')
       = negb (handshake_fails c (tasks w))
    /\ (asyncio.at_eof (reader c) = true ->
        asyncio.eof_written (writer c') = asyncio.eof_written (writer c)
        /\ asyncio._eof (reader c') = true)
    /\ (asyncio.at_eof (reader c) = false ->
        reader c' = reader c
        /\ asyncio.eof_written (writer c')
           = (asyncio.can_write_eof (writer c)
              && negb (asyncio.fails asyncio.StepWriteEof (writer c)))
             || asyncio.eof_written (writer c)).
Proof.
  intros Hc Hnc. unfold closeConnection. rewrite Hc, Hnc. simpl.
  destruct (handshake c (tasks w)) as [[o c1] ts1] eqn:Hh. simpl.
  eexists. split; [apply list_lookup_insert_eq; by eapply lookup_lt_Some|].
  simpl. unfold handshake, handshake_fails, half_close_fails in *.
  unfold asyncio.write_eof, asyncio.sleep, asyncio.close in Hh.
  destruct (asyncio.at_eof (reader c)) eqn:He;
    destruct (asyncio.can_write_eof (writer c)) eqn:Hw;
    destruct (asyncio.fails asyncio.StepWriteEof (writer c)) eqn:F1;
    destruct (asyncio.cancel_pending (tasks w)) eqn:P;
    destruct (asyncio.fails asyncio.StepSleep (writer c)) eqn:F2;
    destruct (asyncio.fails asyncio.StepClose (writer c)) eqn:F3;
    simpl in Hh; unfold asyncio.fails in *; simpl in Hh;
    rewrite ?F1, ?F2, ?F3 in Hh; simpl in Hh;
    injection Hh as <- <- <-; simpl; rewrite ?Hnc;
    split_and!; try done; try (intros; split; try done);
    try (by destruct (asyncio.eof_written (writer c))).
Qed.

End Shutdown.

(** * Further properties of the read loop *)

Section Streams.

Context {U : Type}.
Variable handleMessage : Message -> U -> Res unit * U.
Variable super_aexit : U -> Res unit * U.

Lemma wait_for_data_stream fd r r1 :
  asyncio._wait_for_data fd r = (Ok tt, r1) ->
  stream_bytes r1 = asyncio._buffer r ++ feed_bytes fd.
Proof.
  unfold stream_bytes. revert r1.
  induction fd as [|[bs| |e|] fd IH]; simpl; intros r1 H; try discriminate.
  - destruct bs as [|b bs]; simpl in H.
    + by apply IH in H.
    + injection H as <-. simpl. by rewrite <- app_assoc.
  - by injection H as <-.
Qed.

Lemma read_until_eof_stream fd acc r raw r1 :
  asyncio.read_until_eof fd acc r = (Ok raw, r1) ->
  raw ++ stream_bytes r1 = acc ++ feed_bytes fd.
Proof.
  unfold stream_bytes. revert acc r1.
  induction fd as [|[bs| |e|] fd IH]; simpl; intros acc r1 H; try discriminate.
  - apply IH in H. by rewrite H, <- app_assoc.
  - by injection H as <- <-.
Qed.

(** A read hands over the front of what the reader had to give. *)
Lemma read_stream n r raw r1 :
  asyncio.read n r = (Ok raw, r1) -> raw ++ stream_bytes r1 = stream_bytes r.
Proof.
  unfold asyncio.read. intros H.
  destruct (asyncio._exception r); [discriminate|].
  destruct (n =? 0)%Z; [by injection H as <- <-|].
  destruct (n <? 0)%Z.
  - destruct (asyncio._eof r).
    + injection H as <- <-. done.
    + by apply read_until_eof_stream in H.
  - destruct (asyncio.is_empty (asyncio._buffer r) && negb (asyncio._eof r)).
    + destruct (asyncio._wait_for_data (asyncio.feed r) r)
        as [[[]| |] r2] eqn:Hw; try discriminate.
      apply wait_for_data_stream in Hw. injection H as <- <-.
      unfold stream_bytes in *. simpl. by rewrite app_assoc, take_drop.
    + injection H as <- <-. unfold stream_bytes. simpl.
      by rewrite app_assoc, take_drop.
Qed.

Lemma wait_for_data_ends fd r res r1 :
  existsb is_terminal fd = true ->
  asyncio._wait_for_data fd r = (res, r1) ->
  res <> Blocked /\ (res = Ok tt -> will_end r1 = true).
Proof.
  revert r1. induction fd as [|[bs| |e|] fd IH]; simpl; intros r1 Ht H;
    try discriminate.
  - destruct bs as [|b bs]; simpl in H; [by apply IH|].
    injection H as <- <-. split; [done|]. intros _.
    unfold will_end. simpl. rewrite Ht. by rewrite !orb_true_r.
  - injection H as <- <-. split; [done|]. intros _. done.
  - by injection H as <- <-.
  - by injection H as <- <-.
Qed.

Lemma read_until_eof_ends fd acc r res r1 :
  existsb is_terminal fd = true ->
  asyncio.read_until_eof fd acc r = (res, r1) ->
  res <> Blocked /\ forall raw, res = Ok raw -> will_end r1 = true.
Proof.
  revert acc r1. induction fd as [|[bs| |e|] fd IH]; simpl;
    intros acc r1 Ht H; try discriminate.
  - by eapply IH.
  - by injection H as <- <-.
  - by injection H as <- <-.
  - by injection H as <- <-.
Qed.

(** A reader that will end never leaves a read suspended, and it still
    will end after the read. *)
Lemma read_ends n r res r1 :
  will_end r = true ->
  asyncio.read n r = (res, r1) ->
  res <> Blocked /\ forall raw, res = Ok raw -> will_end r1 = true.
Proof.
  unfold asyncio.read, will_end. intros Hw H.
  destruct (asyncio._exception r) eqn:Ex; [by injection H as <- <-|].
  rewrite orb_false_r in Hw.
  destruct (n =? 0)%Z.
  { injection H as <- <-. split; [done|]. intros _ _. by rewrite Ex, orb_false_r. }
  destruct (n <? 0)%Z.
  - destruct (asyncio._eof r) eqn:Ee.
    + by injection H as <- <-.
    + simpl in Hw. eapply read_until_eof_ends in H; eauto.
  - destruct (asyncio._eof r) eqn:Ee.
    + rewrite andb_false_r in H. injection H as <- <-. split; [done|].
      intros _ _. simpl. by rewrite Ee.
    + simpl in Hw. rewrite andb_true_r in H.
      destruct (asyncio.is_empty (asyncio._buffer r)).
      * destruct (asyncio._wait_for_data (asyncio.feed r) r)
          as [w0 r2] eqn:Hwd.
        destruct (wait_for_data_ends _ _ _ _ Hw Hwd) as [Hnb Hok].
        destruct w0 as [[]| |]; try done; injection H as <- <-;
          split; try done.
        intros _ _. specialize (Hok eq_refl). unfold will_end in *. done.
      * injection H as <- <-. split; [done|]. intros _ _. simpl.
        by rewrite Ee, Ex, Hw.
Qed.

(** One pass, seen from the reader. *)
Lemma loop_body_reader a k (w : World U) c fl w' :
  heap w !! a = Some c ->
  loop_body handleMessage a k w = (fl, w') ->
  exists c' d,
    heap w' !! a = Some c'
    /\ trace w' = trace w ++ d
    /\ Forall (fun m => sender m = a /\ data m <> []) (messages d)
    /\ concat (data <$> messages d) `prefix_of` stream_bytes (reader c)
    /\ (forall k', fl = Next k' ->
          concat (data <$> messages d) ++ stream_bytes (reader c')
          = stream_bytes (reader c)
          /\ (will_end (reader c) = true -> will_end (reader c') = true))
    /\ (will_end (reader c) = true ->
        (forall m u, (handleMessage m u).1 <> Blocked) ->
        fl <> Suspended).
Proof.
  intros Hc. unfold loop_body. rewrite Hc.
  pose proof (lookup_lt_Some _ _ _ Hc) as Hlt.
  assert (Hst : forall (c1 : Connection) h,
             length h = length (heap w) -> <[a := c1]> h !! a = Some c1).
  { intros c1 h Hh. apply list_lookup_insert_eq. lia. }
  destruct (asyncio.at_eof (reader c)) eqn:Eeof.
  { intros [= <- <-]. exists c, []. rewrite app_nil_r.
    split_and!; try done. apply prefix_nil. }
  destruct (time_time (clk w)) as [t clk1].
  destruct (next_read (self w) k) as [[n k']|] eqn:Hn.
  2:{ intros [= <- <-]. eexists _, []. rewrite app_nil_r.
      split_and!; try done; [by apply Hst|apply prefix_nil]. }
  destruct (asyncio.read n (reader (set_updated t c))) as [got r1] eqn:Hr.
  simpl in Hr.
  destruct got as [raw|e|].
  - pose proof (read_stream _ _ _ _ Hr) as Hstream.
    destruct (negb (length raw =? 0)) eqn:Hl.
    + assert (raw <> []) as Hne by (by destruct raw).
      destruct (handleMessage _ _) as [[[]|e|] u] eqn:Hh; intros [= <- <-];
        eexists _, [EvRead n; EvMessage _]; simpl;
        (split_and!; [apply Hst; by rewrite length_insert
                     |by rewrite <- app_assoc
                     |by repeat constructor
                     |rewrite app_nil_r; by eexists
                     | |]); try done.
      * intros ? [= <-]. rewrite app_nil_r. split; [done|].
        intros Hw. eapply read_ends in Hr as [_ Hr]; eauto.
      * intros _ Hnb _. eapply Hnb. by rewrite Hh.
    + destruct raw; [|done].
      intros [= <- <-]. eexists _, [EvRead n]; simpl.
      split_and!; [apply Hst; by rewrite length_insert|done|done
                  |apply prefix_nil| |done].
      intros ? [= <-]. split; [done|].
      intros Hw. eapply read_ends in Hr as [_ Hr]; eauto.
  - intros [= <- <-]. eexists _, [EvRead n]; simpl.
    split_and!; [apply Hst; by rewrite length_insert|done|done
                |apply prefix_nil|done|done].
  - intros [= <- <-]. eexists _, [EvRead n]; simpl.
    split_and!; [apply Hst; by rewrite length_insert|done|done
                |apply prefix_nil|done|].
    intros Hw _. eapply read_ends in Hr as [Hr _]; eauto.
Qed.

Lemma while_loop_reader a fuel : forall k (w : World U) c r w',
  heap w !! a = Some c ->
  while_loop handleMessage fuel a k w = (r, w') ->
  exists d,
    trace w' = trace w ++ d
    /\ Forall (fun m => sender m = a /\ data m <> []) (messages d)
    /\ concat (data <$> messages d) `prefix_of` stream_bytes (reader c)
    /\ (will_end (reader c) = true ->
        (forall m u, (handleMessage m u).1 <> Blocked) ->
        r <> Blocked).
Proof.
  induction fuel as [|fuel IH]; intros k w c r w' Hc; simpl.
  { intros [= <- <-]. exists []. rewrite app_nil_r.
    split_and!; try done. apply prefix_nil. }
  destruct (loop_body handleMessage a k w) as [fl w1] eqn:Hb.
  destruct (loop_body_reader _ _ _ _ _ _ Hc Hb)
    as (c1 & d & Hc1 & Ht & Hs & Hp & Hnext & Hsusp).
  destruct fl as [k'|x|e|].
  - intros H. destruct (Hnext _ eq_refl) as [Heq Hwe].
    destruct (IH _ _ _ _ _ Hc1 H) as (d' & Ht' & Hs' & Hp' & Hb').
    exists (d ++ d'). rewrite messages_app, fmap_app, concat_app.
    split_and!.
    + by rewrite Ht', Ht, app_assoc.
    + by apply Forall_app.
    + rewrite <- Heq. by apply prefix_app.
    + auto.
  - intros [= <- <-]. exists d. by split_and!.
  - intros [= <- <-]. exists d. by split_and!.
  - intros [= <- <-]. exists d. split_and!; try done.
    intros Hw Hnb _. by apply Hsusp.
Qed.

(** X4: The handler gets the bytes of the stream in the order they came
    in, none twice and none made up: put end to end, the payloads a run
    hands over are an initial piece of what the reader had to give.
    Every message names the connection it was read from and is not
    empty. *)
Theorem delivered_is_prefix_of_stream a (w : World U) c :
  heap w !! a = Some c ->
  exists ms,
    messages (trace (_handleConnection handleMessage super_aexit a w).2)
    = messages (trace w) ++ ms
    /\ concat (data <$> ms) `prefix_of` stream_bytes (reader c)
    /\ Forall (fun m => sender m = a /\ data m <> []) ms.
Proof.
  intros Hc.
  destruct (_handleConnection handleMessage super_aexit a w) as [r w'] eqn:H.
  destruct (handle_run _ _ _ _ _ _ H) as (d & lr & wl & Hl & _ & _ & Ht & Hm).
  destruct (while_loop_reader _ _ _ _ _ _ _ Hc Hl) as (d' & Ht' & Hs & Hp & _).
  assert (d' = d) as -> by (rewrite Ht in Ht'; by apply app_inv_head in Ht').
  exists (messages d). split; [|done]. simpl.
  destruct lr as [x|e|].
  - destruct Hm as [_ ->]. rewrite !messages_app. simpl. by rewrite app_nil_r.
  - destruct Hm as [_ ->]. by rewrite Ht, messages_app.
  - destruct Hm as [_ ->]. by rewrite Ht, messages_app.
Qed.

(** X5: [_handleConnection] stays suspended only where something it
    awaits does: once the reader is at its end, has failed, or has in
    its script the arrival that ends it, and as long as neither the
    message handler nor the parent's [__aexit__] stays suspended,
    [_handleConnection] returns or raises, whatever the limit and the
    chunk size are. *)
Theorem handleConnection_does_not_hang a (w : World U) c :
  heap w !! a = Some c ->
  will_end (reader c) = true ->
  (forall m u, (handleMessage m u).1 <> Blocked) ->
  (forall u, (super_aexit u).1 <> Blocked) ->
  (_handleConnection handleMessage super_aexit a w).1 <> Blocked.
Proof.
  intros Hc Hw Hh Hp.
  destruct (_handleConnection handleMessage super_aexit a w) as [r w'] eqn:H.
  destruct (handle_run _ _ _ _ _ _ H) as (d & lr & wl & Hl & _ & Hf & _ & Hm).
  destruct (while_loop_reader _ _ _ _ _ _ _ Hc Hl) as (_ & _ & _ & _ & Hnb).
  specialize (Hnb Hw Hh). simpl.
  destruct lr as [x|e|]; [|by destruct Hm as [-> _]|done].
  destruct Hm as [Hcl _]. unfold close in Hcl.
  pose proof (aexit_outcome super_aexit (log EvClose wl)) as Ho.
  rewrite Hcl in Ho. cbn [fst] in Ho. rewrite Ho.
  destruct (connected (log EvClose wl)); [apply Hp|done].
Qed.

End Streams.

Section Frame.

Context {U : Type}.
Variable handleMessage : Message -> U -> Res unit * U.
Variable super_aexit : U -> Res unit * U.

Lemma same_identity_refl c : same_identity c c.
Proof. by repeat split. Qed.

Lemma same_identity_trans c1 c2 c3 :
  same_identity c1 c2 -> same_identity c2 c3 -> same_identity c1 c3.
Proof.
  unfold same_identity. intros (?&?&?&?&?&?&?&?) (?&?&?&?&?&?&?&?).
  split_and!; congruence.
Qed.

Lemma handshake_identity c ts : same_identity c (handshake c ts).1.2.
Proof.
  unfold handshake, asyncio.write_eof, asyncio.sleep, asyncio.close.
  destruct (asyncio.cancel_pending ts);
    destruct (asyncio.at_eof (reader c)); simpl.
  - by repeat split.
  - destruct (asyncio.can_write_eof (writer c)); simpl.
    + destruct (asyncio.fails asyncio.StepWriteEof _); by repeat split.
    + by repeat split.
  - destruct (asyncio.fails asyncio.StepSleep _); simpl; [by repeat split|].
    destruct (asyncio.fails asyncio.StepClose _); by repeat split.
  - destruct (asyncio.can_write_eof (writer c)); simpl.
    + destruct (asyncio.fails asyncio.StepWriteEof _); simpl; [by repeat split|].
      destruct (asyncio.fails asyncio.StepSleep _); simpl; [by repeat split|].
      destruct (asyncio.fails asyncio.StepClose _); by repeat split.
    + destruct (asyncio.fails asyncio.StepSleep _); simpl; [by repeat split|].
      destruct (asyncio.fails asyncio.StepClose _); by repeat split.
Qed.

Lemma closeConnection_identity a (w : World U) b cb :
  heap w !! b = Some cb ->
  exists cb', heap (closeConnection a w).2 !! b = Some cb'
    /\ same_identity cb cb'.
Proof.
  intros Hb. unfold closeConnection.
  destruct (heap w !! a) as [c|] eqn:Hc; [|exists cb; by split; [|apply same_identity_refl]].
  destruct (negb (asyncio.is_closing (writer c)));
    [|exists cb; by split; [|apply same_identity_refl]].
  pose proof (handshake_identity c (tasks w)) as Hi.
  destruct (handshake c (tasks w)) as [[o c1] ts1]. simpl in *.
  destruct (decide (b = a)) as [->|Hne].
  - pose proof (eq_trans (eq_sym Hb) Hc) as [= ->].
    eexists. split; [apply list_lookup_insert_eq; by eapply lookup_lt_Some|].
    eapply same_identity_trans; [exact Hi|]. by repeat split.
  - exists cb. split; [|apply same_identity_refl].
    by rewrite list_lookup_insert_ne.
Qed.

Lemma aexit_identity (w : World U) b cb :
  heap w !! b = Some cb ->
  exists cb', heap (__aexit__ super_aexit w).2 !! b = Some cb'
    /\ same_identity cb cb'
    /\ (Some b <> _connection (self w) -> cb' = cb).
Proof.
  intros Hb.
  destruct (connected w) eqn:Hc.
  2:{ rewrite aexit_noop by done. exists cb.
      split_and!; [done|apply same_identity_refl|done]. }
  destruct (aexit_unfold super_aexit w Hc) as (a & c & Ea & Eh & _ & Hl & ->).
  match goal with |- context [closeConnection a ?x] => set (w0 := x) in * end.
  assert (heap w0 = heap w) as Hh0 by (subst w0; by destruct (_handler (self w))).
  assert (heap w0 !! b = Some cb) as Hb0 by (by rewrite Hh0).
  destruct (closeConnection_identity a w0 b cb Hb0) as (cb' & Hb' & Hi).
  destruct (closeConnection a w0) as [r w1] eqn:Hcc. cbn [snd] in *.
  apply closeConnection_frame in Hcc as (_ & _ & _ & _ & Hh).
  destruct (super___aexit__ super_aexit w1) as [r2 w2] eqn:Hs2.
  apply super_aexit_frame in Hs2 as (_ & _ & Hh2 & _). cbn [snd].
  rewrite Hh2. exists cb'. split_and!; try done.
  intros Hne. assert (b <> a) as Hba by congruence.
  rewrite Hh in Hb' by done. congruence.
Qed.

Lemma loop_body_frame a k (w : World U) fl w' b cb :
  loop_body handleMessage a k w = (fl, w') ->
  heap w !! b = Some cb ->
  exists cb', heap w' !! b = Some cb'
    /\ same_identity cb cb'
    /\ (b <> a -> cb' = cb).
Proof.
  intros H Hb.
  assert (Hkeep : exists cb', heap w !! b = Some cb' /\ same_identity cb cb'
                              /\ (b <> a -> cb' = cb)).
  { exists cb. split_and!; [done|apply same_identity_refl|done]. }
  unfold loop_body in H.
  destruct (heap w !! a) as [c|] eqn:Hc; [|by injection H as <- <-].
  destruct (asyncio.at_eof (reader c)); [by injection H as <- <-|].
  destruct (time_time (clk w)) as [t clk1].
  assert (Hupd : forall r1,
             exists cb', <[a:=set_reader r1 (set_updated t c)]>
                           (<[a:=set_updated t c]> (heap w)) !! b = Some cb'
                         /\ same_identity cb cb' /\ (b <> a -> cb' = cb)).
  { intros r1. destruct (decide (b = a)) as [->|Hne].
    - pose proof (eq_trans (eq_sym Hb) Hc) as [= ->].
      eexists. split; [apply list_lookup_insert_eq; rewrite length_insert;
                       by eapply lookup_lt_Some|].
      split; [by repeat split|done].
    - exists cb. rewrite !list_lookup_insert_ne by done.
      split_and!; [done|apply same_identity_refl|done]. }
  destruct (next_read (self w) k) as [[n k']|].
  2:{ injection H as <- <-. simpl.
      destruct (decide (b = a)) as [->|Hne].
      - pose proof (eq_trans (eq_sym Hb) Hc) as [= ->].
        eexists. split; [apply list_lookup_insert_eq; by eapply lookup_lt_Some|].
        split; [by repeat split|done].
      - exists cb. rewrite list_lookup_insert_ne by done.
        split_and!; [done|apply same_identity_refl|done]. }
  destruct (asyncio.read n (reader (set_updated t c))) as [got r1].
  destruct got as [raw|e|].
  - destruct (negb (length raw =? 0)).
    + destruct (handleMessage _ _) as [[[]|e|] u]; injection H as <- <-;
        simpl; apply Hupd.
    + injection H as <- <-. simpl. apply Hupd.
  - injection H as <- <-. simpl. apply Hupd.
  - injection H as <- <-. simpl. apply Hupd.
Qed.

Lemma while_loop_frame a fuel : forall k (w : World U) r w' b cb,
  while_loop handleMessage fuel a k w = (r, w') ->
  heap w !! b = Some cb ->
  exists cb', heap w' !! b = Some cb'
    /\ same_identity cb cb'
    /\ (b <> a -> cb' = cb).
Proof.
  induction fuel as [|fuel IH]; intros k w r w' b cb; simpl.
  { intros [= <- <-] Hb. exists cb.
    split_and!; [done|apply same_identity_refl|done]. }
  destruct (loop_body handleMessage a k w) as [fl w1] eqn:Hb1. intros H Hb.
  destruct (loop_body_frame _ _ _ _ _ _ _ Hb1 Hb) as (cb1 & Hcb1 & Hi1 & He1).
  destruct fl as [k'|x|e|]; try (injection H as <- <-; by exists cb1).
  destruct (IH _ _ _ _ _ _ H Hcb1) as (cb2 & Hcb2 & Hi2 & He2).
  exists cb2. split_and!; [done|by eapply same_identity_trans|].
  intros Hne. rewrite He2, He1 by done. done.
Qed.

Lemma loop_body_heap_length a k (w : World U) :
  length (heap (loop_body handleMessage a k w).2) = length (heap w).
Proof.
  unfold loop_body.
  destruct (heap w !! a) as [c|]; [|done].
  destruct (asyncio.at_eof (reader c)); [done|].
  destruct (time_time (clk w)) as [t clk1].
  destruct (next_read (self w) k) as [[n k']|];
    [|simpl; by rewrite length_insert].
  destruct (asyncio.read n (reader (set_updated t c))) as [got r1].
  destruct got as [raw|e|]; try (simpl; by rewrite !length_insert).
  destruct (negb (length raw =? 0)); [|simpl; by rewrite !length_insert].
  destruct (handleMessage _ _) as [[[]|e|] u]; simpl;
    by rewrite !length_insert.
Qed.

Lemma while_loop_heap_length a fuel : forall k (w : World U),
  length (heap (while_loop handleMessage fuel a k w).2) = length (heap w).
Proof.
  induction fuel as [|fuel IH]; intros k w; simpl; [done|].
  pose proof (loop_body_heap_length a k w) as Hb.
  destruct (loop_body handleMessage a k w) as [fl w1]. cbn [snd] in Hb.
  destruct fl as [k'|x|e|]; try done. by rewrite IH.
Qed.

Lemma closeConnection_heap_length a (w : World U) :
  length (heap (closeConnection a w).2) = length (heap w).
Proof.
  unfold closeConnection.
  destruct (heap w !! a) as [c|]; [|done].
  destruct (negb (asyncio.is_closing (writer c))); [|done].
  destruct (handshake c (tasks w)) as [[o c1] ts1].
  destruct (time_time (clk w)) as [t clk1].
  simpl. by rewrite length_insert.
Qed.

Lemma aexit_heap_length (w : World U) :
  length (heap (__aexit__ super_aexit w).2) = length (heap w).
Proof.
  destruct (connected w) eqn:Hc; [|by rewrite aexit_noop].
  destruct (aexit_unfold super_aexit w Hc) as (a & c & _ & _ & _ & _ & ->).
  match goal with |- context [closeConnection a ?x] => set (w0 := x) in * end.
  assert (heap w0 = heap w) as Hh0
    by (subst w0; by destruct (_handler (self w))).
  pose proof (closeConnection_heap_length a w0) as Hl.
  destruct (closeConnection a w0) as [r w1]. cbn [snd] in *.
  destruct (super___aexit__ super_aexit w1) as [r2 w2] eqn:Hs2.
  apply super_aexit_frame in Hs2 as (_ & _ & Hh2 & _). cbn [snd].
  by rewrite Hh2, Hl, Hh0.
Qed.

(** X6: The statements of [_handleConnection], and of [close()],
    [__aexit__] and [closeConnection] under it, neither create nor lose
    a connection object -- the client holds as many after the run as
    before it, each where it was -- and never change what identifies
    one: socket, peer credentials, addresses, mode and [created] stay
    as they were.  They change no connection at all other than the one
    that is read from and the one the client holds.  (The message
    handler and the parent class act on their own state; what a
    subclass does to a connection in its handler is its own.) *)
Theorem handleConnection_keeps_identity a (w : World U) b cb :
  heap w !! b = Some cb ->
  length (heap (_handleConnection handleMessage super_aexit a w).2)
  = length (heap w)
  /\ exists cb',
       heap (_handleConnection handleMessage super_aexit a w).2 !! b
       = Some cb'
       /\ same_identity cb cb'
       /\ (b <> a -> Some b <> _connection (self w) -> cb' = cb).
Proof.
  intros Hb.
  destruct (_handleConnection handleMessage super_aexit a w) as [r w'] eqn:H.
  destruct (handle_run _ _ _ _ _ _ H) as (d & lr & wl & Hl & _ & _ & _ & Hm).
  destruct (while_loop_frame _ _ _ _ _ _ _ _ Hl Hb) as (cb1 & Hcb1 & Hi1 & He1).
  destruct (while_loop_run _ _ _ _ _ _ _ Hl) as (Hs & _).
  pose proof (while_loop_heap_length a (enough_fuel a w) 0 w) as Hlen.
  rewrite Hl in Hlen.
  cbn [snd] in *.
  destruct lr as [x|e|];
    try (destruct Hm as [_ ->]; split; [done|]; exists cb1;
         split_and!; by auto).
  destruct Hm as [Hcl _]. unfold close in Hcl.
  pose proof (aexit_heap_length (log EvClose wl)) as Hlen2.
  destruct (aexit_identity (log EvClose wl) b cb1 Hcb1) as (cb2 & Hcb2 & Hi2 & He2).
  rewrite Hcl in Hcb2, Hlen2. cbn [snd] in Hcb2, Hlen2.
  split; [by rewrite Hlen2|].
  exists cb2. split_and!; [done|by eapply same_identity_trans|].
  intros Hne Hnc. rewrite He2; [by apply He1|]. simpl. by rewrite Hs.
Qed.

End Frame.

Section UntilEof.

Context {U : Type}.
Variable handleMessage : Message -> U -> Res unit * U.
Variable super_aexit : U -> Res unit * U.

Lemma read_until_eof_all ds rest acc r :
  asyncio.read_until_eof ((asyncio.Data <$> ds) ++ asyncio.Eof :: rest) acc r
  = (Ok (acc ++ concat ds),
     {| asyncio._buffer := []; asyncio._eof := true;
        asyncio._exception := asyncio._exception r; asyncio.feed := rest |}).
Proof.
  revert acc. induction ds as [|d ds IH]; intros acc; simpl.
  - by rewrite app_nil_r.
  - by rewrite IH, app_assoc.
Qed.

Lemma feed_size_until_eof ds rest :
  0 < feed_size ((asyncio.Data <$> ds) ++ asyncio.Eof :: rest).
Proof. induction ds; simpl; lia. Qed.

(** The loop on a reader that is open, without limit and chunk size,
    when the peer closes after [ds]: one read, at most one message, one
    reading of the clock, and the loop is left at the end of input. *)
Lemma while_loop_until_eof a k (w : World U) c ds rest fuel :
  truthy_int (chunksize (self w)) = false ->
  truthy_int (limit (self w)) = false ->
  (forall m u, (handleMessage m u).1 = Ok tt) ->
  heap w !! a = Some c ->
  asyncio._eof (reader c) = false ->
  asyncio._exception (reader c) = None ->
  asyncio.feed (reader c) = (asyncio.Data <$> ds) ++ asyncio.Eof :: rest ->
  exists wl,
    while_loop handleMessage (S (S fuel)) a k w = (Ok AtEof, wl)
    /\ trace wl
       = trace w ++ EvRead (-1)
           :: match asyncio._buffer (reader c) ++ concat ds with
              | [] => []
              | all => [EvMessage {| data := all; sender := a |}]
              end
    /\ self wl = self w
    /\ tasks wl = tasks w
    /\ clk wl = {| ticks := ticks (clk w); reads := S (reads (clk w)) |}
    /\ heap wl
       = <[a := set_reader
                  {| asyncio._buffer := []; asyncio._eof := true;
                     asyncio._exception := None; asyncio.feed := rest |}
                  (set_updated (ticks (clk w) (reads (clk w))) c)]> (heap w).
Proof.
  intros HC HL Hh Hc He Hx Hf.
  pose proof (lookup_lt_Some _ _ _ Hc) as Hlt.
  cbn [while_loop]. unfold loop_body at 1. rewrite Hc.
  unfold asyncio.at_eof. rewrite He. cbn [andb time_time].
  unfold next_read, limit_or_minus1. rewrite HC, HL.
  unfold asyncio.read. cbn [reader set_updated set_state].
  rewrite Hx, He, Hf, read_until_eof_all, Hx. cbn [Z.eqb Z.ltb Z.compare].
  set (all := asyncio._buffer (reader c) ++ concat ds).
  assert (Hlook : forall (c1 c2 : Connection),
             <[a:=c2]> (<[a:=c1]> (heap w)) !! a = Some c2).
  { intros. apply list_lookup_insert_eq. by rewrite length_insert. }
  destruct all as [|b0 all'] eqn:Eall; cbn [length Nat.eqb negb].
  - unfold loop_body. cbn [heap store log set_clk set_heap].
    rewrite Hlook. cbn [reader set_reader asyncio.at_eof asyncio._eof
                         asyncio._buffer asyncio.is_empty andb].
    eexists. split; [reflexivity|]. cbn.
    split_and!; try done. by rewrite list_insert_insert_eq.
  - match goal with |- context [handleMessage ?m ?u] =>
      pose proof (Hh m u) as Hm; destruct (handleMessage m u) as [o u'] end.
    cbn [fst] in Hm. subst o.
    unfold loop_body. cbn [heap store log set_clk set_heap set_ext].
    rewrite Hlook. cbn [reader set_reader asyncio.at_eof asyncio._eof
                         asyncio._buffer asyncio.is_empty andb].
    eexists. split; [reflexivity|]. cbn.
    split_and!; try done.
    + by rewrite <- app_assoc.
    + by rewrite list_insert_insert_eq.
Qed.

(** X7: Without a limit and without a chunk size, everything the peer sends
    before it closes reaches the handler as one message, however many
    pieces it arrived in; when the peer sends nothing there is no
    message; then [close()] is called. *)
Theorem unlimited_read_is_one_message a (w : World U) c ds rest :
  truthy_int (chunksize (self w)) = false ->
  truthy_int (limit (self w)) = false ->
  (forall m u, (handleMessage m u).1 = Ok tt) ->
  heap w !! a = Some c ->
  asyncio._eof (reader c) = false ->
  asyncio._exception (reader c) = None ->
  asyncio.feed (reader c) = (asyncio.Data <$> ds) ++ asyncio.Eof :: rest ->
  trace (_handleConnection handleMessage super_aexit a w).2
  = trace w ++ EvRead (-1)
      :: match asyncio._buffer (reader c) ++ concat ds with
         | [] => []
         | all => [EvMessage {| data := all; sender := a |}]
         end ++ [EvClose].
Proof.
  intros HC HL Hh Hc He Hx Hf.
  unfold _handleConnection, enough_fuel, reader_size. rewrite Hc, Hf.
  pose proof (feed_size_until_eof ds rest) as Hpos.
  destruct (feed_size _) as [|n]; [lia|].
  rewrite Nat.add_succ_r.
  destruct (while_loop_until_eof a 0 w c ds rest
              (length (asyncio._buffer (reader c)) + n) HC HL Hh Hc He Hx Hf)
    as (wl & -> & Ht & _).
  rewrite close_trace, Ht. by rewrite <- app_assoc.
Qed.




End UntilEof.

(** * Reading against a limit, without a chunk size *)

Section Limits.

Context {U : Type}.
Variable handleMessage : Message -> U -> Res unit * U.
Variable super_aexit : U -> Res unit * U.

Lemma next_read_unlimited s k :
  truthy_int (chunksize s) = false -> truthy_int (limit s) = false ->
  next_read s k = Some ((-1)%Z, k).
Proof. unfold next_read, limit_or_minus1. by intros -> ->. Qed.

Lemma run_unlimited s k d r :
  truthy_int (chunksize s) = false -> truthy_int (limit s) = false ->
  run s k d r -> Forall (fun n => n = (-1)%Z) (read_sizes d).
Proof.
  intros HC HL.
  induction 1 as [k|k d x Hp|k d e Hp|k d Hp|k k' d d' r Hp Hr IH].
  1: done.
  1-3: inversion Hp; subst; simpl; try done;
       match goal with
       | H : next_read _ _ = Some _ |- _ =>
           rewrite next_read_unlimited in H by done; injection H as <- <-
       end; by repeat constructor.
  rewrite read_sizes_app. apply Forall_app. split; [|done].
  inversion Hp; subst; simpl;
    match goal with
    | H : next_read _ _ = Some _ |- _ =>
        rewrite next_read_unlimited in H by done; injection H as <- <-
    end; by repeat constructor.
Qed.

(** C5 (amended): without a chunk size and with a limit [L > 0], every
    message handed to the handler carries at most [L] payload bytes.
    A limit of 0 counts as no limit at all, as [None] does: every read
    is [read(-1)], and what the peer sends before it closes reaches a
    handler that returns as one message, whatever its size. *)
Theorem unchunked_message_within_limit a (w : World U) r w' :
  truthy_int (chunksize (self w)) = false ->
  _handleConnection handleMessage super_aexit a w = (r, w') ->
  (forall L,
      limit (self w) = Some L -> (0 < L)%Z ->
      exists ms,
        messages (trace w') = messages (trace w) ++ ms
        /\ Forall (fun m => (Z.of_nat (length (data m)) <= L)%Z) ms)
  /\ (truthy_int (limit (self w)) = false ->
      (exists rs,
          read_sizes (trace w') = read_sizes (trace w) ++ rs
          /\ Forall (fun n => n = (-1)%Z) rs)
      /\ forall c ds rest,
           heap w !! a = Some c ->
           asyncio._eof (reader c) = false ->
           asyncio._exception (reader c) = None ->
           asyncio.feed (reader c)
           = (asyncio.Data <$> ds) ++ asyncio.Eof :: rest ->
           (forall m u, (handleMessage m u).1 = Ok tt) ->
           trace w'
           = trace w ++ EvRead (-1)
               :: match asyncio._buffer (reader c) ++ concat ds with
                  | [] => []
                  | all => [EvMessage {| data := all; sender := a |}]
                  end ++ [EvClose]).
Proof.
  intros HC H.
  destruct (handle_readings _ _ _ _ _ _ H) as (d & Hr & _ & Hrs & Hm).
  split; [|split].
  - intros L HL Lpos. exists (messages d). split; [done|].
    by destruct (run_unchunked (self w) L HC HL Lpos _ _ _ Hr).
  - exists (read_sizes d). split; [done|]. by eapply run_unlimited.
  - intros c ds rest Hc He Hx Hf Hh.
    assert (w' = (_handleConnection handleMessage super_aexit a w).2) as ->
      by (by rewrite H).
    unfold _handleConnection, enough_fuel, reader_size. rewrite Hc, Hf.
    pose proof (feed_size_until_eof ds rest) as Hpos.
    destruct (feed_size _) as [|n]; [lia|].
    rewrite Nat.add_succ_r.
    destruct (while_loop_until_eof handleMessage a 0 w c ds rest
                (length (asyncio._buffer (reader c)) + n)
                HC H0 Hh Hc He Hx Hf)
      as (wl & -> & Ht & _).
    rewrite close_trace, Ht. by rewrite <- app_assoc.
Qed.

(** *** A reader on which nothing goes wrong *)

Lemma wait_for_data_clean ds rest r res r1 :
  asyncio._wait_for_data ((asyncio.Data <$> ds) ++ asyncio.Eof :: rest) r
  = (res, r1) ->
  res = Ok tt
  /\ asyncio._exception r1 = asyncio._exception r
  /\ ((asyncio._eof r1 = true /\ asyncio.feed r1 = rest)
      \/ (asyncio._eof r1 = asyncio._eof r
          /\ exists ds',
               asyncio.feed r1
               = (asyncio.Data <$> ds') ++ asyncio.Eof :: rest)).
Proof.
  revert r1. induction ds as [|d ds IH]; intros r1; simpl.
  - intros [= <- <-]. simpl. auto.
  - destruct (asyncio.is_empty d); [apply IH|].
    intros [= <- <-]. simpl. split_and!; try done. right. eauto.
Qed.

Lemma read_clean n rest r res r1 :
  (0 < n)%Z -> ends_cleanly rest r ->
  asyncio.read n r = (res, r1) ->
  exists raw, res = Ok raw /\ ends_cleanly rest r1.
Proof.
  intros Hn [Hx Hcl]. unfold asyncio.read. rewrite Hx.
  destruct (Z.eqb_spec n 0); [lia|].
  destruct (Z.ltb_spec n 0); [lia|].
  destruct (asyncio.is_empty (asyncio._buffer r) && negb (asyncio._eof r))
    eqn:Hwait.
  - apply andb_prop in Hwait as [_ He]. apply negb_true_iff in He.
    destruct Hcl as [[He' _]|[_ [ds Hf]]]; [congruence|].
    rewrite Hf.
    destruct (asyncio._wait_for_data _ r) as [woken r2] eqn:Hw.
    apply wait_for_data_clean in Hw as (-> & Hx2 & Hcl2).
    intros [= <- <-]. eexists. split; [done|]. split; simpl.
    + congruence.
    + destruct Hcl2 as [?|[He2 ?]]; [by left|right].
      split; [congruence|done].
  - intros [= <- <-]. eexists. split; [done|]. by split.
Qed.

Section Clean.
Variable L : Z.
Hypothesis Lpos : (0 < L)%Z.
Hypothesis handler_ok : forall m u, (handleMessage m u).1 = Ok tt.

(** On such a reader, and with a handler that returns, the loop reads
    on to the end of input and hands over everything that comes before
    it. *)
Lemma while_loop_clean a fuel : forall k (w : World U) c rest,
  truthy_int (chunksize (self w)) = false ->
  limit (self w) = Some L ->
  heap w !! a = Some c ->
  ends_cleanly rest (reader c) ->
  reader_size (reader c) < fuel ->
  exists w' d,
    while_loop handleMessage fuel a k w = (Ok AtEof, w')
    /\ trace w' = trace w ++ d
    /\ concat (map data (messages d)) ++ feed_bytes rest
       = stream_bytes (reader c).
Proof.
  induction fuel as [|fuel IH]; intros k w c rest HC HL Hc Hcl Hf; [lia|].
  pose proof (lookup_lt_Some _ _ _ Hc) as Hlt.
  simpl. unfold loop_body. rewrite Hc.
  destruct (asyncio.at_eof (reader c)) eqn:He.
  { exists w, []. rewrite app_nil_r. split_and!; try done. simpl.
    unfold asyncio.at_eof in He. apply andb_prop in He as [He Hb].
    destruct Hcl as [_ [[_ Hfd]|[He' _]]]; [|congruence].
    unfold stream_bytes. rewrite Hfd.
    by destruct (asyncio._buffer (reader c)). }
  cbn [time_time].
  rewrite (next_read_unchunked (self w) L HC HL Lpos).
  destruct (asyncio.read L (reader (set_updated _ c))) as [got r1] eqn:Hr.
  cbn [reader set_updated set_state] in Hr.
  destruct (read_clean _ _ _ _ _ Lpos Hcl Hr) as (raw & -> & Hcl1).
  pose proof (read_stream _ _ _ _ Hr) as Hst.
  assert (Hsz : reader_size r1 < reader_size (reader c)).
  { eapply read_size; [|exact He|exact Hr]. lia. }
  set (c1 := set_reader r1 (set_updated (ticks (clk w) (reads (clk w))) c)).
  assert (Hlook : forall (h : list Connection) (x : Connection),
             length h = length (heap w) -> <[a := x]> h !! a = Some x).
  { intros h x Hh. apply list_lookup_insert_eq. lia. }
  destruct (negb (length raw =? 0)) eqn:Hraw.
  - match goal with |- context [handleMessage ?m ?u] =>
      pose proof (handler_ok m u) as Hh;
      destruct (handleMessage m u) as [o u'] end.
    cbn [fst] in Hh. subst o.
    match goal with |- context [while_loop _ _ _ _ ?w1] =>
      destruct (IH k w1 c1 rest) as (w' & d & Hw & Ht & Hd) end;
      try done.
    { cbn. apply Hlook. by rewrite length_insert. }
    { subst c1. cbn. lia. }
    exists w'. eexists. split; [exact Hw|]. split.
    + rewrite Ht. cbn. rewrite <- !app_assoc. reflexivity.
    + cbn. rewrite <- app_assoc, Hd. exact Hst.
  - destruct raw; [|done].
    match goal with |- context [while_loop _ _ _ _ ?w1] =>
      destruct (IH k w1 c1 rest) as (w' & d & Hw & Ht & Hd) end;
      try done.
    { cbn. apply Hlook. by rewrite length_insert. }
    { subst c1. cbn. lia. }
    exists w'. eexists. split; [exact Hw|]. split.
    + rewrite Ht. cbn. rewrite <- !app_assoc. reflexivity.
    + cbn. rewrite Hd. exact Hst.
Qed.

End Clean.

Lemma run_unchunked_no_budget s L k d :
  truthy_int (chunksize s) = false -> limit s = Some L -> (0 < L)%Z ->
  run s k d (Ok BudgetSpent) -> False.
Proof.
  intros HC HL Lpos. remember (Ok BudgetSpent) as r eqn:Er.
  induction 1 as [k|k d x Hp|k d e Hp|k d Hp|k k' d d' r Hp Hr IH];
    try discriminate; [|by apply IH].
  injection Er as ->. inversion Hp; subst.
  - by rewrite (next_read_unchunked s L HC HL Lpos) in H.
  - by destruct e.
Qed.

(** Where the loop is left at the end of input, the reader is there. *)
Lemma while_loop_at_eof a fuel : forall k (w : World U) c w',
  heap w !! a = Some c ->
  while_loop handleMessage fuel a k w = (Ok AtEof, w') ->
  exists c', heap w' !! a = Some c' /\ asyncio.at_eof (reader c') = true.
Proof.
  induction fuel as [|fuel IH]; intros k w c w' Hc; simpl; [done|].
  destruct (loop_body handleMessage a k w) as [fl w1] eqn:Hb.
  destruct (loop_body_conn _ _ _ _ _ _ _ Hc Hb) as (_ & c1 & Hc1 & _).
  destruct fl as [k'|x|e|]; [by apply IH with c1| |done..].
  intros [= -> <-]. unfold loop_body in Hb. rewrite Hc in Hb.
  destruct (asyncio.at_eof (reader c)) eqn:He.
  { injection Hb as <-. by exists c. }
  destruct (time_time (clk w)) as [t clk1].
  destruct (next_read (self w) k) as [[n k']|]; [|done].
  destruct (asyncio.read n (reader (set_updated t c))) as [[raw|e|] r1];
    [| |done].
  - destruct (negb (length raw =? 0)); [|done].
    by destruct (handleMessage _ _) as [[[]|e|] u].
  - injection Hb as Hb _. by destruct e.
Qed.

(** C6 (amended): without a chunk size, a limit [L > 0] caps each
    read, not the run.  Whatever the reader and the handler do, every
    read asks for [L] bytes, every message carries at most [L], every
    pass made before the end of input reads again, and the loop is
    never left for the sake of the limit: where it is left at the end
    of input, the reader is at its end.  And when nothing goes wrong
    before the end of input and the handler returns, all of the input
    reaches the handler, in order, however small [L] is: what is
    buffered at end-of-input, and what is buffered and yet to arrive
    when the peer has not closed yet. *)
Theorem unchunked_limit_caps_each_read a (w : World U) L :
  truthy_int (chunksize (self w)) = false ->
  limit (self w) = Some L -> (0 < L)%Z ->
  (exists d lr wl,
      while_loop handleMessage (enough_fuel a w) a 0 w = (lr, wl)
      /\ trace wl = trace w ++ d
      /\ Forall (fun n => n = L) (read_sizes d)
      /\ Forall (fun m => (Z.of_nat (length (data m)) <= L)%Z) (messages d)
      /\ lr <> Ok BudgetSpent
      /\ (forall c, heap w !! a = Some c -> lr = Ok AtEof ->
            exists c', heap wl !! a = Some c'
                       /\ asyncio.at_eof (reader c') = true))
  /\ (forall k (w0 : World U) c,
         self w0 = self w -> heap w0 !! a = Some c ->
         asyncio.at_eof (reader c) = false ->
         exists d,
           trace (loop_body handleMessage a k w0).2
           = trace w0 ++ EvRead L :: d)
  /\ (forall c,
         heap w !! a = Some c ->
         (forall m u, (handleMessage m u).1 = Ok tt) ->
         asyncio._exception (reader c) = None ->
         (asyncio._eof (reader c) = true ->
          exists d,
            trace (_handleConnection handleMessage super_aexit a w).2
            = trace w ++ d ++ [EvClose]
            /\ Forall (fun n => n = L) (read_sizes d)
            /\ Forall (fun m => (Z.of_nat (length (data m)) <= L)%Z)
                 (messages d)
            /\ concat (map data (messages d)) = asyncio._buffer (reader c))
         /\ (forall ds rest,
               asyncio._eof (reader c) = false ->
               asyncio.feed (reader c)
               = (asyncio.Data <$> ds) ++ asyncio.Eof :: rest ->
               exists d,
                 trace (_handleConnection handleMessage super_aexit a w).2
                 = trace w ++ d ++ [EvClose]
                 /\ Forall (fun n => n = L) (read_sizes d)
                 /\ Forall (fun m => (Z.of_nat (length (data m)) <= L)%Z)
                      (messages d)
                 /\ concat (map data (messages d))
                    = asyncio._buffer (reader c) ++ concat ds)).
Proof.
  intros HC HL Lpos. split; [|split].
  - destruct (while_loop handleMessage (enough_fuel a w) a 0 w)
      as [lr wl] eqn:Hl.
    destruct (while_loop_run _ _ _ _ _ _ _ Hl) as (_ & d & Ht & Hr).
    destruct (run_unchunked (self w) L HC HL Lpos _ _ _ Hr) as [Hrs Hms].
    exists d, lr, wl. split_and!; try done.
    + intros ->. by eapply run_unchunked_no_budget.
    + intros c Hc ->. by eapply while_loop_at_eof.
  - intros k w0 c Hs Hc He. unfold loop_body. rewrite Hc, He.
    cbn [time_time]. rewrite Hs.
    rewrite (next_read_unchunked (self w) L HC HL Lpos).
    destruct (asyncio.read L _) as [[raw|e|] r1].
    + destruct (negb (length raw =? 0)).
      * destruct (handleMessage _ _) as [[[]|e|] u]; cbn;
          rewrite <- !app_assoc; by eexists.
      * cbn. by eexists.
    + cbn. by eexists.
    + cbn. by eexists.
  - intros c Hc Hh Hx.
    assert (Hall : forall rest,
      ends_cleanly rest (reader c) ->
      exists d,
        trace (_handleConnection handleMessage super_aexit a w).2
        = trace w ++ d ++ [EvClose]
        /\ Forall (fun n => n = L) (read_sizes d)
        /\ Forall (fun m => (Z.of_nat (length (data m)) <= L)%Z)
             (messages d)
        /\ concat (map data (messages d)) ++ feed_bytes rest
           = stream_bytes (reader c)).
    { intros rest Hcl.
      destruct (while_loop_clean L Lpos Hh a (enough_fuel a w) 0 w c rest)
        as (wl & d & Hw & Ht & Hd); try done.
      { unfold enough_fuel. rewrite Hc. lia. }
      destruct (while_loop_run _ _ _ _ _ _ _ Hw) as (_ & d' & Ht' & Hr).
      assert (d' = d) as ->
        by (rewrite Ht in Ht'; by apply app_inv_head in Ht').
      destruct (run_unchunked (self w) L HC HL Lpos _ _ _ Hr) as [Hrs Hms].
      exists d. split_and!; try done.
      unfold _handleConnection. rewrite Hw.
      by rewrite close_trace, Ht, app_assoc. }
    split.
    + intros He.
      destruct (Hall (asyncio.feed (reader c))) as (d & Ht & Hrs & Hms & Hd).
      { split; [done|]. by left. }
      exists d. split_and!; try done.
      unfold stream_bytes in Hd. by apply app_inv_tail in Hd.
    + intros ds rest He Hf.
      destruct (Hall rest) as (d & Ht & Hrs & Hms & Hd).
      { split; [done|]. right. split; [done|]. by exists ds. }
      exists d. split_and!; try done.
      unfold stream_bytes in Hd. rewrite Hf in Hd.
      assert (Hfb : feed_bytes ((asyncio.Data <$> ds) ++ asyncio.Eof :: rest)
                    = concat ds ++ feed_bytes rest).
      { clear. induction ds as [|x ds IH]; [done|].
        rewrite fmap_cons.
        change (x ++ feed_bytes ((asyncio.Data <$> ds) ++ asyncio.Eof :: rest)
                = (x ++ concat ds) ++ feed_bytes rest).
        by rewrite IH, app_assoc. }
      rewrite Hfb, app_assoc in Hd. by apply app_inv_tail in Hd.
Qed.

End Limits.

Section Lifecycle.

Context {U : Type}.
Variable super_aexit : U -> Res unit * U.


End Lifecycle.

(** * Further properties of the UXD server *)

Section Server.

Import UXDSocketServer.

(** X10: How [__aenter__] fails.  A failed [__aenter__] has stored no
    server.  Without a path it raises [freedmIPCSocketCreation] and has
    touched nothing; so it does when the file at the path cannot be
    removed; on a directory it ends in [UnboundLocalError].  When the
    system refuses the bind, it raises [freedmIPCSocketCreation] after
    the file that was at the path has been removed.  When starting the
    server fails, the exception of [asyncio.start_unix_server] gets out
    as it is, not as a [freedmIPCSocketCreation], and the socket file
    just bound stays behind; and [__aenter__] stays suspended only
    where starting the server does.  Each of the last two does happen:
    once the path is clear or can be cleared, a refused bind always
    ends in [freedmIPCSocketCreation] with the system's error inside,
    and a failure to start the server always gets out unwrapped. *)
Theorem aenter_failure_kinds (w : UXDSocketServer.World) :
  (match UXDSocketServer.__aenter__ w with
  | (Ok _, _) => True
  | (Raise e, w') =>
      UXDSocketServer._server (UXDSocketServer.self w')
      = UXDSocketServer._server (UXDSocketServer.self w)
      /\ ((truthy_str (UXDSocketServer.path (UXDSocketServer.self w)) = false
           /\ e = freedmIPCSocketCreation NoSocketFileProvided None
           /\ w' = w)
          \/ exists p,
               UXDSocketServer.path (UXDSocketServer.self w) = Some p
               /\ ((exists en,
                      UXDSocketServer.fs w !! p = Some en
                      /\ UXDSocketServer.isdir en = true
                      /\ e = UnboundLocalError "e"
                      /\ w' = w)
                   \/ (exists en,
                         UXDSocketServer.fs w !! p = Some en
                         /\ UXDSocketServer.isdir en = false
                         /\ UXDSocketServer.removable en = false
                         /\ e = freedmIPCSocketCreation
                                  (CannotDeleteSocketFile p)
                                  (Some (OSError "PermissionError"))
                         /\ w' = w)
                   \/ (exists cause,
                         UXDSocketServer.bind_fault w p = Some cause
                         /\ e = freedmIPCSocketCreation
                                  (CannotCreateSocketFile p) (Some cause)
                         /\ UXDSocketServer.fs w'
                            = delete p (UXDSocketServer.fs w))
                   \/ (UXDSocketServer.starting w = Raise e
                       /\ UXDSocketServer.bind_fault w p = None
                       /\ UXDSocketServer.fs w'
                          = <[p := {| kind := SocketFile;
                                      removable := true |}]>
                              (delete p (UXDSocketServer.fs w)))))
  | (Blocked, w') =>
      UXDSocketServer.starting w = Blocked
      /\ UXDSocketServer._server (UXDSocketServer.self w')
         = UXDSocketServer._server (UXDSocketServer.self w)
  end)
  /\ (forall p cause,
        UXDSocketServer.path (UXDSocketServer.self w) = Some p ->
        truthy_str (Some p) = true ->
        (forall en, UXDSocketServer.fs w !! p = Some en ->
                    UXDSocketServer.isdir en = false
                    /\ UXDSocketServer.removable en = true) ->
        UXDSocketServer.bind_fault w p = Some cause ->
        (UXDSocketServer.__aenter__ w).1
        = Raise (freedmIPCSocketCreation (CannotCreateSocketFile p)
                   (Some cause))
        /\ UXDSocketServer.fs (UXDSocketServer.__aenter__ w).2
           = delete p (UXDSocketServer.fs w))
  /\ (forall p e,
        UXDSocketServer.path (UXDSocketServer.self w) = Some p ->
        truthy_str (Some p) = true ->
        (forall en, UXDSocketServer.fs w !! p = Some en ->
                    UXDSocketServer.isdir en = false
                    /\ UXDSocketServer.removable en = true) ->
        UXDSocketServer.bind_fault w p = None ->
        UXDSocketServer.starting w = Raise e ->
        (UXDSocketServer.__aenter__ w).1 = Raise e
        /\ UXDSocketServer.fs (UXDSocketServer.__aenter__ w).2
           = <[p := {| kind := SocketFile; removable := true |}]>
               (delete p (UXDSocketServer.fs w))).
Proof.
  split; [|split].
  2:{ intros p cause Hp Ht Hen Hb. unfold UXDSocketServer.__aenter__.
      rewrite Hp, Ht. cbn [negb default from_option id].
      unfold clear_path, os_remove.
      destruct (fs w !! p) as [en|] eqn:Hf.
      - destruct (Hen en eq_refl) as [-> ->].
        unfold bind_unix. cbn [fs set_fs bind_fault].
        rewrite lookup_delete_eq, Hb. by cbn.
      - unfold bind_unix. rewrite Hf, Hb. cbn. by rewrite delete_id. }
  2:{ intros p e Hp Ht Hen Hb Hs. unfold UXDSocketServer.__aenter__.
      rewrite Hp, Ht. cbn [negb default from_option id].
      unfold clear_path, os_remove.
      destruct (fs w !! p) as [en|] eqn:Hf.
      - destruct (Hen en eq_refl) as [-> ->].
        unfold bind_unix, start_unix_server. cbn [fs set_fs bind_fault].
        rewrite lookup_delete_eq, Hb. cbn. rewrite Hs. by cbn.
      - unfold bind_unix, start_unix_server. rewrite Hf, Hb. cbn.
        rewrite Hs. cbn. by rewrite delete_id. }
  unfold UXDSocketServer.__aenter__.
  destruct (truthy_str (path (self w))) eqn:Ht; cbn [negb]; [|by auto].
  destruct (path (self w)) as [p|] eqn:Hp; [|discriminate].
  cbn [default from_option id].
  assert (Hafter : forall w1,
    fs w1 = delete p (fs w) -> self w1 = self w ->
    bind_fault w1 = bind_fault w -> starting w1 = starting w ->
    match
      match bind_unix p w1 with
      | (Ok _, w2) =>
          match start_unix_server p
                  (if truthy_int (limit (self w2))
                   then limit (self w2) else None) w2 with
          | (Ok server, w3) => (Ok tt, set_server server w3)
          | (Raise e, w3) => (Raise e, w3)
          | (Blocked, w3) => (Blocked, w3)
          end
      | (Raise e, w2) =>
          (Raise (freedmIPCSocketCreation (CannotCreateSocketFile p)
                    (Some e)), w2)
      | (Blocked, w2) => (Blocked, w2)
      end
    with
    | (Ok _, _) => True
    | (Raise e, w') =>
        _server (self w') = _server (self w)
        /\ ((exists cause,
               bind_fault w p = Some cause
               /\ e = freedmIPCSocketCreation (CannotCreateSocketFile p)
                        (Some cause)
               /\ fs w' = delete p (fs w))
            \/ (starting w = Raise e /\ bind_fault w p = None
                /\ fs w' = <[p := {| kind := SocketFile; removable := true |}]>
                             (delete p (fs w))))
    | (Blocked, w') =>
        starting w = Blocked /\ _server (self w') = _server (self w)
    end).
  { intros w1 Hfs Hs Hb Hst. unfold bind_unix, start_unix_server.
    rewrite Hfs, lookup_delete_eq, Hb.
    destruct (bind_fault w p) as [cause|] eqn:Hbf.
    - rewrite Hs. split; [done|]. left. by exists cause.
    - cbn. rewrite Hst. destruct (starting w) as [[]|e|] eqn:Hsw; cbn.
      + done.
      + rewrite Hs. split; [done|]. by right.
      + by rewrite Hs. }
  unfold clear_path, os_remove, os_rmdir_noarg, load_local.
  destruct (fs w !! p) as [en|] eqn:Hf.
  - destruct (isdir en) eqn:Hd.
    + split; [done|]. right. exists p. split; [done|]. left. by exists en.
    + destruct (removable en) eqn:Hr.
      * specialize (Hafter (set_fs (delete p (fs w)) w) eq_refl eq_refl
                      eq_refl eq_refl).
        destruct (bind_unix p (set_fs (delete p (fs w)) w)) as [[[]|e|] w2];
          try destruct (start_unix_server _ _ w2) as [[sv|e|] w3];
          try done.
        -- destruct Hafter as [Hsv Hk]. split; [done|]. right. exists p.
           split; [done|]. right. right. exact Hk.
        -- destruct Hafter as [Hsv Hk]. split; [done|]. right. exists p.
           split; [done|]. right. right. exact Hk.
      * split; [done|]. right. exists p. split; [done|]. right. left.
        by exists en.
  - assert (Hdel : fs w = delete p (fs w)) by (by rewrite delete_id).
    specialize (Hafter w Hdel eq_refl eq_refl eq_refl).
    destruct (bind_unix p w) as [[[]|e|] w2];
      try destruct (start_unix_server _ _ w2) as [[sv|e|] w3];
      try done.
    + destruct Hafter as [Hsv Hk]. split; [done|]. right. exists p.
      split; [done|]. right. right. exact Hk.
    + destruct Hafter as [Hsv Hk]. split; [done|]. right. exists p.
      split; [done|]. right. right. exact Hk.
Qed.

(** X11: When [__aenter__] returns, a socket file sits at the configured
    path in place of whatever was there, every other path is as it
    was, and the server listens on the path with the configured limit
    as its stream limit (none when no limit, or a limit of 0, is
    configured). *)
Theorem aenter_success_binds_socket (w w' : UXDSocketServer.World) :
  UXDSocketServer.__aenter__ w = (Ok tt, w') ->
  exists p,
    UXDSocketServer.path (UXDSocketServer.self w) = Some p
    /\ p <> EmptyString
    /\ UXDSocketServer.kind <$> UXDSocketServer.fs w' !! p
       = Some UXDSocketServer.SocketFile
    /\ (forall q, q <> p ->
          UXDSocketServer.fs w' !! q = UXDSocketServer.fs w !! q)
    /\ UXDSocketServer._server (UXDSocketServer.self w')
       = Some {| listens_on := p;
                 stream_limit :=
                   if truthy_int (UXDSocketServer.limit (UXDSocketServer.self w))
                   then UXDSocketServer.limit (UXDSocketServer.self w)
                   else None |}
    /\ UXDSocketServer.path (UXDSocketServer.self w') = Some p.
Proof.
  unfold UXDSocketServer.__aenter__.
  destruct (truthy_str (path (self w))) eqn:Ht; cbn [negb]; [|discriminate].
  destruct (path (self w)) as [p|] eqn:Hp; [|discriminate]. cbn [default from_option id].
  assert (p <> EmptyString) as Hne by (intros ->; discriminate).
  unfold clear_path, os_remove, bind_unix, start_unix_server,
    os_rmdir_noarg, load_local.
  destruct (fs w !! p) as [en|] eqn:Hf; rewrite ?Hf.
  - destruct (isdir en) eqn:Hd; rewrite ?Hf, ?Hd; [discriminate|].
    destruct (removable en); cbn; [|discriminate].
    rewrite lookup_delete_eq.
    destruct (bind_fault w p); [discriminate|]. cbn.
    destruct (starting w) as [[]| |]; [|discriminate..].
    intros [= <-]. cbn.
    exists p. rewrite Hp. split_and!; try done.
    + by rewrite lookup_insert_eq.
    + intros q Hq. by rewrite lookup_insert_ne, lookup_delete_ne.
  - rewrite ?Hf.
    destruct (bind_fault w p); [discriminate|]. cbn.
    destruct (starting w) as [[]| |]; [|discriminate..].
    intros [= <-]. cbn.
    exists p. rewrite Hp. split_and!; try done.
    + by rewrite lookup_insert_eq.
    + intros q Hq. by rewrite lookup_insert_ne.
Qed.

(** X12: Entering and leaving: after a successful [__aenter__], an
    [__aexit__] whose parent part succeeds removes the socket file
    again, whether or not closing the listener failed, and leaves the
    rest of the file system as it was before entering; a second
    [__aexit__] then raises [freedmIPCSocketShutdown], the path being
    gone. *)
Theorem aexit_after_aenter_removes_socket
    (w w1 : UXDSocketServer.World) closing waiting :
  UXDSocketServer.__aenter__ w = (Ok tt, w1) ->
  waiting <> Blocked ->
  exists p w2,
    UXDSocketServer.path (UXDSocketServer.self w) = Some p
    /\ UXDSocketServer.__aexit__ (Ok tt) closing waiting w1 = (Ok tt, w2)
    /\ UXDSocketServer.fs w2 = delete p (UXDSocketServer.fs w)
    /\ UXDSocketServer.__aexit__ (Ok tt) closing waiting w2
       = (Raise (freedmIPCSocketShutdown (OSError "FileNotFoundError")), w2).
Proof.
  intros Hen Hw. unfold UXDSocketServer.__aenter__ in Hen.
  destruct (truthy_str (path (self w))) eqn:Ht; cbn [negb] in Hen; [|discriminate].
  destruct (path (self w)) as [p|] eqn:Hp; [|discriminate]. cbn [default from_option id] in Hen.
  unfold clear_path, os_remove, bind_unix, start_unix_server,
    os_rmdir_noarg, load_local in Hen.
  assert (Hfs : fs w1 = <[p := {| kind := SocketFile; removable := true |}]>
                          (delete p (fs w))
                /\ path (self w1) = Some p).
  { destruct (fs w !! p) as [en|] eqn:Hf; rewrite ?Hf in Hen.
    - destruct (isdir en) eqn:Hd; rewrite ?Hf, ?Hd in Hen; [discriminate|].
      destruct (removable en); cbn in Hen; [|discriminate].
      rewrite lookup_delete_eq in Hen.
      destruct (bind_fault w p); [discriminate|]. cbn in Hen.
      destruct (starting w) as [[]| |]; [|discriminate..].
      injection Hen as <-. by cbn.
    - rewrite ?Hf in Hen.
      destruct (bind_fault w p); [discriminate|]. cbn in Hen.
      destruct (starting w) as [[]| |]; [|discriminate..].
      injection Hen as <-. cbn.
      by rewrite delete_id. }
  destruct Hfs as [Hfs Hp1].
  exists p. eexists. split; [done|].
  unfold UXDSocketServer.__aexit__, os_remove_path, os_remove.
  rewrite Hp1, Hfs, lookup_insert_eq. cbn.
  destruct waiting as [[]|e|]; [| |done].
  - split; [reflexivity|]. cbn. rewrite delete_insert_eq, delete_delete_eq.
    split; [done|]. rewrite Hp1. cbn. by rewrite lookup_delete_eq.
  - split; [reflexivity|]. cbn. rewrite delete_insert_eq, delete_delete_eq.
    split; [done|]. rewrite Hp1. cbn. by rewrite lookup_delete_eq.
Qed.

(** X13: What [_assembleConnection] of the UXD server comes to: it returns a
    connection only on a socket that offers at least the twelve bytes of
    a credential record, reading the clock twice; without a socket it
    raises [AttributeError], without the socket option [OSError], on a
    short record [struct.error], and then the clock has not been read;
    it never stays suspended. *)
Theorem uxd_assembleConnection_outcome rd wr (w : UXDSocketServer.World) :
  match UXDSocketServer._assembleConnection rd wr w with
  | (Ok c, w') =>
      (exists sock rec,
          asyncio.extra_socket wr = Some sock
          /\ asyncio.peercred sock = Some rec
          /\ 12 <= length rec
          /\ socket c = Some sock)
      /\ reads (UXDSocketServer.clk w') = S (S (reads (UXDSocketServer.clk w)))
      /\ UXDSocketServer.fs w' = UXDSocketServer.fs w
  | (Raise e, w') =>
      w' = w
      /\ ((asyncio.extra_socket wr = None /\ e = AttributeError)
          \/ (exists sock, asyncio.extra_socket wr = Some sock
                /\ asyncio.peercred sock = None /\ e = OSError "getsockopt")
          \/ (exists sock rec, asyncio.extra_socket wr = Some sock
                /\ asyncio.peercred sock = Some rec
                /\ length rec < 12 /\ e = StructError))
  | (Blocked, _) => False
  end.
Proof.
  unfold UXDSocketServer._assembleConnection, asyncio.getsockopt_peercred,
    unpack_3i, calcsize_3i.
  destruct (asyncio.extra_socket wr) as [sock|]; [|by eauto].
  destruct (asyncio.peercred sock) as [rec|] eqn:Hp; [|by eauto 7].
  destruct (Nat.eqb_spec (length (take 12 rec)) 12) as [Hl|Hl];
    rewrite length_take in Hl; cbn.
  - split_and!; try done. exists sock, rec. split_and!; try done. lia.
  - split; [done|]. right. right. exists sock, rec. split_and!; try done. lia.
Qed.

Lemma byte_val_inj b1 b2 : byte_val b1 = byte_val b2 -> b1 = b2.
Proof.
  unfold byte_val. intros H. apply N2Z.inj in H.
  pose proof (Byte.of_to_N b1) as H1. pose proof (Byte.of_to_N b2) as H2.
  rewrite H in H1. congruence.
Qed.

Lemma uint_le_inj bs1 bs2 :
  length bs1 = length bs2 -> uint_le bs1 = uint_le bs2 -> bs1 = bs2.
Proof.
  revert bs2. induction bs1 as [|b1 bs1 IH]; intros [|b2 bs2] Hl H;
    try done. simpl in *.
  pose proof (byte_val_range b1). pose proof (byte_val_range b2).
  assert (byte_val b1 = byte_val b2 /\ uint_le bs1 = uint_le bs2) as [Hb Hr]
    by lia.
  f_equal; [by apply byte_val_inj|]. apply IH; [lia|done].
Qed.

Lemma to_signed32_inj u v :
  (0 <= u < 2 ^ 32)%Z -> (0 <= v < 2 ^ 32)%Z ->
  to_signed32 u = to_signed32 v -> u = v.
Proof.
  unfold to_signed32. intros Hu Hv.
  destruct (Z.ltb_spec u (2 ^ 31)), (Z.ltb_spec v (2 ^ 31)); lia.
Qed.

Lemma unpack_i_inj bo bs1 bs2 :
  length bs1 = 4 -> length bs2 = 4 ->
  unpack_i bo bs1 = unpack_i bo bs2 -> bs1 = bs2.
Proof.
  intros H1 H2 H. unfold unpack_i in H.
  apply to_signed32_inj in H.
  - destruct bo.
    + apply uint_le_inj; [lia|done].
    + apply uint_le_inj in H; [|by rewrite !List.length_rev; lia].
      apply (f_equal (@rev byte)) in H. by rewrite !List.rev_involutive in H.
  - pose proof (uint_le_range (match bo with LittleEndian => bs1
                                        | BigEndian => rev bs1 end)) as Hr.
    destruct bo; rewrite ?List.length_rev, H1 in Hr; exact Hr.
  - pose proof (uint_le_range (match bo with LittleEndian => bs2
                                        | BigEndian => rev bs2 end)) as Hr.
    destruct bo; rewrite ?List.length_rev, H2 in Hr; exact Hr.
Qed.

(** Decoding loses nothing: two credential records of twelve bytes that
    decode to the same three integers are the same record. *)
Theorem unpack_3i_injective bo rec1 rec2 :
  length rec1 = 12 -> length rec2 = 12 ->
  unpack_3i bo rec1 = unpack_3i bo rec2 -> rec1 = rec2.
Proof.
  intros H1 H2. unfold unpack_3i, calcsize_3i. rewrite H1, H2. cbn.
  intros [= Ha Hb Hc].
  apply unpack_i_inj in Ha, Hb, Hc;
    rewrite ?length_take, ?length_drop; try lia.
  rewrite <- (take_drop 4 rec1), <- (take_drop 4 rec2), Ha. f_equal.
  rewrite <- (take_drop 4 (drop 4 rec1)), <- (take_drop 4 (drop 4 rec2)), Hb.
  f_equal. rewrite !drop_drop. cbn.
  rewrite <- (take_ge (drop 8 rec1) 4), <- (take_ge (drop 8 rec2) 4), Hc;
    rewrite ?length_drop; try lia. done.
Qed.

End Server.

(** ** Concrete runs *)

Section Runs.
Import Scenarios.

(** C1, as stated, fails: the handler raises on the only message; the
    wrapped exception leaves [_handleConnection], [close()] is never
    called and the client still counts as connected. *)
Lemma handler_fault_skips_close :
  (_handleConnection failing_handler parent_aexit 0%nat one_message).1
  = Raise (freedmIPCMessageHandler (OSError "handler"))
  /\ closes (trace (_handleConnection failing_handler parent_aexit 0%nat
                      one_message).2) = 0
  /\ connected (_handleConnection failing_handler parent_aexit 0%nat
                  one_message).2 = true.
Proof. vm_compute. done. Qed.

Lemma handleConnection_closes_once_witness :
  is_Some (heap one_message !! 0%nat)
  /\ closes (trace (_handleConnection quiet_handler parent_aexit 0%nat
                      one_message).2)
     = S (closes (trace one_message)).
Proof.
  destruct (heap one_message !! 0%nat) as [c|] eqn:Hc;
    [|vm_compute in Hc; discriminate Hc].
  split; [by exists c|].
  destruct (handleConnection_closes_once quiet_handler parent_aexit
              0%nat one_message c _ _ Hc (surjective_pairing _))
    as (lr & wl & ms & Hl & Hms & _ & Hk).
  vm_compute in Hl. injection Hl as <- <-.
  vm_compute in Hms. subst ms.
  exact (proj2 (proj2 Hk)).
Defined.

(** C2, as stated, fails: on a transport that is already closing
    [closeConnection] returns without stamping [closed]. *)
Lemma closing_transport_is_not_stamped :
  (closeConnection 0 closing_transport).1 = Ok tt
  /\ (st_closed ∘ state) <$> heap (closeConnection 0 closing_transport).2 !! 0
     = Some None.
Proof. vm_compute. done. Qed.

Lemma closeConnection_stamps_closed_witness :
  exists c,
    heap flaky_transport !! 0 = Some c
    /\ asyncio.is_closing (writer c) = false
    /\ (handshake c (tasks flaky_transport)).1.1
       = Some (OSError "write_eof")
    /\ (closeConnection 0 flaky_transport).1 = Ok tt
    /\ exists c', heap (closeConnection 0 flaky_transport).2 !! 0 = Some c'
         /\ st_closed (state c') = Some 1002%Z.
Proof.
  eexists. split; [vm_compute; reflexivity|].
  split; [reflexivity|]. split; [reflexivity|].
  exact (proj1 (closeConnection_stamps_closed 0 flaky_transport _ eq_refl)
           eq_refl).
Defined.

Lemma aexit_idempotent_witness :
  __aexit__ parent_aexit (__aexit__ parent_aexit one_message).2
  = (Ok tt, (__aexit__ parent_aexit one_message).2)
  /\ __aexit__ parent_aexit (idle None None) = (Ok tt, idle None None).
Proof.
  split.
  - exact (proj1 (aexit_idempotent parent_aexit one_message)).
  - exact (proj2 (proj2 (aexit_idempotent parent_aexit (idle None None)))
             eq_refl).
Defined.

Lemma chunked_read_respects_limit_witness :
  (payload (trace (_handleConnection quiet_handler parent_aexit 0%nat
                     (ten_bytes (Some 10%Z) (Some 4%Z))).2)
   <= payload (trace (ten_bytes (Some 10%Z) (Some 4%Z))) + 10 / 4 * 4)%Z
  /\ (Z.of_nat (length (read_sizes
                          (trace (_handleConnection quiet_handler
                                    parent_aexit 0%nat
                                    (ten_bytes (Some 10%Z) (Some 4%Z))).2)))
      <= Z.of_nat (length (read_sizes
                             (trace (ten_bytes (Some 10%Z) (Some 4%Z)))))
         + 10 / 4)%Z.
Proof.
  destruct (chunked_read_respects_limit quiet_handler parent_aexit)
    as [general _].
  refine (general 0%nat (ten_bytes (Some 10%Z) (Some 4%Z)) 4%Z 10%Z
            (_handleConnection quiet_handler parent_aexit 0%nat
               (ten_bytes (Some 10%Z) (Some 4%Z))).1
            (_handleConnection quiet_handler parent_aexit 0%nat
               (ten_bytes (Some 10%Z) (Some 4%Z))).2
            eq_refl eq_refl _ _ (surjective_pairing _)).
  - reflexivity.
  - discriminate.
Defined.

(** C5, as stated, fails at its boundary: a limit of 0 is falsy, the
    read is [read(-1)], and everything up to end-of-input comes as one
    message. *)
Lemma limit_zero_delivers_everything :
  map data (messages (trace (_handleConnection quiet_handler parent_aexit 0%nat
                               (ten_bytes (Some 0%Z) None)).2))
  = [ascii "0123456789"]
  /\ read_sizes (trace (_handleConnection quiet_handler parent_aexit 0%nat
                          (ten_bytes (Some 0%Z) None)).2) = [(-1)%Z].
Proof. vm_compute. done. Qed.

Lemma unchunked_message_within_limit_witness :
  (exists ms,
      messages (trace (_handleConnection quiet_handler parent_aexit 0%nat
                         (ten_bytes (Some 4%Z) None)).2)
      = messages (trace (ten_bytes (Some 4%Z) None)) ++ ms
      /\ Forall (fun m => (Z.of_nat (length (data m)) <= 4)%Z) ms)
  /\ trace (_handleConnection quiet_handler parent_aexit 0%nat
             (ten_bytes (Some 0%Z) None)).2
     = trace (ten_bytes (Some 0%Z) None)
       ++ [EvRead (-1);
           EvMessage {| data := ascii "0123456789"; sender := 0%nat |};
           EvClose].
Proof.
  split.
  - destruct (unchunked_message_within_limit quiet_handler parent_aexit
                0%nat (ten_bytes (Some 4%Z) None) _ _
                eq_refl (surjective_pairing _)) as [capped _].
    refine (capped 4%Z eq_refl _). reflexivity.
  - assert (Hc : heap (ten_bytes (Some 0%Z) None) !! 0%nat
                 = Some (assembled
                           (reader_expecting
                              [asyncio.Data (ascii "0123456789"); asyncio.Eof])
                           (writer_failing [])))
      by (vm_compute; reflexivity).
    destruct (unchunked_message_within_limit quiet_handler parent_aexit
                0%nat (ten_bytes (Some 0%Z) None) _ _
                eq_refl (surjective_pairing _)) as [_ unlimited].
    destruct (unlimited eq_refl) as [_ whole].
    exact (whole _ [ascii "0123456789"] [] Hc eq_refl eq_refl eq_refl
             (fun _ _ => eq_refl)).
Defined.

(** C6, as stated, fails: with a limit of 4 and no chunk size, ten
    bytes are read and handed over, in three messages. *)
Lemma limit_does_not_cap_the_run :
  payload (trace (_handleConnection quiet_handler parent_aexit 0%nat
                    (ten_bytes (Some 4%Z) None)).2) = 10%Z
  /\ map data (messages (trace (_handleConnection quiet_handler
                                  parent_aexit 0%nat
                                  (ten_bytes (Some 4%Z) None)).2))
     = [ascii "0123"; ascii "4567"; ascii "89"]
  /\ (4 < 10)%Z.
Proof. vm_compute. done. Qed.

Lemma unchunked_limit_caps_each_read_witness :
  (exists d,
      trace (_handleConnection quiet_handler parent_aexit 0%nat
               (ten_bytes (Some 4%Z) None)).2
      = trace (ten_bytes (Some 4%Z) None) ++ d ++ [EvClose]
      /\ Forall (fun n => n = 4%Z) (read_sizes d)
      /\ Forall (fun m => (Z.of_nat (length (data m)) <= 4)%Z) (messages d)
      /\ concat (map data (messages d)) = ascii "0123456789")
  /\ (exists d,
        trace (_handleConnection quiet_handler parent_aexit 0%nat
                 (ten_buffered (Some 4%Z))).2
        = trace (ten_buffered (Some 4%Z)) ++ d ++ [EvClose]
        /\ Forall (fun n => n = 4%Z) (read_sizes d)
        /\ Forall (fun m => (Z.of_nat (length (data m)) <= 4)%Z) (messages d)
        /\ concat (map data (messages d)) = ascii "0123456789").
Proof.
  split.
  - assert (Hc : heap (ten_bytes (Some 4%Z) None) !! 0%nat
                 = Some (assembled
                           (reader_expecting
                              [asyncio.Data (ascii "0123456789"); asyncio.Eof])
                           (writer_failing [])))
      by (vm_compute; reflexivity).
    assert (Lpos : (0 < 4)%Z) by reflexivity.
    destruct (unchunked_limit_caps_each_read quiet_handler parent_aexit
                0%nat (ten_bytes (Some 4%Z) None) 4%Z eq_refl eq_refl Lpos)
      as (_ & _ & clean).
    destruct (clean _ Hc (fun _ _ => eq_refl) eq_refl) as [_ streamed].
    exact (streamed [ascii "0123456789"] [] eq_refl eq_refl).
  - assert (Lpos : (0 < 4)%Z) by reflexivity.
    destruct (unchunked_limit_caps_each_read quiet_handler parent_aexit
                0%nat (ten_buffered (Some 4%Z)) 4%Z eq_refl eq_refl Lpos)
      as (_ & _ & clean).
    destruct (clean _ eq_refl (fun _ _ => eq_refl) eq_refl) as [buffered _].
    exact (buffered eq_refl).
Defined.

Lemma chunked_budget_counts_reads_witness :
  exists rs,
    read_sizes (trace (_handleConnection quiet_handler parent_aexit 0%nat
                         (ten_bytes (Some 10%Z) (Some 4%Z))).2)
    = read_sizes (trace (ten_bytes (Some 10%Z) (Some 4%Z))) ++ rs
    /\ rs = replicate (length rs) 4%Z
    /\ (Z.of_nat (length rs) <= 10 / 4)%Z
    /\ (payload (trace (_handleConnection quiet_handler parent_aexit 0%nat
                          (ten_bytes (Some 10%Z) (Some 4%Z))).2)
        <= payload (trace (ten_bytes (Some 10%Z) (Some 4%Z)))
           + Z.of_nat (length rs) * 4)%Z
    /\ ((while_loop quiet_handler
           (enough_fuel 0 (ten_bytes (Some 10%Z) (Some 4%Z))) 0 0
           (ten_bytes (Some 10%Z) (Some 4%Z))).1 = Ok BudgetSpent ->
        Z.of_nat (length rs) = (10 / 4)%Z).
Proof.
  destruct (chunked_budget_counts_reads quiet_handler parent_aexit)
    as [general _].
  refine (general 0%nat (ten_bytes (Some 10%Z) (Some 4%Z)) 4%Z 10%Z
            (_handleConnection quiet_handler parent_aexit 0%nat
               (ten_bytes (Some 10%Z) (Some 4%Z))).1
            (_handleConnection quiet_handler parent_aexit 0%nat
               (ten_bytes (Some 10%Z) (Some 4%Z))).2
            eq_refl eq_refl _ _ (surjective_pairing _)).
  - reflexivity.
  - reflexivity.
Defined.


Lemma assembled_state_is_initial_witness :
  match UXDSocketServer._assembleConnection (reader_expecting []) unix_writer
          (server "/run/freedm.sock" []) with
  | (Ok c, _) =>
      state c = {| st_mode := PERSISTENT; st_created := 1000%Z;
                   st_updated := 1001%Z; st_closed := None |}
  | _ => False
  end.
Proof.
  destruct assembled_state_is_initial as (_ & uxd & _).
  destruct (UXDSocketServer._assembleConnection (reader_expecting [])
              unix_writer (server "/run/freedm.sock" []))
    as [[c| |] sw'] eqn:H.
  - exact (uxd _ _ _ _ _ H).
  - vm_compute in H. discriminate H.
  - vm_compute in H. discriminate H.
Defined.
End Runs.

(** ** Further concrete runs *)

Section MoreRuns.
Import Scenarios.

(** The system refuses the bind (the directory of the socket is not
    there): the stale file is gone, no socket is bound, and the error
    is wrapped into [freedmIPCSocketCreation]. *)
Lemma aenter_bind_refused :
  (UXDSocketServer.__aenter__
     (refusing_bind (OSError "FileNotFoundError")
        (server "/run/freedm.sock" [("/run/freedm.sock", a_stale_file)]))).1
  = Raise (freedmIPCSocketCreation (CannotCreateSocketFile "/run/freedm.sock")
             (Some (OSError "FileNotFoundError")))
  /\ UXDSocketServer.fs
       (UXDSocketServer.__aenter__
          (refusing_bind (OSError "FileNotFoundError")
             (server "/run/freedm.sock"
                [("/run/freedm.sock", a_stale_file)]))).2
     !! "/run/freedm.sock" = None.
Proof. vm_compute. done. Qed.

(** Starting the server fails: the error gets out as it is, the socket
    file stays bound and no server is stored. *)
Lemma aenter_start_fails :
  (UXDSocketServer.__aenter__
     (starting_as (Raise (OSError "listen"))
        (server "/run/freedm.sock" []))).1
  = Raise (OSError "listen")
  /\ UXDSocketServer.kind
       <$> UXDSocketServer.fs
             (UXDSocketServer.__aenter__
                (starting_as (Raise (OSError "listen"))
                   (server "/run/freedm.sock" []))).2
           !! "/run/freedm.sock"
     = Some UXDSocketServer.SocketFile
  /\ UXDSocketServer._server
       (UXDSocketServer.self
          (UXDSocketServer.__aenter__
             (starting_as (Raise (OSError "listen"))
                (server "/run/freedm.sock" []))).2) = None.
Proof. vm_compute. done. Qed.


Lemma closeConnection_closes_transport_witness :
  heap flaky_transport !! 0%nat
  = Some (assembled (reader_expecting [])
            (writer_failing [asyncio.StepWriteEof; asyncio.StepSleep]))
  /\ exists c', heap (closeConnection 0%nat flaky_transport).2 !! 0%nat = Some c'
       /\ asyncio.is_closing (writer c') = false
       /\ asyncio.eof_written (writer c') = false.
Proof.
  assert (Hc : heap flaky_transport !! 0%nat
               = Some (assembled (reader_expecting [])
                         (writer_failing [asyncio.StepWriteEof; asyncio.StepSleep])))
    by (vm_compute; reflexivity).
  split; [exact Hc|].
  destruct (closeConnection_closes_transport flaky_transport 0%nat _ Hc eq_refl)
    as (c' & Hc' & Hcl & _ & Hopen).
  exists c'. split; [exact Hc'|]. split; [exact Hcl|].
  exact (proj2 (Hopen eq_refl)).
Defined.

Lemma delivered_is_prefix_of_stream_witness :
  heap (ten_bytes (Some 4%Z) None) !! 0%nat
  = Some (assembled
            (reader_expecting [asyncio.Data (ascii "0123456789"); asyncio.Eof])
            (writer_failing []))
  /\ exists ms,
       messages (trace (_handleConnection quiet_handler parent_aexit 0%nat
                          (ten_bytes (Some 4%Z) None)).2)
       = messages (trace (ten_bytes (Some 4%Z) None)) ++ ms
       /\ concat (data <$> ms) `prefix_of` ascii "0123456789"
       /\ Forall (fun m => sender m = 0%nat /\ data m <> []) ms.
Proof.
  assert (Hc : heap (ten_bytes (Some 4%Z) None) !! 0%nat
               = Some (assembled
                         (reader_expecting
                            [asyncio.Data (ascii "0123456789"); asyncio.Eof])
                         (writer_failing [])))
    by (vm_compute; reflexivity).
  split; [exact Hc|].
  exact (delivered_is_prefix_of_stream quiet_handler parent_aexit 0%nat
           (ten_bytes (Some 4%Z) None) _ Hc).
Defined.

Lemma handleConnection_does_not_hang_witness :
  will_end (reader_expecting [asyncio.Data (ascii "x"); asyncio.Eof]) = true
  /\ (_handleConnection quiet_handler parent_aexit 0%nat one_message).1
     <> Blocked.
Proof.
  split; [reflexivity|].
  assert (Hc : heap one_message !! 0%nat
               = Some (assembled
                         (reader_expecting [asyncio.Data (ascii "x"); asyncio.Eof])
                         (writer_failing [])))
    by (vm_compute; reflexivity).
  refine (handleConnection_does_not_hang quiet_handler parent_aexit 0%nat
            one_message _ Hc eq_refl _ _).
  - intros m u. discriminate.
  - intros u. discriminate.
Defined.

Lemma handleConnection_keeps_identity_witness :
  heap second_connection !! 0%nat
  = Some (assembled (reader_expecting [asyncio.Data (ascii "x"); asyncio.Eof])
            (writer_failing []))
  /\ length (heap (_handleConnection quiet_handler parent_aexit 1%nat
                     second_connection).2)
     = length (heap second_connection)
  /\ heap (_handleConnection quiet_handler parent_aexit 1%nat
             second_connection).2 !! 0%nat
     = Some (assembled (reader_expecting [asyncio.Data (ascii "x"); asyncio.Eof])
               (writer_failing [])).
Proof.
  assert (Hc : heap second_connection !! 0%nat
               = Some (assembled
                         (reader_expecting [asyncio.Data (ascii "x"); asyncio.Eof])
                         (writer_failing [])))
    by (vm_compute; reflexivity).
  split; [exact Hc|].
  destruct (handleConnection_keeps_identity quiet_handler parent_aexit 1%nat
              second_connection 0%nat _ Hc) as (Hlen & cb' & Hcb' & _ & Heq).
  split; [exact Hlen|].
  refine (eq_trans Hcb' (f_equal Some (Heq _ _))); discriminate.
Defined.

Lemma unlimited_read_is_one_message_witness :
  trace (_handleConnection quiet_handler parent_aexit 0%nat
           (ten_bytes None None)).2
  = trace (ten_bytes None None)
    ++ [EvRead (-1); EvMessage {| data := ascii "0123456789"; sender := 0%nat |};
        EvClose].
Proof.
  assert (Hc : heap (ten_bytes None None) !! 0%nat
               = Some (assembled
                         (reader_expecting
                            [asyncio.Data (ascii "0123456789"); asyncio.Eof])
                         (writer_failing [])))
    by (vm_compute; reflexivity).
  exact (unlimited_read_is_one_message quiet_handler parent_aexit 0%nat
           (ten_bytes None None) _ [ascii "0123456789"] []
           eq_refl eq_refl (fun m u => eq_refl) Hc eq_refl eq_refl eq_refl).
Defined.


Lemma aenter_success_binds_socket_witness :
  exists w',
    UXDSocketServer.__aenter__
      (server "/run/freedm.sock" [("/run/freedm.sock", a_stale_file)])
    = (Ok tt, w')
    /\ UXDSocketServer.kind <$> UXDSocketServer.fs w' !! "/run/freedm.sock"
       = Some UXDSocketServer.SocketFile.
Proof.
  eexists. split; [vm_compute; reflexivity|].
  match goal with |- context [UXDSocketServer.fs ?x] => set (w' := x) end.
  assert (Hen : UXDSocketServer.__aenter__
                  (server "/run/freedm.sock"
                     [("/run/freedm.sock", a_stale_file)]) = (Ok tt, w'))
    by (vm_compute; reflexivity).
  destruct (aenter_success_binds_socket _ _ Hen) as (p & Hp & _ & Hk & _).
  injection Hp as <-. exact Hk.
Defined.

Lemma aexit_after_aenter_removes_socket_witness :
  exists w1 w2,
    UXDSocketServer.__aenter__
      (server "/run/freedm.sock" [("/run/freedm.sock", a_stale_file)])
    = (Ok tt, w1)
    /\ UXDSocketServer.__aexit__ (Ok tt) (Some (OSError "close")) (Ok tt) w1
       = (Ok tt, w2)
    /\ UXDSocketServer.fs w2 !! "/run/freedm.sock" = None.
Proof.
  eexists. 
  match goal with |- exists w2, ?l = (_, ?x) /\ _ =>
    assert (Hen : l = (Ok tt, x)) by (vm_compute; reflexivity) end.
  destruct (aexit_after_aenter_removes_socket _ _ (Some (OSError "close"))
              (Ok tt) Hen ltac:(discriminate)) as (p & w2 & Hp & Hex & Hfs & _).
  exists w2. split; [exact Hen|]. split; [exact Hex|].
  injection Hp as <-. rewrite Hfs. apply lookup_delete_eq.
Defined.

Lemma unpack_3i_injective_witness :
  length peer_record = 12
  /\ unpack_3i LittleEndian peer_record
     = unpack_3i LittleEndian
         [x39; x30; x00; x00; xe8; x03; x00; x00; xff; xff; xff; xff]
  /\ peer_record = [x39; x30; x00; x00; xe8; x03; x00; x00; xff; xff; xff; xff].
Proof.
  split; [reflexivity|]. split; [reflexivity|].
  exact (unpack_3i_injective LittleEndian peer_record
           [x39; x30; x00; x00; xe8; x03; x00; x00; xff; xff; xff; xff]
           eq_refl eq_refl eq_refl).
Defined.


End MoreRuns.

(** * Properties of the sorting utilities *)

Section Strings.
Import sorting.

Lemma contains_app c x y :
  contains c (x +:+ y) = contains c x || contains c y.
Proof. induction x as [|a x IH]; simpl; [done|]. by rewrite IH, orb_assoc. Qed.

Lemma split_cons c s : exists piece pieces, split c s = piece :: pieces.
Proof.
  induction s as [|a s (p & ps & IH)]; simpl; [by eexists _, _|].
  destruct (Ascii.eqb a c); [by eexists _, _|]. rewrite IH. by eexists _, _.
Qed.

Lemma split_plain c x : contains c x = false -> split c x = [x].
Proof.
  induction x as [|a x IH]; simpl; [done|].
  intros [Ha Hx]%orb_false_elim. rewrite Ha, IH by done. done.
Qed.

Lemma split_app c x s :
  contains c x = false ->
  split c (x +:+ String c s) = x :: split c s.
Proof.
  induction x as [|a x IH]; simpl.
  - intros _. by rewrite Ascii.eqb_refl.
  - intros [Ha Hx]%orb_false_elim. rewrite Ha, IH by done. done.
Qed.

(** Splitting at the separator undoes joining with it, for pieces that
    do not contain the separator; the join of no pieces splits into one
    empty piece. *)
Lemma split_join c xs :
  xs <> [] -> Forall (fun x => contains c x = false) xs ->
  split c (join (String c EmptyString) xs) = xs.
Proof.
  induction xs as [|x xs IH]; [done|]. intros _ Hall.
  apply Forall_cons in Hall as [Hx Hxs].
  destruct xs as [|y ys]; [by apply split_plain|].
  change (join (String c EmptyString) (x :: y :: ys))
    with (x +:+ String c (join (String c EmptyString) (y :: ys))).
  rewrite split_app by done. f_equal. by apply IH.
Qed.

Lemma append_assoc (x y z : string) : (x +:+ y) +:+ z = x +:+ y +:+ z.
Proof.
  induction x as [|a x IH]; [done|].
  change (String a ((x +:+ y) +:+ z) = String a (x +:+ y +:+ z)).
  by rewrite IH.
Qed.

Lemma join_app sep xs ys :
  xs <> [] -> ys <> [] ->
  join sep (xs ++ ys) = join sep xs +:+ sep +:+ join sep ys.
Proof.
  intros Hx Hy. induction xs as [|x xs IH]; [done|].
  destruct xs as [|x' xs'].
  - simpl. by destruct ys.
  - change (join sep ((x :: x' :: xs') ++ ys))
      with (x +:+ sep +:+ join sep ((x' :: xs') ++ ys)).
    rewrite IH by done.
    change (join sep (x :: x' :: xs'))
      with (x +:+ sep +:+ join sep (x' :: xs')).
    by rewrite !append_assoc.
Qed.

(** Joining the joined lists is joining their concatenation, when none
    of the lists is empty. *)
Lemma join_join sep ls :
  Forall (fun l => l <> []) ls ->
  join sep (join sep <$> ls) = join sep (concat ls).
Proof.
  induction ls as [|l ls IH]; [done|]. intros Hall.
  apply Forall_cons in Hall as [Hl Hls].
  destruct ls as [|l' ls']; [simpl; by rewrite app_nil_r|].
  change (join sep (join sep <$> l :: l' :: ls'))
    with (join sep l +:+ sep +:+ join sep (join sep <$> l' :: ls')).
  rewrite IH by done.
  change (concat (l :: l' :: ls')) with (l ++ concat (l' :: ls')).
  rewrite (join_app sep l (concat (l' :: ls'))); [done|done|].
  apply Forall_cons in Hls as [Hl' _]. by destruct l'.
Qed.

Lemma insert_sorted_perm x xs : insert_sorted x xs ≡ₚ x :: xs.
Proof.
  induction xs as [|y ys IH]; simpl; [done|].
  destruct (String.leb x y); [done|]. rewrite IH. apply Permutation_swap.
Qed.

(** [sorted] rearranges, it neither drops nor adds. *)
Lemma sorted_perm xs : sorted xs ≡ₚ xs.
Proof.
  induction xs as [|x xs IH]; simpl; [done|].
  by rewrite insert_sorted_perm, IH.
Qed.

End Strings.

Section Rounds.
Import sorting.
#[local] Set Warnings "-clear-no-such-hyp".
Implicit Types (cur : gmap string (gset string)) (d : Dict).

Lemma elem_of_no_deps cur k : k ∈ no_deps cur ↔ cur !! k = Some ∅.
Proof.
  unfold no_deps. rewrite elem_of_dom. split.
  - intros [deps [Hk Hd]%map_lookup_filter_Some]. simpl in Hd. by subst.
  - intros Hk. exists ∅. by apply map_lookup_filter_Some.
Qed.

Lemma no_deps_subseteq cur : no_deps cur ⊆ dom cur.
Proof. intros k Hk%elem_of_no_deps. apply elem_of_dom. by eexists. Qed.

Lemma lookup_strip_Some cur o k deps' :
  strip o cur !! k = Some deps' <->
  (k ∉ o) ∧ ∃ deps, cur !! k = Some deps ∧ deps' = deps ∖ o.
Proof.
  unfold strip. rewrite lookup_fmap_Some. split.
  - intros (deps & <- & [Hk Hn]%map_lookup_filter_Some). eauto.
  - intros (Hn & deps & Hk & ->). exists deps. split; [done|].
    by apply map_lookup_filter_Some.
Qed.

Lemma dom_strip cur o : dom (strip o cur) = dom cur ∖ o.
Proof.
  apply set_eq; intros k. rewrite elem_of_difference, !elem_of_dom. split.
  - intros [x (Hn & deps & Hk & _)%lookup_strip_Some]. eauto.
  - intros [[deps Hk] Hn]. exists (deps ∖ o). apply lookup_strip_Some. eauto.
Qed.

Lemma size_strip cur :
  no_deps cur ≠ ∅ -> size (strip (no_deps cur) cur) < size cur.
Proof.
  intros Hne. rewrite <- !size_dom, dom_strip.
  apply subset_size. pose proof (no_deps_subseteq cur) as Hsub.
  apply set_choose_L in Hne as [k Hk]. set_solver.
Qed.

Lemma sorted_nonempty (o : gset string) : o ≠ ∅ -> sorted (elements o) ≠ [].
Proof.
  intros Hne Hnil. pose proof (sorted_perm (elements o)) as Hp.
  rewrite Hnil in Hp. symmetry in Hp. apply Permutation_nil_r in Hp.
  apply elements_empty_inv in Hp. by apply leibniz_equiv in Hp.
Qed.

Lemma before_app_r j k p l : before j k l -> before j k (p ++ l).
Proof.
  intros (l1 & l2 & l3 & ->). exists (p ++ l1), l2, l3. by rewrite <- app_assoc.
Qed.

Lemma before_across j k p l : j ∈ p -> k ∈ l -> before j k (p ++ l).
Proof.
  intros (p1 & p2 & ->)%list_elem_of_split (q1 & q2 & ->)%list_elem_of_split.
  exists p1, (p2 ++ q1), q2. by rewrite <- !app_assoc.
Qed.

(** What the rounds yield when the loop ends with nothing left: no
    round is empty, the rounds together hold every item once, and every
    item comes in a later round than each of its dependencies. *)
Lemma rounds_sound fuel cur ys :
  rounds fuel cur = Returned ys ->
  Forall (fun l => l <> []) ys /\
  concat ys ≡ₚ elements (dom cur) /\
  (forall k deps j, cur !! k = Some deps -> j ∈ deps -> before j k (concat ys)).
Proof.
  revert cur ys. induction fuel as [|fuel IH]; intros cur ys; simpl; [done|].
  destruct (decide (no_deps cur = ∅)) as [He|Hne].
  - destruct (decide (cur = ∅)) as [->|]; [|done]. intros [= <-].
    split_and!; [done| by rewrite dom_empty_L, elements_empty |].
    intros k deps j Hk. by rewrite lookup_empty in Hk.
  - destruct (rounds fuel (strip (no_deps cur) cur)) as [ys'| |] eqn:Hr;
      [|done..].
    intros [= <-]. destruct (IH _ _ Hr) as (Hall & Hperm & Hord).
    pose proof (no_deps_subseteq cur) as Hsub.
    assert (Hall' : concat ys' ≡ₚ elements (dom cur ∖ no_deps cur))
      by (by rewrite <- dom_strip).
    split_and!.
    + constructor; [by apply sorted_nonempty | done].
    + simpl. rewrite sorted_perm, Hall'.
      rewrite <- elements_disj_union by set_solver.
      apply elements_proper. set_unfold. intros k. split; [naive_solver|].
      intros Hk. destruct (decide (k ∈ no_deps cur)); set_solver.
    + intros k deps j Hk Hj. simpl.
      assert (Hnk : k ∉ no_deps cur).
      { intros Hin%elem_of_no_deps. rewrite Hk in Hin.
        injection Hin as ->. set_solver. }
      destruct (decide (j ∈ no_deps cur)) as [Hjo|Hjo].
      * apply before_across.
        -- rewrite sorted_perm. by apply elem_of_elements.
        -- rewrite Hall'. apply elem_of_elements, elem_of_difference.
           split; [|done]. apply elem_of_dom. by eexists.
      * apply before_app_r, (Hord k (deps ∖ no_deps cur) j).
        -- apply lookup_strip_Some. eauto.
        -- set_solver.
Qed.

(** One round for every item is enough: the loop does not run on. *)
Lemma rounds_total fuel cur : size cur < fuel -> rounds fuel cur <> Diverged.
Proof.
  revert cur. induction fuel as [|fuel IH]; intros cur Hlt; [lia|]. simpl.
  destruct (decide (no_deps cur = ∅)) as [He|Hne].
  - by destruct (decide (cur = ∅)).
  - pose proof (size_strip cur Hne) as Hs.
    specialize (IH (strip (no_deps cur) cur) ltac:(lia)).
    by destruct (rounds fuel (strip (no_deps cur) cur)).
Qed.

Lemma knot_strip cur K :
  knot cur K -> knot (strip (no_deps cur) cur) K /\ K ## no_deps cur.
Proof.
  intros [Hne Hk].
  assert (Hdisj : K ## no_deps cur).
  { intros k HK Ho%elem_of_no_deps.
    destruct (Hk k HK) as (deps & j & Hl & Hj & _). rewrite Hl in Ho.
    injection Ho as ->. set_solver. }
  split; [|done]. split; [done|]. intros k HK.
  destruct (Hk k HK) as (deps & j & Hl & Hj & HjK).
  exists (deps ∖ no_deps cur), j. split_and!; [|set_solver|done].
  apply lookup_strip_Some. split; [set_solver|eauto].
Qed.

(** Items that depend on each other in a circle are never ordered. *)
Lemma rounds_knot fuel cur K ys :
  knot cur K -> rounds fuel cur <> Returned ys.
Proof.
  revert cur ys. induction fuel as [|fuel IH]; intros cur ys HK; simpl; [done|].
  destruct (decide (no_deps cur = ∅)) as [He|Hne].
  - destruct (decide (cur = ∅)) as [->|]; [|done].
    destruct HK as [Hne Hk]. apply set_choose_L in Hne as [k Hin].
    destruct (Hk k Hin) as (deps & j & Hl & _). by rewrite lookup_empty in Hl.
  - apply knot_strip in HK as [HK _].
    destruct (rounds fuel (strip (no_deps cur) cur)) as [ys'| |] eqn:Hr;
      [|done..].
    by specialize (IH _ ys' HK).
Qed.

Lemma closed_strip cur o : closed cur -> closed (strip o cur).
Proof.
  intros Hc k deps' (Hn & deps & Hk & ->)%lookup_strip_Some.
  rewrite dom_strip. specialize (Hc k deps Hk). set_solver.
Qed.

(** The only fault of the loop is the cyclic reference, and what it
    reports is a circle: every item left over depends on another item
    left over. *)
Lemma rounds_raised fuel cur e :
  closed cur -> rounds fuel cur = Raised e ->
  exists rem, e = CyclicReference rem /\ knot cur (dom rem).
Proof.
  revert cur. induction fuel as [|fuel IH]; intros cur Hc; simpl; [done|].
  destruct (decide (no_deps cur = ∅)) as [He|Hne].
  - destruct (decide (cur = ∅)) as [|Hcur]; [done|]. intros [= <-].
    exists cur. split; [done|]. split.
    + intros Hd. by apply dom_empty_inv_L in Hd.
    + intros k [deps Hk]%elem_of_dom.
      destruct (decide (deps = ∅)) as [->|Hd].
      * apply elem_of_no_deps in Hk. set_solver.
      * apply set_choose_L in Hd as [j Hj]. exists deps, j.
        split_and!; [done..|]. by apply (Hc k deps).
  - destruct (rounds fuel (strip (no_deps cur) cur)) as [ys'| |] eqn:Hr;
      [done| |done].
    intros [= ->].
    destruct (IH _ (closed_strip _ _ Hc) Hr) as (rem & -> & Hne' & Hk).
    exists rem. split; [done|]. split; [done|]. intros k Hin.
    destruct (Hk k Hin) as (deps' & j & (Hn & deps & Hl & ->)%lookup_strip_Some
                                 & Hj & HjK).
    exists deps, j. split_and!; [done|set_solver|done].
Qed.

End Rounds.

Section Dicts.
Import sorting.
Implicit Types (cur : gmap string (gset string)) (d : Dict).

Lemma discard_fold_elem (l : list (string * nat)) (o : gmap nat (gset string))
    a x :
  x ∈ default ∅
        (foldr (fun ka o => alter (fun s => s ∖ {[ka.1]}) ka.2 o) o l !! a)
  <-> x ∈ default ∅ (o !! a) /\ (x, a) ∉ l.
Proof.
  induction l as [|[k b] l IH]; simpl.
  - split; [intros Hx; split; [done|apply not_elem_of_nil] | by intros [Hx _]].
  - rewrite not_elem_of_cons. destruct (decide (b = a)) as [->|Hne].
    + rewrite lookup_alter_eq.
      destruct (foldr _ o l !! a) as [s|] eqn:E; simpl in *.
      * rewrite elem_of_difference, IH, elem_of_singleton. split.
        -- intros [[Hx Hl] Hk]. split_and!; [done| |done]. by intros [= ->].
        -- intros (Hx & Hk & Hl). split_and!; [done..|]. by intros ->.
      * split; [by intros Hx%elem_of_empty|].
        intros (Hx & _ & Hl). by apply IH.
    + rewrite lookup_alter_ne by done. rewrite IH. split.
      * intros [Hx Hl]. split_and!; [done| |done]. by intros [= _ ->].
      * by intros (Hx & _ & Hl).
Qed.

(** The pass over the self-references takes out of a set object the key
    of every entry that holds this object. *)
Lemma set_at_discard_self d a x :
  x ∈ set_at (discard_self d) a <-> x ∈ set_at d a /\ items d !! x <> Some a.
Proof.
  unfold set_at, discard_self; simpl. rewrite discard_fold_elem.
  by rewrite elem_of_map_to_list.
Qed.

Lemma set_at_add_item i d a : set_at (add_item i d) a = set_at d a.
Proof.
  unfold set_at, add_item; simpl.
  destruct (decide (fresh (dom (objs d)) = a)) as [<-|Hne].
  - rewrite lookup_insert_eq.
    by rewrite (not_elem_of_dom_1 _ _ (is_fresh (dom (objs d)))).
  - by rewrite lookup_insert_ne.
Qed.

Lemma view_add_item i d : view (add_item i d) = <[i := ∅]> (view d).
Proof.
  unfold view. apply map_eq; intros k. rewrite lookup_fmap. simpl items.
  destruct (decide (i = k)) as [->|Hne].
  - rewrite !lookup_insert_eq. simpl. f_equal.
    unfold set_at, add_item; simpl. by rewrite lookup_insert_eq.
  - rewrite !lookup_insert_ne by done. rewrite lookup_fmap.
    destruct (items d !! k); simpl; [|done]. f_equal. apply set_at_add_item.
Qed.

Lemma view_update_foreign F d k :
  view (update_foreign F d) !! k
  = if decide (k ∈ F) then Some ∅ else view d !! k.
Proof.
  unfold update_foreign.
  assert (Hl : forall l,
    view (foldr add_item d l) !! k
    = if decide (k ∈ l) then Some ∅ else view d !! k).
  { induction l as [|i l IH]; simpl.
    - destruct (decide (k ∈ [])) as [Hin|]; [|done]. by apply elem_of_nil in Hin.
    - rewrite view_add_item. destruct (decide (i = k)) as [->|Hne].
      + rewrite lookup_insert_eq. rewrite decide_True; [done|by left].
      + rewrite lookup_insert_ne, IH by done.
        destruct (decide (k ∈ l)) as [Hin|Hin].
        * rewrite decide_True; [done|by right].
        * rewrite decide_False; [done|].
          rewrite not_elem_of_cons. by split. }
  rewrite Hl. destruct (decide (k ∈ F)) as [Hin|Hin].
  - rewrite decide_True; [done|by apply elem_of_elements].
  - rewrite decide_False; [done|by rewrite elem_of_elements].
Qed.

Lemma foldl_union_elem (v : gset string) rest x :
  x ∈ foldl (∪) v rest <-> x ∈ v \/ exists w, w ∈ rest /\ x ∈ w.
Proof.
  revert v. induction rest as [|w rest IH]; intros v; simpl.
  - split; [by left|]. intros [Hx|(w & Hw%elem_of_nil & _)]; done.
  - rewrite IH, elem_of_union. split.
    + intros [[Hx|Hx]|(w' & Hw & Hx)]; [by left| |].
      * right. exists w. split; [by left|done].
      * right. exists w'. split; [by right|done].
    + intros [Hx|(w' & Hw & Hx)]; [by left; left|].
      apply elem_of_cons in Hw as [->|Hw]; [by left; right|].
      right. by exists w'.
Qed.

Lemma reduce_union_Returned vs u x :
  reduce_union vs = Returned u -> x ∈ u <-> exists v, v ∈ vs /\ x ∈ v.
Proof.
  destruct vs as [|v rest]; simpl; [done|]. intros [= <-].
  rewrite foldl_union_elem. split.
  - intros [Hx|(w & Hw & Hx)]; [exists v; split; [by left|done]|].
    exists w. split; [by right|done].
  - intros (w & Hw & Hx). apply elem_of_cons in Hw as [->|Hw]; [by left|].
    right. by exists w.
Qed.

Lemma elem_of_values d v :
  v ∈ values d <-> exists k a, items d !! k = Some a /\ v = set_at d a.
Proof.
  unfold values. rewrite list_elem_of_fmap. split.
  - intros ([k a] & -> & Hka%elem_of_map_to_list). by exists k, a.
  - intros (k & a & Hka & ->). exists (k, a). split; [done|].
    by apply elem_of_map_to_list.
Qed.

Lemma values_nil d : values d = [] <-> items d = ∅.
Proof.
  unfold values. rewrite <- map_to_list_empty_iff. split.
  - apply fmap_nil_inv.
  - by intros ->.
Qed.

Lemma reduce_union_values d :
  items d <> ∅ -> exists u, reduce_union (values (discard_self d)) = Returned u.
Proof.
  intros Hne. destruct (values (discard_self d)) as [|v rest] eqn:E.
  - by apply values_nil in E.
  - by eexists.
Qed.

(** The entries when the loop starts: an entry of the argument keeps its
    set object, as the pass over the self-references left it; a name
    that is no key and occurs in one of the sets is entered with an
    empty set. *)
Lemma view_prepared d :
  exists u : gset string,
    (forall x, x ∈ u <->
       exists k0 a0, items d !! k0 = Some a0 /\
                     x ∈ set_at (discard_self d) a0) /\
    (forall k, view (prepared d) !! k =
       match view (discard_self d) !! k with
       | Some deps => Some deps
       | None => if decide (k ∈ u) then Some ∅ else None
       end).
Proof.
  unfold prepared. destruct (reduce_union (values (discard_self d)))
    as [u|e|] eqn:Hu.
  - exists u. split.
    + intros x. rewrite (reduce_union_Returned _ _ x Hu). split.
      * intros (v & (k0 & a0 & Hk & ->)%elem_of_values & Hx). by exists k0, a0.
      * intros (k0 & a0 & Hk & Hx). exists (set_at (discard_self d) a0).
        split; [|done]. apply elem_of_values. by exists k0, a0.
    + intros k. rewrite view_update_foreign.
      destruct (view (discard_self d) !! k) as [deps|] eqn:Hk.
      * rewrite decide_False; [done|]. rewrite elem_of_difference.
        intros [_ Hn]. apply Hn. rewrite <- (dom_fmap_L (set_at (discard_self d))).
        apply elem_of_dom. by eexists.
      * destruct (decide (k ∈ u)) as [Hin|Hin].
        -- rewrite decide_True; [done|]. apply elem_of_difference.
           split; [done|]. rewrite <- (dom_fmap_L (set_at (discard_self d))).
           by apply not_elem_of_dom.
        -- rewrite decide_False; [done|]. rewrite elem_of_difference. tauto.
  - destruct (values (discard_self d)) as [|v rest] eqn:E; [|done].
    apply values_nil in E. simpl in E. exists ∅. split.
    + intros x. split; [by intros Hx%elem_of_empty|].
      intros (k0 & a0 & Hk & _). by rewrite E, lookup_empty in Hk.
    + intros k. destruct (view (discard_self d) !! k); [done|].
      rewrite decide_False; [done|]. apply not_elem_of_empty.
  - by destruct (values (discard_self d)).
Qed.

Lemma view_prepared_old d k deps :
  view (discard_self d) !! k = Some deps ->
  view (prepared d) !! k = Some deps.
Proof.
  intros Hk. destruct (view_prepared d) as (u & _ & Hv). by rewrite Hv, Hk.
Qed.

Lemma items_update_foreign F d k :
  k ∉ F -> items (update_foreign F d) !! k = items d !! k.
Proof.
  unfold update_foreign. intros Hk.
  assert (Hl : forall l,
    k ∉ l -> items (foldr add_item d l) !! k = items d !! k).
  { induction l as [|i l IH]; simpl; [done|].
    rewrite not_elem_of_cons. intros [Hne Hl].
    rewrite lookup_insert_ne by done. by apply IH. }
  apply Hl. by rewrite elem_of_elements.
Qed.

(** The keys the dictionary had keep their set objects. *)
Lemma items_prepared_old d k a :
  items d !! k = Some a -> items (prepared d) !! k = Some a.
Proof.
  intros Hk. unfold prepared.
  destruct (reduce_union (values (discard_self d))) as [u|e|]; try done.
  rewrite items_update_foreign; [done|].
  rewrite elem_of_difference, elem_of_dom. intros [_ Hn]. apply Hn.
  by exists a.
Qed.

Lemma view_prepared_deps d k deps j :
  view (prepared d) !! k = Some deps -> j ∈ deps ->
  view (discard_self d) !! k = Some deps.
Proof.
  intros Hk Hj. destruct (view_prepared d) as (u & _ & Hv).
  rewrite Hv in Hk. destruct (view (discard_self d) !! k); [done|].
  destruct (decide (k ∈ u)); [|done]. injection Hk as <-.
  by apply elem_of_empty in Hj.
Qed.

Lemma lookup_view d k deps :
  view d !! k = Some deps <->
  exists a, items d !! k = Some a /\ deps = set_at d a.
Proof.
  unfold view. rewrite lookup_fmap_Some. split.
  - intros (a & <- & Ha). by exists a.
  - intros (a & Ha & ->). by exists a.
Qed.

Lemma dom_view d : dom (view d) = dom (items d).
Proof. unfold view. apply dom_fmap_L. Qed.

(** When the loop starts, every dependency is an item. *)
Lemma closed_prepared d : closed (view (prepared d)).
Proof.
  intros k deps Hk j Hj.
  pose proof (view_prepared_deps d k deps j Hk Hj) as Hold.
  destruct (view_prepared d) as (u & Hu & Hv).
  apply elem_of_dom. rewrite Hv.
  destruct (view (discard_self d) !! j); [done|].
  rewrite decide_True; [done|]. apply Hu.
  apply lookup_view in Hold as (a & Ha & ->). exists k, a. split; [|done].
  exact Ha.
Qed.

Lemma knot_prepared d K :
  knot (view (prepared d)) K <-> knot (view (discard_self d)) K.
Proof.
  split; intros [Hne Hk]; (split; [done|]); intros k Hin;
    destruct (Hk k Hin) as (deps & j & Hl & Hj & HjK); exists deps, j;
    (split_and!; [|done..]).
  - by apply (view_prepared_deps d k deps j).
  - by apply view_prepared_old.
Qed.

Lemma topologicalSorter_unfold d :
  topologicalSorter d =
  (if decide (items d = ∅) then Raised TypeError_reduce
   else match rounds (S (size (items (prepared d)))) (view (prepared d)) with
        | Returned ys =>
            Returned (filter (fun g => g ∈ dom (items (prepared d)))
                        (split space
                           (join (String space EmptyString)
                              (join (String space EmptyString) <$> ys))))
        | Raised e => Raised e
        | Diverged => Diverged
        end,
   prepared d).
Proof.
  unfold topologicalSorter, prepared.
  destruct (decide (items d = ∅)) as [He|Hne].
  - assert (E : values (discard_self d) = []) by (by apply values_nil).
    by rewrite E.
  - destruct (reduce_union_values d Hne) as [u ->].
    by destruct (rounds _ _).
Qed.

Lemma discard_self_empty d : items d = ∅ -> discard_self d = d.
Proof.
  destruct d as [i o]; simpl. intros ->. unfold discard_self; simpl.
  by rewrite map_to_list_empty.
Qed.

Lemma prepared_empty d : items d = ∅ -> prepared d = d.
Proof.
  intros He. unfold prepared.
  assert (E : values (discard_self d) = []) by (by apply values_nil).
  rewrite E. simpl. by apply discard_self_empty.
Qed.

Lemma prepared_nonempty d : items d <> ∅ -> view (prepared d) <> ∅.
Proof.
  intros Hne Hv. apply map_choose in Hne as (k & a & Hk).
  assert (Hold : view (discard_self d) !! k = Some (set_at (discard_self d) a)).
  { apply lookup_view. by exists a. }
  apply view_prepared_old in Hold. by rewrite Hv, lookup_empty in Hold.
Qed.

(** Every name the loop deals with is a key of the argument or a member
    of one of its sets. *)
Lemma prepared_names d k :
  is_Some (items (prepared d) !! k) ->
  is_Some (items d !! k) \/
  exists k0 a0, items d !! k0 = Some a0 /\ k ∈ set_at d a0.
Proof.
  intros Hk. rewrite <- elem_of_dom, <- dom_view, elem_of_dom in Hk.
  destruct Hk as [deps Hk]. destruct (view_prepared d) as (u & Hu & Hv).
  rewrite Hv in Hk.
  destruct (view (discard_self d) !! k) as [deps'|] eqn:Hold.
  - left. apply lookup_view in Hold as (a & Ha & _). by exists a.
  - destruct (decide (k ∈ u)) as [Hin|]; [|done]. right.
    apply Hu in Hin as (k0 & a0 & Hk0 & Hx). exists k0, a0. split; [done|].
    by apply set_at_discard_self in Hx as [Hx _].
Qed.

Lemma filter_all {A} (P : A -> Prop) `{forall x, Decision (P x)} (l : list A) :
  Forall P l -> filter P l = l.
Proof.
  induction 1 as [|x l Hx Hl IH]; [done|].
  by rewrite filter_cons_True, IH.
Qed.

(** With no space in a name, what is returned is what the rounds
    yielded, one after the other. *)
Lemma topologicalSorter_Returned d out :
  names_without_space d ->
  (topologicalSorter d).1 = Returned out ->
  exists ys,
    rounds (S (size (items (prepared d)))) (view (prepared d)) = Returned ys /\
    out = concat ys.
Proof.
  intros Hnames. rewrite topologicalSorter_unfold. cbn [fst].
  destruct (decide (items d = ∅)) as [He|Hne]; [done|].
  destruct (rounds (S (size (items (prepared d)))) (view (prepared d)))
    as [ys| |] eqn:Hr; [|done..].
  intros [= <-].
  exists ys. split; [done|].
  destruct (rounds_sound _ _ _ Hr) as (Hall & Hperm & _).
  assert (Hkeys : forall g, g ∈ concat ys -> g ∈ dom (items (prepared d))).
  { intros g Hg. rewrite Hperm in Hg. apply elem_of_elements in Hg.
    by rewrite dom_view in Hg. }
  assert (Hplain : Forall (fun x => contains space x = false) (concat ys)).
  { apply Forall_forall. intros g Hg%Hkeys%elem_of_dom.
    apply prepared_names in Hg as [[a Ha]|(k0 & a0 & Hk0 & Hx)].
    - by destruct (Hnames g a Ha).
    - destruct (Hnames k0 a0 Hk0) as [_ Hset]. by apply Hset. }
  assert (Hcat : concat ys <> []).
  { intros Hnil. rewrite Hnil in Hperm. symmetry in Hperm.
    apply Permutation_nil_r, elements_empty_inv, leibniz_equiv in Hperm.
    apply dom_empty_inv_L in Hperm. by apply (prepared_nonempty d). }
  rewrite join_join, split_join by done.
  apply filter_all. by apply Forall_forall.
Qed.

End Dicts.

(** * The topological sorter *)

Section Sorting.
Import sorting.
Implicit Types (d : Dict).

(** X14 ([topologicalSorter], sorting.py:13-52): on a dictionary without
    entries the call ends in the [TypeError] of [reduce] over an empty
    sequence, and it ends so on no other dictionary; the empty
    dictionary is left as it was. *)
Theorem topologicalSorter_empty_is_TypeError d :
  ((topologicalSorter d).1 = Raised TypeError_reduce <-> items d = ∅) /\
  (items d = ∅ -> (topologicalSorter d).2 = d).
Proof.
  rewrite topologicalSorter_unfold. cbn [fst snd]. split.
  - destruct (decide (items d = ∅)) as [He|Hne]; [done|]. split; [|done].
    destruct (rounds (S (size (items (prepared d)))) (view (prepared d)))
      as [ys|e|] eqn:Hr; [done| |done].
    intros [= ->].
    by destruct (rounds_raised _ _ _ (closed_prepared d) Hr) as (rem & ? & _).
  - apply prepared_empty.
Qed.

(** X15 ([topologicalSorter], sorting.py:30-52): when no name holds a
    space and the call returns, the list returned holds every key of
    the dictionary as the call leaves it (the foreign items included)
    exactly once, and every item comes after each of its
    dependencies. *)
Theorem topologicalSorter_orders_dependencies d out :
  names_without_space d ->
  (topologicalSorter d).1 = Returned out ->
  NoDup out /\
  (forall g, g ∈ out <-> is_Some (items (topologicalSorter d).2 !! g)) /\
  (forall k deps j,
     view (topologicalSorter d).2 !! k = Some deps -> j ∈ deps ->
     before j k out).
Proof.
  intros Hn Hr.
  destruct (topologicalSorter_Returned d out Hn Hr) as (ys & Hys & ->).
  rewrite topologicalSorter_unfold; cbn [snd].
  destruct (rounds_sound _ _ _ Hys) as (_ & Hperm & Hord).
  split_and!.
  - rewrite Hperm. apply NoDup_elements.
  - intros g. rewrite Hperm, elem_of_elements, dom_view. apply elem_of_dom.
  - exact Hord.
Qed.

(** X16 ([topologicalSorter], sorting.py:30-52): on a dictionary with
    entries the call returns or raises [CyclicReference], and it raises
    exactly when some items depend on each other in a circle (the
    self-references set aside); the items the exception reports form
    such a circle. *)
Theorem topologicalSorter_cyclic_iff_knot d :
  items d <> ∅ ->
  (forall rem,
     (topologicalSorter d).1 = Raised (CyclicReference rem) ->
     knot (view (discard_self d)) (dom rem)) /\
  ((exists K, knot (view (discard_self d)) K) ->
   exists rem, (topologicalSorter d).1 = Raised (CyclicReference rem)) /\
  ((~ exists K, knot (view (discard_self d)) K) ->
   exists out, (topologicalSorter d).1 = Returned out).
Proof.
  intros Hne. rewrite topologicalSorter_unfold. cbn [fst].
  rewrite decide_False by done.
  assert (Hfuel : size (view (prepared d)) < S (size (items (prepared d))))
    by (unfold view; rewrite map_size_fmap; lia).
  pose proof (rounds_total _ _ Hfuel) as Htot.
  destruct (rounds (S (size (items (prepared d)))) (view (prepared d)))
    as [ys|e|] eqn:Hr; [| |done].
  - split_and!; [done| |by eexists].
    intros [K HK%knot_prepared]. destruct (rounds_knot _ _ _ _ HK Hr).
  - destruct (rounds_raised _ _ _ (closed_prepared d) Hr)
      as (rem & -> & HK%knot_prepared).
    split_and!.
    + by intros rem' [= <-].
    + intros _. by exists rem.
    + intros Hno. destruct Hno. by exists (dom rem).
Qed.

(** X17 ([topologicalSorter], sorting.py:31-37): what the call does to
    its argument.  Every entry keeps its set object, out of which the
    key of each entry holding this object has been taken; every name
    that is no key and occurs in one of the sets has become a key with
    an empty set; no other key is added. *)
Theorem topologicalSorter_updates_dict d :
  (forall k a, items d !! k = Some a ->
     items (topologicalSorter d).2 !! k = Some a /\
     exists deps,
       view (topologicalSorter d).2 !! k = Some deps /\
       forall x, x ∈ deps <-> x ∈ set_at d a /\ items d !! x <> Some a) /\
  (forall k, items d !! k = None ->
     (view (topologicalSorter d).2 !! k = Some ∅ /\
      exists k0 a0, items d !! k0 = Some a0 /\ k ∈ set_at d a0) \/
     (view (topologicalSorter d).2 !! k = None /\
      forall k0 a0, items d !! k0 = Some a0 -> k ∉ set_at d a0)).
Proof.
  rewrite topologicalSorter_unfold; cbn [snd].
  destruct (view_prepared d) as (u & Hu & Hv). split.
  - intros k a Hk. split; [by apply items_prepared_old|].
    exists (set_at (discard_self d) a). split.
    + apply view_prepared_old, lookup_view. by exists a.
    + intros x. apply set_at_discard_self.
  - intros k Hk.
    assert (Hold : view (discard_self d) !! k = None).
    { unfold view. rewrite lookup_fmap. simpl. by rewrite Hk. }
    rewrite Hv, Hold. destruct (decide (k ∈ u)) as [Hin|Hin].
    + left. split; [done|]. apply Hu in Hin as (k0 & a0 & Hk0 & Hx).
      exists k0, a0. split; [done|].
      by apply set_at_discard_self in Hx as [Hx _].
    + right. split; [done|]. intros k0 a0 Hk0 Hx. apply Hin, Hu.
      exists k0, a0. split; [done|]. apply set_at_discard_self.
      split; [done|]. by rewrite Hk.
Qed.

(** X18 ([topologicalSorter], sorting.py:40-52): when no name holds a
    space and the call returns, the list returned begins with the items
    that have no dependencies, in ascending order. *)
Theorem topologicalSorter_roots_first d out :
  names_without_space d ->
  (topologicalSorter d).1 = Returned out ->
  exists rest,
    out = sorted (elements (no_deps (view (topologicalSorter d).2))) ++ rest.
Proof.
  intros Hn Hr.
  destruct (topologicalSorter_Returned d out Hn Hr) as (ys & Hys & ->).
  rewrite topologicalSorter_unfold; cbn [snd]. simpl in Hys.
  destruct (decide (no_deps (view (prepared d)) = ∅)) as [He|Hne].
  - destruct (decide (view (prepared d) = ∅)); [|done].
    injection Hys as <-. exists []. by rewrite He, elements_empty.
  - destruct (rounds (size (items (prepared d)))
                (strip (no_deps (view (prepared d))) (view (prepared d))))
      as [ys'| |]; [|done..].
    injection Hys as <-. by exists (concat ys').
Qed.

End Sorting.

Section SortingRuns.
Import sorting Samples.

Lemma topologicalSorter_orders_dependencies_witness :
  names_without_space docstring_data /\
  (topologicalSorter docstring_data).1 = Returned ["A"; "B"; "C"; "D"]%string /\
  NoDup ["A"; "B"; "C"; "D"]%string /\
  (forall g, g ∈ ["A"; "B"; "C"; "D"]%string <->
             is_Some (items (topologicalSorter docstring_data).2 !! g)) /\
  (forall k deps j,
     view (topologicalSorter docstring_data).2 !! k = Some deps -> j ∈ deps ->
     before j k ["A"; "B"; "C"; "D"]%string).
Proof.
  assert (Hn : names_without_space docstring_data)
    by (unfold names_without_space; apply (bool_decide_unpack _); vm_compute;
        exact I).
  assert (Hr : (topologicalSorter docstring_data).1
               = Returned ["A"; "B"; "C"; "D"]%string)
    by (vm_compute; reflexivity).
  split; [exact Hn|]. split; [exact Hr|].
  exact (topologicalSorter_orders_dependencies docstring_data _ Hn Hr).
Defined.

Lemma topologicalSorter_cyclic_iff_knot_witness :
  items circular_data <> ∅ /\
  exists rem,
    (topologicalSorter circular_data).1 = Raised (CyclicReference rem) /\
    knot (view (discard_self circular_data)) (dom rem).
Proof.
  assert (Hne : items circular_data <> ∅).
  { intros He. assert (Hk : items circular_data !! "A"%string = Some 0%nat)
      by (vm_compute; reflexivity).
    rewrite He in Hk. discriminate Hk. }
  split; [exact Hne|].
  destruct (topologicalSorter_cyclic_iff_knot circular_data Hne) as [Hrem _].
  destruct (topologicalSorter circular_data).1 as [out|[|rem]|] eqn:Hr;
    [vm_compute in Hr; discriminate Hr..| |vm_compute in Hr; discriminate Hr].
  exists rem. split; [reflexivity|]. by apply Hrem.
Defined.

Lemma topologicalSorter_roots_first_witness :
  names_without_space foreign_data /\
  (topologicalSorter foreign_data).1 = Returned ["core"; "lib"; "app"]%string /\
  exists rest,
    ["core"; "lib"; "app"]%string
    = sorted (elements (no_deps (view (topologicalSorter foreign_data).2)))
      ++ rest.
Proof.
  assert (Hn : names_without_space foreign_data)
    by (unfold names_without_space; apply (bool_decide_unpack _); vm_compute;
        exact I).
  assert (Hr : (topologicalSorter foreign_data).1
               = Returned ["core"; "lib"; "app"]%string)
    by (vm_compute; reflexivity).
  split; [exact Hn|]. split; [exact Hr|].
  exact (topologicalSorter_roots_first foreign_data _ Hn Hr).
Defined.

End SortingRuns.

Section Again.
Import sorting.
Implicit Types (d : Dict).

Lemma split_pieces_plain c s :
  Forall (fun x => contains c x = false) (split c s).
Proof.
  induction s as [|a s IH]; simpl; [by repeat constructor|].
  destruct (Ascii.eqb a c) eqn:Ha; [by constructor|].
  destruct (split c s) as [|piece pieces]; [by repeat constructor; simpl; rewrite Ha|].
  apply Forall_cons in IH as [Hp Hps]. constructor; [|done].
  simpl. by rewrite Ha, Hp.
Qed.

(** When the loop starts no item depends on itself. *)
Lemma prepared_no_self d x a :
  items (prepared d) !! x = Some a -> x ∉ set_at (prepared d) a.
Proof.
  intros Hx Hin.
  assert (Hv : view (prepared d) !! x = Some (set_at (prepared d) a))
    by (apply lookup_view; by exists a).
  apply (view_prepared_deps d x _ x Hv) in Hin as Hold.
  apply lookup_view in Hold as (a' & Ha' & Hs). rewrite Hs in Hin.
  apply set_at_discard_self in Hin as [_ Hne]. by apply Hne.
Qed.

Lemma discard_fold_id (l : list (string * nat)) (o : gmap nat (gset string)) :
  (forall k a, (k, a) ∈ l -> k ∉ default ∅ (o !! a)) ->
  foldr (fun ka o => alter (fun s => s ∖ {[ka.1]}) ka.2 o) o l = o.
Proof.
  induction l as [|[k a] l IH]; intros Hl; simpl; [done|].
  rewrite IH by (intros k' a' Hin; apply Hl; by right).
  apply map_eq; intros b. destruct (decide (a = b)) as [<-|Hne].
  - rewrite lookup_alter_eq. specialize (Hl k a ltac:(by left)).
    destruct (o !! a) as [s|]; simpl in *; [|done].
    f_equal. apply set_eq; intros x.
    rewrite elem_of_difference, elem_of_singleton. split; [by intros [Hx _]|].
    intros Hx. split; [done|]. by intros ->.
  - by rewrite lookup_alter_ne.
Qed.

Lemma discard_self_prepared d : discard_self (prepared d) = prepared d.
Proof.
  unfold discard_self. rewrite discard_fold_id; [by destruct (prepared d)|].
  intros k a Hka%elem_of_map_to_list. by apply prepared_no_self.
Qed.

(** The dictionary a call leaves is one the next call leaves alone. *)
Lemma prepared_prepared d : prepared (prepared d) = prepared d.
Proof.
  unfold prepared at 1. rewrite discard_self_prepared.
  destruct (reduce_union (values (prepared d))) as [u| |] eqn:Hu; [|done..].
  assert (He : u ∖ dom (items (prepared d)) = ∅).
  { apply set_eq; intros x. rewrite elem_of_difference.
    split; [|by intros Hx%elem_of_empty]. intros [Hx Hn]. destruct Hn.
    apply (reduce_union_Returned _ _ x Hu) in Hx
      as (v & (k & a & Hk & ->)%elem_of_values & Hx).
    rewrite <- dom_view. apply (closed_prepared d k (set_at (prepared d) a));
      [|done].
    apply lookup_view. by exists a. }
  rewrite He. unfold update_foreign. by rewrite elements_empty.
Qed.

Lemma items_prepared_empty d : items (prepared d) = ∅ <-> items d = ∅.
Proof.
  split.
  - intros He. destruct (decide (items d = ∅)) as [|Hne]; [done|].
    apply prepared_nonempty in Hne. destruct Hne.
    unfold view. rewrite He. apply fmap_empty.
  - intros He. by rewrite prepared_empty.
Qed.

(** X19 ([topologicalSorter], sorting.py:13-52): a second call on the
    dictionary the first call left ends as the first did, with the same
    list or the same exception, and changes the dictionary no more. *)
Theorem topologicalSorter_again d :
  (topologicalSorter (topologicalSorter d).2).1 = (topologicalSorter d).1 /\
  (topologicalSorter (topologicalSorter d).2).2 = (topologicalSorter d).2.
Proof.
  rewrite (topologicalSorter_unfold d). cbn [snd fst].
  rewrite (topologicalSorter_unfold (prepared d)). cbn [snd fst].
  rewrite prepared_prepared. split; [|done].
  destruct (decide (items d = ∅)) as [He|Hne].
  - rewrite decide_True; [done|]. by apply items_prepared_empty.
  - rewrite decide_False; [done|]. by rewrite items_prepared_empty.
Qed.

(** X20 ([topologicalSorter], sorting.py:51-52): whatever the names
    are, every member of the list returned is a key of the dictionary
    as the call leaves it and holds no space; an item whose name holds a
    space is never in the list. *)
Theorem topologicalSorter_returns_plain_keys d out g :
  (topologicalSorter d).1 = Returned out -> g ∈ out ->
  is_Some (items (topologicalSorter d).2 !! g) /\ contains space g = false.
Proof.
  rewrite topologicalSorter_unfold. cbn [fst snd].
  destruct (decide (items d = ∅)); [done|].
  destruct (rounds (S (size (items (prepared d)))) (view (prepared d)))
    as [ys| |]; [|done..].
  intros [= <-] [Hkey Hg]%list_elem_of_filter. split.
  - by apply elem_of_dom.
  - pose proof (split_pieces_plain space
      (join (String space EmptyString)
         (join (String space EmptyString) <$> ys))) as Hall.
    rewrite Forall_forall in Hall. by apply Hall.
Qed.

End Again.

Section AgainRuns.
Import sorting Samples.

Lemma topologicalSorter_returns_plain_keys_witness :
  (topologicalSorter spaced_data).1 = Returned ["B"]%string /\
  is_Some (items (topologicalSorter spaced_data).2 !! "B"%string) /\
  contains space "B" = false.
Proof.
  assert (Hr : (topologicalSorter spaced_data).1 = Returned ["B"]%string)
    by (vm_compute; reflexivity).
  split; [exact Hr|].
  apply (topologicalSorter_returns_plain_keys spaced_data _ "B"%string Hr).
  by left.
Defined.

End AgainRuns.
